(** * Verification of the image-processing core [c_imgproc_fns.c]

    A shallow embedding of the C functions of [c_imgproc_fns.c] and the
    properties of the pixel codec, the averagers and the four transforms
    (squash, colour rotation, blur, expand).

    Conventions of the embedding.
    - A C [int] / [int32_t] is a [Z] in [[INT_MIN, INT_MAX]]; signed
      arithmetic that leaves this range is undefined behaviour.
    - A [uint32_t] is a [Z] in [[0, 2^32)]; unsigned arithmetic wraps
      modulo [2^32].
    - A computation that may have undefined behaviour (signed overflow,
      division by zero, a read or write outside a pixel buffer) returns an
      [option]; [None] is undefined behaviour.
    - A pixel buffer is a [list Z], read with [!!] and written with
      [<[ _ := _ ]>] behind an explicit bounds check. *)

From Stdlib Require Import ZArith Lia Bool List.
From stdpp Require Import base option list list_numbers.

Local Open Scope Z_scope.

(** ** Machine integers *)

Module CInt.

Definition INT_MAX : Z := 2147483647.
Definition INT_MIN : Z := -2147483648.
Definition UINT_MOD : Z := 4294967296.

(** [z] is representable as a C [int]. *)
Definition in_int (z : Z) : bool := (INT_MIN <=? z) && (z <=? INT_MAX).

(** Conversion of an integer value to [uint32_t]: reduction modulo 2^32. *)
Definition u32 (z : Z) : Z := z mod UINT_MOD.

(** Conversion of a [uint32_t] value to [int]: the value itself when it
    fits, and the two's complement reading otherwise (the conversion is
    implementation-defined in C; this is what GCC and Clang document). *)
Definition to_int (z : Z) : Z := if z <=? INT_MAX then z else z - UINT_MOD.

Definition is_u32 (z : Z) : Prop := 0 <= z < UINT_MOD.

(** Checked signed operations. *)
Definition int_chk (z : Z) : option Z := if in_int z then Some z else None.
Definition int_add (a b : Z) : option Z := int_chk (a + b).
Definition int_mul (a b : Z) : option Z := int_chk (a * b).
Definition int_neg (a : Z) : option Z := int_chk (- a).

(** C division and remainder truncate toward zero ([Z.quot], [Z.rem]);
    a zero divisor and [INT_MIN / -1] are undefined. *)
Definition int_div (a b : Z) : option Z :=
  if b =? 0 then None else int_chk (Z.quot a b).
Definition int_rem (a b : Z) : option Z :=
  if b =? 0 then None else
  if (a =? INT_MIN) && (b =? -1) then None else Some (Z.rem a b).

(** Unsigned division: only a zero divisor is undefined. *)
Definition u32_div (a b : Z) : option Z :=
  if b =? 0 then None else Some (a / b).

End CInt.
Export CInt.

(** ** Counted loops

    [iter n i body s] runs [body i], [body (i+1)], ... [n] times, threading
    the state; the loop variable is a C [int], so each [i++] is a checked
    addition.  The loops of the source are instances:
    [for (int i = lo; i < hi; i++)] runs [hi - lo] times and
    [for (int k = lo; k <= hi; k++)] runs [hi + 1 - lo] times. *)

Section Loops.
Context {St : Type}.

Fixpoint iter (n : nat) (i : Z) (body : Z -> St -> option St) (s : St)
  : option St :=
  match n with
  | O => Some s
  | S n' =>
      s' ← body i s;
      i' ← int_add i 1;
      iter n' i' body s'
  end.

Definition for_lt (lo hi : Z) (body : Z -> St -> option St) (s : St)
  : option St :=
  iter (Z.to_nat (hi - lo)) lo body s.

Definition for_le (lo hi : Z) (body : Z -> St -> option St) (s : St)
  : option St :=
  iter (Z.to_nat (hi + 1 - lo)) lo body s.

End Loops.

(** ** Pixel codec *)

Definition getAlpha (pixel : Z) : Z := Z.land pixel 255.
Definition getBlue (pixel : Z) : Z := Z.land (Z.shiftr pixel 8) 255.
Definition getGreen (pixel : Z) : Z := Z.land (Z.shiftr pixel 16) 255.
Definition getRed (pixel : Z) : Z := Z.land (Z.shiftr pixel 24) 255.

(** The shifts are [uint32_t] shifts: bits moved past bit 31 are lost. *)
Definition createPixel (red green blue alpha : Z) : Z :=
  Z.lor (Z.lor (Z.lor (u32 (Z.shiftl red 24)) (u32 (Z.shiftl green 16)))
               (u32 (Z.shiftl blue 8)))
        alpha.

Definition createAveragePixel (pixel_one pixel_two : Z) : Z :=
  let avg_red := u32 (getRed pixel_one + getRed pixel_two) / 2 in
  let avg_green := u32 (getGreen pixel_one + getGreen pixel_two) / 2 in
  let avg_blue := u32 (getBlue pixel_one + getBlue pixel_two) / 2 in
  let avg_alpha := u32 (getAlpha pixel_one + getAlpha pixel_two) / 2 in
  createPixel avg_red avg_green avg_blue avg_alpha.

Definition quadAveragePixel (pixel_one pixel_two pixel_three pixel_four : Z)
  : Z :=
  let avg_red :=
    u32 (u32 (u32 (getRed pixel_one + getRed pixel_two)
              + getRed pixel_three) + getRed pixel_four) / 4 in
  let avg_green :=
    u32 (u32 (u32 (getGreen pixel_one + getGreen pixel_two)
              + getGreen pixel_three) + getGreen pixel_four) / 4 in
  let avg_blue :=
    u32 (u32 (u32 (getBlue pixel_one + getBlue pixel_two)
              + getBlue pixel_three) + getBlue pixel_four) / 4 in
  let avg_alpha :=
    u32 (u32 (u32 (getAlpha pixel_one + getAlpha pixel_two)
              + getAlpha pixel_three) + getAlpha pixel_four) / 4 in
  createPixel avg_red avg_green avg_blue avg_alpha.

(** ** Images and pixel buffers *)

(** Modelled from the spec: [struct Image] is declared in [imgproc.h],
    which is not among the sources.  The spec gives it as a width, a
    height and a row-major sequence of 32-bit pixels; the source stores
    the two dimensions in [int] variables. *)
Record Image := mkImage { width : Z; height : Z; data : list Z }.

(** [data[idx]] as an rvalue and as an assignment target; an index
    outside the buffer is undefined behaviour. *)
Definition load (d : list Z) (idx : Z) : option Z :=
  if idx <? 0 then None else d !! Z.to_nat idx.

Definition store (d : list Z) (idx v : Z) : option (list Z) :=
  if (0 <=? idx) && (idx <? Z.of_nat (length d))
  then Some (<[Z.to_nat idx := v]> d)
  else None.

Definition rowIndex (index w : Z) : option Z := int_div index w.

Definition columnIndex (index w : Z) : option Z := int_rem index w.

Definition getPixel (input_img : Image) (row col : Z) : option Z :=
  m ← int_mul row (width input_img);
  idx ← int_add m col;
  load (data input_img) idx.

(** ** The running-average accumulator *)

(** Modelled from the spec: [struct PixelAverager] is declared in
    [imgproc.h], which is not among the sources.  The spec gives its
    fields as four per-channel sums and a count, all non-negative
    integers; they are taken to be [uint32_t], the type of the channel
    values that [pa_update] adds to them and of the arguments of
    [createPixel] that [pa_avg_pixel] divides them into.  Sums and count
    therefore wrap modulo [2^32]. *)
Module PA.
Record PixelAverager := mk { r : Z; g : Z; b : Z; a : Z; count : Z }.
End PA.
Abbreviation PixelAverager := PA.PixelAverager.

Definition pa_init : PixelAverager := PA.mk 0 0 0 0 0.

(** [pa->r += getRed(pixel)] and the three other sums, and [pa->count++],
    in the [uint32_t] arithmetic of the fields. *)
Definition pa_update (pa : PixelAverager) (pixel : Z) : PixelAverager :=
  PA.mk (u32 (PA.r pa + getRed pixel)) (u32 (PA.g pa + getGreen pixel))
        (u32 (PA.b pa + getBlue pixel)) (u32 (PA.a pa + getAlpha pixel))
        (u32 (PA.count pa + 1)).

Definition pa_update_from_img (img : Image) (row col : Z)
    (pa : PixelAverager) : option PixelAverager :=
  if (row <? 0) || (row >=? height img) || (col <? 0) || (col >=? width img)
  then Some pa
  else
    m ← int_mul row (width img);
    idx ← int_add m col;
    pixel ← load (data img) idx;
    Some (pa_update pa pixel).

Definition pa_avg_pixel (pa : PixelAverager) : option Z :=
  qr ← u32_div (PA.r pa) (PA.count pa);
  qg ← u32_div (PA.g pa) (PA.count pa);
  qb ← u32_div (PA.b pa) (PA.count pa);
  qa ← u32_div (PA.a pa) (PA.count pa);
  Some (createPixel (u32 qr) (u32 qg) (u32 qb) (u32 qa)).

(** ** Squash *)

(** Reduces the binds of the undefined-behaviour monad, and nothing else. *)
Ltac bind_step := cbn [mbind option_bind].

Definition squash_cell (input_img : Image) (out_w xfac yfac i j : Z)
    (out : list Z) : option (list Z) :=
  src_row ← int_mul i yfac;
  src_col ← int_mul j xfac;
  m ← int_mul src_row (width input_img);
  sidx ← int_add m src_col;
  v ← load (data input_img) sidx;
  m' ← int_mul i out_w;
  didx ← int_add m' j;
  store out didx v.

Definition imgproc_squash (input_img output_img : Image) (xfac yfac : Z)
  : option Image :=
  let out_w := width output_img in
  let out_h := height output_img in
  d ← for_lt 0 out_h
        (fun i d => for_lt 0 out_w (squash_cell input_img out_w xfac yfac i) d)
        (data output_img);
  Some (mkImage out_w out_h d).

(** ** Colour rotation *)

Definition color_rot_pixel (my_pixel : Z) : Z :=
  createPixel (getBlue my_pixel) (getRed my_pixel) (getGreen my_pixel)
              (getAlpha my_pixel).

Definition color_rot_cell (input_img : Image) (i : Z) (out : list Z)
  : option (list Z) :=
  my_pixel ← load (data input_img) i;
  store out i (color_rot_pixel my_pixel).

Definition imgproc_color_rot (input_img output_img : Image) : option Image :=
  n ← int_mul (width input_img) (height input_img);
  d ← for_lt 0 n (color_rot_cell input_img) (data output_img);
  Some (mkImage (width output_img) (height output_img) d).

(** ** Blur *)

(** The four [int] locals of the per-pixel scan. *)
Record BlurAcc := mkAcc { red : Z; green : Z; blue : Z; total : Z }.

(** [x += c] for an [int] [x] and a [uint32_t] [c]: the sum is formed in
    [uint32_t] and converted back to [int]. *)
Definition int_add_u32 (x c : Z) : Z := to_int (u32 (u32 x + c)).

(** The body of the two window loops, for the output pixel [(i, j)] and
    the window offset [(k, l)]. *)
Definition blur_cell (input_img : Image) (rows cols i j k l : Z)
    (acc : BlurAcc) : option BlurAcc :=
  currX ← int_add i k;
  currY ← int_add j l;
  if (0 <=? currX) && (currX <? rows) && (0 <=? currY) && (currY <? cols)
  then
    m ← int_mul currX cols;
    idx ← int_add m currY;
    pixel ← load (data input_img) idx;
    total' ← int_add (total acc) 1;
    Some (mkAcc (int_add_u32 (red acc) (Z.land (Z.shiftr pixel 24) 255))
                (int_add_u32 (green acc) (Z.land (Z.shiftr pixel 16) 255))
                (int_add_u32 (blue acc) (Z.land (Z.shiftr pixel 8) 255))
                total')
  else Some acc.

(** The scan of the window of the output pixel [(i, j)]. *)
Definition blur_scan (input_img : Image) (rows cols blur_dist i j : Z)
  : option BlurAcc :=
  lo ← int_neg blur_dist;
  for_le lo blur_dist
    (fun k acc =>
       lo' ← int_neg blur_dist;
       for_le lo' blur_dist (blur_cell input_img rows cols i j k) acc)
    (mkAcc 0 0 0 0).

Definition blur_pixel (input_img : Image) (rows cols blur_dist i j : Z)
    (out : list Z) : option (list Z) :=
  acc ← blur_scan input_img rows cols blur_dist i j;
  m ← int_mul i cols;
  pos ← int_add m j;
  p ← load (data input_img) pos;
  let alpha := Z.land p 255 in
  qr ← int_div (red acc) (total acc);
  qg ← int_div (green acc) (total acc);
  qb ← int_div (blue acc) (total acc);
  store out pos
    (Z.lor (Z.lor (Z.lor (u32 (Z.shiftl (u32 qr) 24))
                         (u32 (Z.shiftl (u32 qg) 16)))
                  (u32 (Z.shiftl (u32 qb) 8)))
           alpha).

Definition imgproc_blur (input_img output_img : Image) (blur_dist : Z)
  : option Image :=
  let rows := height input_img in
  let cols := width input_img in
  d ← for_lt 0 rows
        (fun i d =>
           for_lt 0 cols (blur_pixel input_img rows cols blur_dist i) d)
        (data output_img);
  Some (mkImage (width output_img) (height output_img) d).

(** ** Expand *)

(** The body of the loop of [imgproc_expand] for the linear index [i].
    [row/2], [col/2 + 1], [row % 2] and the like have a constant divisor
    and a quotient of at most [2^30]: they cannot overflow and are written
    with [Z.quot] and [Z.rem] directly. *)
Definition expand_cell (input_img output_img : Image) (i : Z)
    (out : list Z) : option (list Z) :=
  row ← rowIndex i (width output_img);
  col ← columnIndex i (width output_img);
  let right_edge := Z.quot col 2 + 1 >=? width input_img in
  let bottom_edge := Z.quot row 2 + 1 >=? height input_img in
  pixel_original ← getPixel input_img (Z.quot row 2) (Z.quot col 2);
  if (Z.rem row 2 =? 0) && (Z.rem col 2 =? 0) then
    store out i pixel_original
  else if negb (Z.rem col 2 =? 0) && (Z.rem row 2 =? 0) then
    if right_edge then store out i pixel_original
    else
      pixel_right ← getPixel input_img (Z.quot row 2) (Z.quot col 2 + 1);
      store out i (createAveragePixel pixel_original pixel_right)
  else if negb (Z.rem row 2 =? 0) && (Z.rem col 2 =? 0) then
    if bottom_edge then store out i pixel_original
    else
      pixel_below ← getPixel input_img (Z.quot row 2 + 1) (Z.quot col 2);
      store out i (createAveragePixel pixel_original pixel_below)
  else if negb right_edge && negb bottom_edge then
    pixel_right ← getPixel input_img (Z.quot row 2) (Z.quot col 2 + 1);
    pixel_below ← getPixel input_img (Z.quot row 2 + 1) (Z.quot col 2);
    pixel_diagonal ←
      getPixel input_img (Z.quot row 2 + 1) (Z.quot col 2 + 1);
    store out i
      (quadAveragePixel pixel_original pixel_right pixel_below pixel_diagonal)
  else if negb right_edge then
    pixel_right ← getPixel input_img (Z.quot row 2) (Z.quot col 2 + 1);
    store out i (createAveragePixel pixel_original pixel_right)
  else if negb bottom_edge then
    pixel_below ← getPixel input_img (Z.quot row 2 + 1) (Z.quot col 2);
    store out i (createAveragePixel pixel_original pixel_below)
  else store out i pixel_original.

Definition imgproc_expand (input_img output_img : Image) : option Image :=
  n ← int_mul (width output_img) (height output_img);
  d ← for_lt 0 n (expand_cell input_img output_img) (data output_img);
  Some (mkImage (width output_img) (height output_img) d).

(** ** Specification-level notions

    The definitions below do not come from the source: they state, in the
    words of the specification, what the transforms are meant to compute,
    and the theorems compare the embedded functions with them. *)

(** A record that represents a C [struct Image]: positive dimensions, a
    buffer of exactly [width * height] pixels, each a [uint32_t], and a
    pixel count that the [int] index arithmetic of the source can
    represent. *)
Definition wf_image (img : Image) : Prop :=
  0 < width img /\ 0 < height img /\
  width img * height img <= INT_MAX /\
  Z.of_nat (length (data img)) = width img * height img /\
  Forall is_u32 (data img).

#[global] Instance is_u32_dec z : Decision (is_u32 z).
Proof. unfold is_u32. apply _. Defined.

#[global] Instance wf_image_dec img : Decision (wf_image img).
Proof. unfold wf_image. apply _. Defined.

(** The pixel at [(row, col)] of a row-major image, when the coordinates
    are within its bounds. *)
Definition pixelAt (img : Image) (row col : Z) : option Z :=
  if (0 <=? row) && (row <? height img) && (0 <=? col) && (col <? width img)
  then data img !! Z.to_nat (row * width img + col)
  else None.

Definition sumZ (l : list Z) : Z := foldr Z.add 0 l.

(** The integer-truncated average of one channel over a list of pixels. *)
Definition channel_avg (ch : Z -> Z) (ps : list Z) : Z :=
  Z.quot (sumZ (ch <$> ps)) (Z.of_nat (length ps)).

(** The pixel whose four channels are the truncated averages over [ps]. *)
Definition average_pixel (ps : list Z) : Z :=
  createPixel (channel_avg getRed ps) (channel_avg getGreen ps)
              (channel_avg getBlue ps) (channel_avg getAlpha ps).

(** The parity and edge dispatch of the upsampling transform, as the
    specification words it. *)
Definition expand_spec (src : Image) (row col : Z) : option Z :=
  let r := row / 2 in
  let c := col / 2 in
  let right_edge := width src <=? c + 1 in
  let bottom_edge := height src <=? r + 1 in
  match Z.even row, Z.even col with
  | true, true => pixelAt src r c
  | true, false =>
      if right_edge then pixelAt src r c
      else p ← pixelAt src r c; q ← pixelAt src r (c + 1);
           Some (average_pixel [p; q])
  | false, true =>
      if bottom_edge then pixelAt src r c
      else p ← pixelAt src r c; q ← pixelAt src (r + 1) c;
           Some (average_pixel [p; q])
  | false, false =>
      match right_edge, bottom_edge with
      | false, false =>
          p ← pixelAt src r c; q ← pixelAt src r (c + 1);
          p' ← pixelAt src (r + 1) c; q' ← pixelAt src (r + 1) (c + 1);
          Some (average_pixel [p; q; p'; q'])
      | true, false =>
          p ← pixelAt src r c; q ← pixelAt src (r + 1) c;
          Some (average_pixel [p; q])
      | false, true =>
          p ← pixelAt src r c; q ← pixelAt src r (c + 1);
          Some (average_pixel [p; q])
      | true, true => pixelAt src r c
      end
  end.

(** The pixels of the square blur window centred on [(row, col)] that lie
    within the image: those of one window row [x], and those of all the
    window rows [row - blur_dist .. row + blur_dist], each over the columns
    [col - blur_dist .. col + blur_dist]. *)
Definition row_pixels (img : Image) (blur_dist x col : Z) : list Z :=
  y ← seqZ (col - blur_dist) (2 * blur_dist + 1);
  option_list (pixelAt img x y).

Definition window_pixels (img : Image) (blur_dist row col : Z) : list Z :=
  x ← seqZ (row - blur_dist) (2 * blur_dist + 1);
  row_pixels img blur_dist x col.

(** The largest number of pixels a blur window can hold. *)
Definition window_cap (img : Image) (blur_dist : Z) : Z :=
  Z.min (height img) (2 * blur_dist + 1)
  * Z.min (width img) (2 * blur_dist + 1).

(** The preconditions under which the loop variables and the window
    coordinates of [imgproc_blur] stay within [int]. *)
Definition blur_in_range (img : Image) (blur_dist : Z) : Prop :=
  0 <= blur_dist < INT_MAX /\
  blur_dist + height img - 1 <= INT_MAX /\
  blur_dist + width img - 1 <= INT_MAX.

(** The three colour sums over a list of pixels fit an [int]. *)
Definition sums_fit (ps : list Z) : Prop :=
  sumZ (getRed <$> ps) <= INT_MAX /\
  sumZ (getGreen <$> ps) <= INT_MAX /\
  sumZ (getBlue <$> ps) <= INT_MAX.

(** The output pixel the specification prescribes for blur at
    [(row, col)]: red, green and blue are the truncated averages over the
    window, alpha is that of the input pixel at [(row, col)]. *)
Definition blur_spec (img : Image) (blur_dist row col : Z) : option Z :=
  p ← pixelAt img row col;
  let w := window_pixels img blur_dist row col in
  Some (createPixel (channel_avg getRed w) (channel_avg getGreen w)
                    (channel_avg getBlue w) (getAlpha p)).

(** The accumulation of one more pixel as the scan performs it: the three
    sums in wrapping arithmetic, the count exactly. *)
Definition acc_add_int (acc : BlurAcc) (p : Z) : BlurAcc :=
  mkAcc (int_add_u32 (red acc) (getRed p))
        (int_add_u32 (green acc) (getGreen p))
        (int_add_u32 (blue acc) (getBlue p))
        (total acc + 1).

(** The sums of a scan are [int] values and its count is not negative. *)
Definition acc_int (acc : BlurAcc) : Prop :=
  0 <= total acc /\
  INT_MIN <= red acc <= INT_MAX /\
  INT_MIN <= green acc <= INT_MAX /\
  INT_MIN <= blue acc <= INT_MAX.

(** The output pixel that blur computes at [(row, col)], in terms of the
    window: the wrapped sums divided by the count and packed, with the
    alpha of the input pixel. *)
Definition blur_result (img : Image) (blur_dist row col : Z) : option Z :=
  p ← pixelAt img row col;
  let acc :=
    foldl acc_add_int (mkAcc 0 0 0 0)
          (window_pixels img blur_dist row col) in
  Some (createPixel (u32 (Z.quot (red acc) (total acc)))
                    (u32 (Z.quot (green acc) (total acc)))
                    (u32 (Z.quot (blue acc) (total acc)))
                    (getAlpha p)).

(** The number of indices in [[0, n)] below [y]. *)
Definition below (n y : Z) : Z := Z.max 0 (Z.min y n).

(** A destination buffer pre-sized to [w] columns and [h] rows. *)
Definition has_dims (img : Image) (w h : Z) : Prop :=
  width img = w /\ height img = h /\
  Z.of_nat (length (data img)) = w * h.

(** Two images that agree in dimensions and in every pixel. *)
Definition same_image (x y : Image) : Prop :=
  width x = width y /\ height x = height y /\ data x = data y.

(** ** Example images *)

Definition img2x2 : Image :=
  mkImage 2 2 [4278190335; 16711935; 65535; 4294967295].

Definition img3x3_zero : Image := mkImage 3 3 (replicate 9 0).

Definition img4x4 : Image :=
  mkImage 4 4 [10; 11; 12; 13; 20; 21; 22; 23; 30; 31; 32; 33; 40; 41; 42; 43].

Definition img1x1 : Image := mkImage 1 1 [4278190335].

(** A single row of [n] pixels, all of full red and nothing else. *)
Definition red_row (n : Z) : Image :=
  mkImage n 1 (replicate (Z.to_nat n) 4278190080).

Definition blank (w h : Z) : Image :=
  mkImage w h (replicate (Z.to_nat (w * h)) 0).

(** ** Example averager states *)

(** The averager after 16843009 pixels of full red and full alpha: the two
    sums are [255 * 16843009 = 2^32 - 1]. *)
Definition pa_full : PixelAverager :=
  PA.mk 4294967295 0 0 4294967295 16843009.

(** An averager whose count is [2^32 - 1]. *)
Definition pa_count_max : PixelAverager := PA.mk 0 0 0 0 4294967295.

(** * Properties *)

(** ** Machine integers *)

Lemma in_int_spec z : in_int z = true <-> INT_MIN <= z <= INT_MAX.
Proof. unfold in_int. rewrite andb_true_iff, !Z.leb_le. tauto. Qed.

Lemma int_chk_Some z : INT_MIN <= z <= INT_MAX -> int_chk z = Some z.
Proof.
  intros H. unfold int_chk. apply in_int_spec in H. now rewrite H.
Qed.

Lemma int_chk_None z : INT_MAX < z -> int_chk z = None.
Proof.
  intros H. unfold int_chk.
  destruct (in_int z) eqn:E; [apply in_int_spec in E; lia | reflexivity].
Qed.

Lemma int_chk_inv z v : int_chk z = Some v -> v = z /\ INT_MIN <= z <= INT_MAX.
Proof.
  unfold int_chk. destruct (in_int z) eqn:E; [|discriminate].
  intros [= <-]. apply in_int_spec in E. auto.
Qed.

Lemma int_add_Some x y :
  INT_MIN <= x + y <= INT_MAX -> int_add x y = Some (x + y).
Proof. apply int_chk_Some. Qed.

Lemma int_mul_Some x y :
  INT_MIN <= x * y <= INT_MAX -> int_mul x y = Some (x * y).
Proof. apply int_chk_Some. Qed.

Lemma int_neg_Some x : INT_MIN <= - x <= INT_MAX -> int_neg x = Some (- x).
Proof. apply int_chk_Some. Qed.

Lemma int_div_nonneg x y :
  0 <= x <= INT_MAX -> 0 < y -> int_div x y = Some (x / y).
Proof.
  intros Hx Hy. unfold int_div.
  destruct (Z.eqb_spec y 0); [lia|].
  rewrite Z.quot_div_nonneg by lia.
  apply int_chk_Some.
  assert (0 <= x / y) by (apply Z.div_pos; lia).
  assert (x / y <= x) by (apply Z.div_le_upper_bound; nia).
  unfold INT_MIN. lia.
Qed.

Lemma int_rem_nonneg x y :
  0 <= x -> 0 < y -> int_rem x y = Some (x mod y).
Proof.
  intros Hx Hy. unfold int_rem.
  destruct (Z.eqb_spec y 0); [lia|].
  destruct (Z.eqb_spec y (-1)); [lia|].
  rewrite andb_false_r, Z.rem_mod_nonneg by lia. reflexivity.
Qed.

Lemma u32_small z : is_u32 z -> u32 z = z.
Proof. intros H. apply Z.mod_small, H. Qed.

Lemma u32_is_u32 z : is_u32 (u32 z).
Proof. apply Z.mod_pos_bound. reflexivity. Qed.

Lemma to_int_small z : z <= INT_MAX -> to_int z = z.
Proof. intros H. unfold to_int. destruct (Z.leb_spec z INT_MAX); lia. Qed.

Lemma int_add_u32_small x c :
  0 <= x -> 0 <= c -> x + c <= INT_MAX -> int_add_u32 x c = x + c.
Proof.
  intros Hx Hc H. unfold int_add_u32, INT_MAX in *.
  rewrite (u32_small x) by (unfold is_u32, UINT_MOD; lia).
  rewrite u32_small by (unfold is_u32, UINT_MOD; lia).
  apply to_int_small. exact H.
Qed.

(** ** Bits of the codec *)

Lemma u32_bits z i :
  Z.testbit (u32 z) i = (i <? 32) && Z.testbit z i.
Proof.
  unfold u32. change UINT_MOD with (2 ^ 32).
  apply Z.testbit_mod_pow2. lia.
Qed.

Lemma mask_bits z i :
  Z.testbit (Z.land z 255) i = Z.testbit z i && (i <? 8).
Proof.
  change 255 with (Z.ones 8).
  rewrite Z.land_spec, Z.testbit_ones by lia.
  destruct (Z.leb_spec 0 i); [reflexivity|].
  rewrite Z.testbit_neg_r by lia. reflexivity.
Qed.

Lemma shiftr_bits z n i :
  Z.testbit (Z.shiftr z n) i = (0 <=? i) && Z.testbit z (i + n).
Proof.
  destruct (Z.leb_spec 0 i).
  - apply Z.shiftr_spec. assumption.
  - apply Z.testbit_neg_r. assumption.
Qed.

Lemma shiftl_bits z n i :
  Z.testbit (Z.shiftl z n) i = (0 <=? i) && Z.testbit z (i - n).
Proof.
  destruct (Z.leb_spec 0 i).
  - apply Z.shiftl_spec. assumption.
  - apply Z.testbit_neg_r. assumption.
Qed.

Lemma byte_bits_high c i : 0 <= c <= 255 -> 8 <= i -> Z.testbit c i = false.
Proof.
  intros Hc Hi. rewrite <- (Z.mod_small c (2 ^ 8)) by (simpl; lia).
  apply Z.mod_pow2_bits_high. lia.
Qed.

Lemma u32_bits_high p i : is_u32 p -> 32 <= i -> Z.testbit p i = false.
Proof.
  intros Hp Hi. rewrite <- (u32_small p Hp), u32_bits.
  destruct (Z.ltb_spec i 32); [lia | reflexivity].
Qed.

Lemma mask_range z : 0 <= Z.land z 255 <= 255.
Proof.
  change 255 with (Z.ones 8) at 1 2. rewrite Z.land_ones by lia.
  pose proof (Z.mod_pos_bound z (2 ^ 8) eq_refl). simpl in *. lia.
Qed.

Lemma getRed_range p : 0 <= getRed p <= 255.
Proof. apply mask_range. Qed.

Lemma getGreen_range p : 0 <= getGreen p <= 255.
Proof. apply mask_range. Qed.

Lemma getBlue_range p : 0 <= getBlue p <= 255.
Proof. apply mask_range. Qed.

Lemma getAlpha_range p : 0 <= getAlpha p <= 255.
Proof. apply mask_range. Qed.

(** Rewrites a [Z.testbit] of the codec's operators into a Boolean
    formula over bits of the operands. *)
Ltac bits_step :=
  first
    [ rewrite Z.lor_spec
    | rewrite u32_bits
    | rewrite mask_bits
    | rewrite shiftr_bits
    | rewrite shiftl_bits ].

Ltac bits_cmp :=
  repeat match goal with
    | |- context [Z.ltb ?x ?y] => destruct (Z.ltb_spec x y)
    | |- context [Z.leb ?x ?y] => destruct (Z.leb_spec x y)
    end.

Ltac bits_high :=
  repeat match goal with
    | H : 0 <= ?c <= 255 |- context [Z.testbit ?c ?i] =>
        rewrite (byte_bits_high c i H) by lia
    | H : is_u32 ?p |- context [Z.testbit ?p ?i] =>
        rewrite (u32_bits_high p i H) by lia
    end.

Ltac bits_low :=
  repeat match goal with
    | |- context [Z.testbit ?c ?i] =>
        rewrite (Z.testbit_neg_r c i) by lia
    end.

Ltac bitblast :=
  apply Z.bits_inj'; intros ? ?;
  repeat bits_step; bits_cmp; bits_high; bits_low;
  rewrite ?andb_true_r, ?andb_false_r, ?orb_false_r, ?orb_false_l,
    ?andb_true_l, ?andb_false_l;
  try reflexivity; try lia;
  try (f_equal; lia).

Section Codec.
Variables red green blue alpha : Z.
Hypothesis Hr : 0 <= red <= 255.
Hypothesis Hg : 0 <= green <= 255.
Hypothesis Hb : 0 <= blue <= 255.
Hypothesis Ha : 0 <= alpha <= 255.

Lemma getRed_createPixel : getRed (createPixel red green blue alpha) = red.
Proof. unfold getRed, createPixel. bitblast. Qed.

Lemma getGreen_createPixel :
  getGreen (createPixel red green blue alpha) = green.
Proof. unfold getGreen, createPixel. bitblast. Qed.

Lemma getBlue_createPixel : getBlue (createPixel red green blue alpha) = blue.
Proof. unfold getBlue, createPixel. bitblast. Qed.

Lemma getAlpha_createPixel :
  getAlpha (createPixel red green blue alpha) = alpha.
Proof. unfold getAlpha, createPixel. bitblast. Qed.

Lemma createPixel_is_u32 : is_u32 (createPixel red green blue alpha).
Proof.
  assert (E : createPixel red green blue alpha
              = u32 (createPixel red green blue alpha)).
  { unfold createPixel. bitblast. }
  rewrite E. apply u32_is_u32.
Qed.

End Codec.

Lemma createPixel_channels p :
  is_u32 p ->
  createPixel (getRed p) (getGreen p) (getBlue p) (getAlpha p) = p.
Proof.
  intros Hp. unfold createPixel, getRed, getGreen, getBlue, getAlpha.
  bitblast.
Qed.

(** ** Loops *)

Section LoopRules.
Context {St : Type}.
Implicit Types (body : Z -> St -> option St) (Inv : Z -> St -> Prop).

Lemma iter_inv Inv n lo body s :
  INT_MIN <= lo -> lo + Z.of_nat n <= INT_MAX ->
  Inv lo s ->
  (forall i t, lo <= i < lo + Z.of_nat n -> Inv i t ->
     exists t', body i t = Some t' /\ Inv (i + 1) t') ->
  exists s', iter n lo body s = Some s' /\ Inv (lo + Z.of_nat n) s'.
Proof.
  revert lo s. induction n as [|n IH]; intros lo s Hlo Hhi H0 Hstep.
  - exists s. split; [reflexivity|]. now rewrite Z.add_0_r.
  - destruct (Hstep lo s) as (t & Hb & Ht); [lia | assumption |].
    cbn [iter]. rewrite Hb. cbn.
    rewrite int_add_Some by lia. cbn.
    destruct (IH (lo + 1) t) as (s' & Hs' & HI); [lia | lia | assumption | |].
    + intros i u Hi Hu. apply Hstep; [lia | assumption].
    + exists s'. split; [assumption|].
      replace (lo + Z.of_nat (S n)) with (lo + 1 + Z.of_nat n) by lia.
      assumption.
Qed.

Lemma for_lt_inv Inv lo hi body s :
  INT_MIN <= lo -> lo <= hi -> hi <= INT_MAX ->
  Inv lo s ->
  (forall i t, lo <= i < hi -> Inv i t ->
     exists t', body i t = Some t' /\ Inv (i + 1) t') ->
  exists s', for_lt lo hi body s = Some s' /\ Inv hi s'.
Proof.
  intros Hlo Hle Hhi H0 Hstep. unfold for_lt.
  assert (Hn : lo + Z.of_nat (Z.to_nat (hi - lo)) = hi) by lia.
  destruct (iter_inv Inv (Z.to_nat (hi - lo)) lo body s) as (s' & E & HI);
    rewrite ?Hn in *; try lia; try assumption.
  exists s'. split; assumption.
Qed.

Lemma for_le_inv Inv lo hi body s :
  INT_MIN <= lo -> lo <= hi + 1 -> hi < INT_MAX ->
  Inv lo s ->
  (forall i t, lo <= i <= hi -> Inv i t ->
     exists t', body i t = Some t' /\ Inv (i + 1) t') ->
  exists s', for_le lo hi body s = Some s' /\ Inv (hi + 1) s'.
Proof.
  intros Hlo Hle Hhi H0 Hstep. unfold for_le.
  assert (Hn : lo + Z.of_nat (Z.to_nat (hi + 1 - lo)) = hi + 1) by lia.
  destruct (iter_inv Inv (Z.to_nat (hi + 1 - lo)) lo body s)
    as (s' & E & HI); rewrite ?Hn in *; try lia; try assumption.
  - intros i t Hi. apply Hstep. lia.
  - exists s'. split; assumption.
Qed.

(** A loop whose variable would have to pass [INT_MAX] never completes:
    some [i++] overflows (or the body fails before that). *)
Lemma iter_overflow n lo body s :
  lo <= INT_MAX -> INT_MAX < lo + Z.of_nat n -> iter n lo body s = None.
Proof.
  revert lo s. induction n as [|n IH]; intros lo s Hlo Hhi; [lia|].
  cbn [iter]. destruct (body lo s) as [t|]; [cbn | reflexivity].
  destruct (int_add lo 1) as [i'|] eqn:E; [cbn | reflexivity].
  apply int_chk_inv in E as [-> E]. apply IH; lia.
Qed.

End LoopRules.

(** ** Pixel buffers *)

Lemma load_lookup (d : list Z) idx :
  0 <= idx -> load d idx = d !! Z.to_nat idx.
Proof. intros H. unfold load. destruct (Z.ltb_spec idx 0); [lia | reflexivity]. Qed.

Lemma store_Some (d : list Z) idx v :
  0 <= idx < Z.of_nat (length d) ->
  store d idx v = Some (<[Z.to_nat idx := v]> d).
Proof.
  intros H. unfold store.
  destruct (Z.leb_spec 0 idx), (Z.ltb_spec idx (Z.of_nat (length d)));
    try lia; reflexivity.
Qed.

Lemma pixelAt_lookup img row col :
  0 <= row < height img -> 0 <= col < width img ->
  pixelAt img row col = data img !! Z.to_nat (row * width img + col).
Proof.
  intros Hr Hc. unfold pixelAt.
  destruct (Z.leb_spec 0 row), (Z.ltb_spec row (height img)),
    (Z.leb_spec 0 col), (Z.ltb_spec col (width img)); try lia; reflexivity.
Qed.

Lemma pixelAt_None img row col :
  ~ (0 <= row < height img /\ 0 <= col < width img) ->
  pixelAt img row col = None.
Proof.
  intros H. unfold pixelAt.
  destruct (Z.leb_spec 0 row), (Z.ltb_spec row (height img)),
    (Z.leb_spec 0 col), (Z.ltb_spec col (width img)); try reflexivity; lia.
Qed.

Lemma index_bound w h row col :
  0 <= row < h -> 0 <= col < w -> 0 <= row * w + col < w * h.
Proof. intros Hr Hc. nia. Qed.

Lemma index_div w row col :
  0 <= col < w -> (row * w + col) / w = row.
Proof.
  intros Hc. rewrite Z.add_comm, Z.div_add by lia.
  rewrite Z.div_small by lia. reflexivity.
Qed.

Lemma index_mod w row col :
  0 <= col < w -> (row * w + col) mod w = col.
Proof.
  intros Hc. rewrite Z.add_comm, Z.mod_add by lia.
  apply Z.mod_small. assumption.
Qed.

Lemma wf_lookup img idx :
  wf_image img -> 0 <= idx < width img * height img ->
  exists p, data img !! Z.to_nat idx = Some p /\ is_u32 p.
Proof.
  intros (_ & _ & _ & Hlen & Hall) Hidx.
  destruct (lookup_lt_is_Some_2 (data img) (Z.to_nat idx)) as [p Hp]; [lia|].
  exists p. split; [assumption|].
  rewrite Forall_lookup in Hall. eapply Hall, Hp.
Qed.

Lemma wf_pixelAt img row col :
  wf_image img -> 0 <= row < height img -> 0 <= col < width img ->
  exists p, pixelAt img row col = Some p /\ is_u32 p.
Proof.
  intros Hwf Hr Hc. rewrite pixelAt_lookup by assumption.
  apply wf_lookup; [assumption|]. apply index_bound; assumption.
Qed.

Lemma getPixel_pixelAt img row col :
  wf_image img -> 0 <= row < height img -> 0 <= col < width img ->
  getPixel img row col = pixelAt img row col.
Proof.
  intros Hwf Hr Hc. pose proof Hwf as (Hw & Hh & Hmax & _).
  pose proof (index_bound (width img) (height img) row col Hr Hc).
  unfold getPixel.
  rewrite int_mul_Some by (unfold INT_MIN; nia). cbn.
  rewrite int_add_Some by (unfold INT_MIN; lia). cbn.
  rewrite load_lookup by lia. symmetry. apply pixelAt_lookup; assumption.
Qed.

Lemma wf_image_check img : bool_decide (wf_image img) = true -> wf_image img.
Proof. apply bool_decide_eq_true_1. Qed.

(** A loop that stores, at each linear index, a value that does not depend
    on the buffer fills the buffer with those values. *)
Lemma for_lt_fill (cell : Z -> list Z -> option (list Z)) (f : Z -> Z) n
    (out : list Z) :
  0 <= n <= INT_MAX -> n <= Z.of_nat (length out) ->
  (forall i d, 0 <= i < n -> length d = length out ->
     cell i d = store d i (f i)) ->
  exists d, for_lt 0 n cell out = Some d /\ length d = length out /\
    forall i, 0 <= i < n -> d !! Z.to_nat i = Some (f i).
Proof.
  intros Hn Hlen Hcell.
  destruct (for_lt_inv
    (fun i d => length d = length out /\
       forall x, 0 <= x < i -> d !! Z.to_nat x = Some (f x))
    0 n cell out) as (d & E & HL & HI);
    try (unfold INT_MIN; lia).
  - split; [reflexivity | intros; lia].
  - intros i d Hi [HL HI]. rewrite Hcell by assumption.
    rewrite store_Some by lia. eexists. split; [reflexivity|].
    split; [now rewrite length_insert|].
    intros x Hx. destruct (Z.eq_dec x i) as [->|Hne].
    + apply list_lookup_insert_eq. lia.
    + rewrite list_lookup_insert_ne by lia. apply HI. lia.
  - exists d. auto.
Qed.

(** The same for a row-by-row double loop over a row-major buffer. *)
Lemma for_lt_fill2 (cell : Z -> Z -> list Z -> option (list Z))
    (F : Z -> Z -> Z) rows cols (out : list Z) :
  0 <= rows -> 0 <= cols -> rows <= INT_MAX -> cols <= INT_MAX ->
  rows * cols <= Z.of_nat (length out) ->
  (forall i j d, 0 <= i < rows -> 0 <= j < cols -> length d = length out ->
     cell i j d = store d (i * cols + j) (F i j)) ->
  exists d,
    for_lt 0 rows (fun i d => for_lt 0 cols (cell i) d) out = Some d /\
    length d = length out /\
    forall i j, 0 <= i < rows -> 0 <= j < cols ->
      d !! Z.to_nat (i * cols + j) = Some (F i j).
Proof.
  intros Hr Hc Hrm Hcm Hlen Hcell.
  set (Inv := fun (x : Z) (d : list Z) =>
    length d = length out /\
    forall i j, 0 <= i -> 0 <= j < cols -> i * cols + j < x ->
      d !! Z.to_nat (i * cols + j) = Some (F i j)).
  destruct (for_lt_inv (fun i d => Inv (i * cols) d) 0 rows
    (fun i d => for_lt 0 cols (cell i) d) out) as (d & E & HL & HI);
    try (unfold INT_MIN; lia).
  - split; [reflexivity|]. intros i j Hi Hj Hlt. nia.
  - intros i d Hi HInv.
    destruct (for_lt_inv (fun j d => Inv (i * cols + j) d) 0 cols
      (cell i) d) as (d' & E' & HInv');
      try (unfold INT_MIN; lia).
    + now rewrite Z.add_0_r.
    + intros j e Hj [HL HI].
      assert (0 <= i * cols + j < rows * cols) by nia.
      rewrite Hcell by assumption.
      rewrite store_Some by lia. eexists. split; [reflexivity|].
      split; [now rewrite length_insert|].
      intros i' j' Hi' Hj' Hlt.
      destruct (Z.eq_dec (i' * cols + j') (i * cols + j)) as [Heq|Hne].
      * assert (i' = i) by nia. assert (j' = j) by nia. subst i' j'.
        apply list_lookup_insert_eq. lia.
      * rewrite list_lookup_insert_ne by lia. apply HI; lia.
    + exists d'. split; [assumption|].
      replace ((i + 1) * cols) with (i * cols + cols) by lia. assumption.
  - exists d. split; [assumption|]. split; [assumption|].
    intros i j Hi Hj. apply HI; nia.
Qed.

(** ** The averagers *)

Lemma avg2_channel x y :
  0 <= x <= 255 -> 0 <= y <= 255 ->
  u32 (x + y) / 2 = Z.quot (x + y) 2 /\ 0 <= u32 (x + y) / 2 <= 255.
Proof.
  intros Hx Hy.
  rewrite u32_small by (unfold is_u32, UINT_MOD; lia).
  rewrite Z.quot_div_nonneg by lia.
  split; [reflexivity|].
  split; [apply Z.div_pos; lia | apply Z.div_le_upper_bound; lia].
Qed.

Lemma avg4_channel x y z w :
  0 <= x <= 255 -> 0 <= y <= 255 -> 0 <= z <= 255 -> 0 <= w <= 255 ->
  u32 (u32 (u32 (x + y) + z) + w) / 4 = Z.quot (x + y + z + w) 4 /\
  0 <= u32 (u32 (u32 (x + y) + z) + w) / 4 <= 255.
Proof.
  intros Hx Hy Hz Hw.
  rewrite (u32_small (x + y)) by (unfold is_u32, UINT_MOD; lia).
  rewrite (u32_small (x + y + z)) by (unfold is_u32, UINT_MOD; lia).
  rewrite u32_small by (unfold is_u32, UINT_MOD; lia).
  rewrite Z.quot_div_nonneg by lia.
  split; [reflexivity|].
  split; [apply Z.div_pos; lia | apply Z.div_le_upper_bound; lia].
Qed.

Ltac channel_ranges_of p :=
  pose proof (getRed_range p); pose proof (getGreen_range p);
  pose proof (getBlue_range p); pose proof (getAlpha_range p).

Lemma createAveragePixel_channels p q :
  getRed (createAveragePixel p q) = Z.quot (getRed p + getRed q) 2 /\
  getGreen (createAveragePixel p q) = Z.quot (getGreen p + getGreen q) 2 /\
  getBlue (createAveragePixel p q) = Z.quot (getBlue p + getBlue q) 2 /\
  getAlpha (createAveragePixel p q) = Z.quot (getAlpha p + getAlpha q) 2.
Proof.
  channel_ranges_of p. channel_ranges_of q.
  unfold createAveragePixel. cbv zeta.
  destruct (avg2_channel (getRed p) (getRed q)) as [Er Rr]; [lia.. |].
  destruct (avg2_channel (getGreen p) (getGreen q)) as [Eg Rg]; [lia.. |].
  destruct (avg2_channel (getBlue p) (getBlue q)) as [Eb Rb]; [lia.. |].
  destruct (avg2_channel (getAlpha p) (getAlpha q)) as [Ea Ra]; [lia.. |].
  rewrite getRed_createPixel, getGreen_createPixel, getBlue_createPixel,
    getAlpha_createPixel by assumption.
  auto.
Qed.

Lemma quadAveragePixel_channels p q p' q' :
  getRed (quadAveragePixel p q p' q')
    = Z.quot (getRed p + getRed q + getRed p' + getRed q') 4 /\
  getGreen (quadAveragePixel p q p' q')
    = Z.quot (getGreen p + getGreen q + getGreen p' + getGreen q') 4 /\
  getBlue (quadAveragePixel p q p' q')
    = Z.quot (getBlue p + getBlue q + getBlue p' + getBlue q') 4 /\
  getAlpha (quadAveragePixel p q p' q')
    = Z.quot (getAlpha p + getAlpha q + getAlpha p' + getAlpha q') 4.
Proof.
  channel_ranges_of p. channel_ranges_of q.
  channel_ranges_of p'. channel_ranges_of q'.
  unfold quadAveragePixel. cbv zeta.
  destruct (avg4_channel (getRed p) (getRed q) (getRed p') (getRed q'))
    as [Er Rr]; [lia.. |].
  destruct (avg4_channel (getGreen p) (getGreen q) (getGreen p') (getGreen q'))
    as [Eg Rg]; [lia.. |].
  destruct (avg4_channel (getBlue p) (getBlue q) (getBlue p') (getBlue q'))
    as [Eb Rb]; [lia.. |].
  destruct (avg4_channel (getAlpha p) (getAlpha q) (getAlpha p') (getAlpha q'))
    as [Ea Ra]; [lia.. |].
  rewrite getRed_createPixel, getGreen_createPixel, getBlue_createPixel,
    getAlpha_createPixel by assumption.
  auto.
Qed.

(** The two averagers of the source are the 2- and 4-pixel instances of
    the specification's truncated channel average. *)
Lemma createAveragePixel_spec p q :
  createAveragePixel p q = average_pixel [p; q].
Proof.
  channel_ranges_of p. channel_ranges_of q.
  unfold createAveragePixel, average_pixel, channel_avg.
  cbn [fmap list_fmap sumZ foldr length]. change (Z.of_nat 2) with 2.
  rewrite !Z.add_0_r.
  destruct (avg2_channel (getRed p) (getRed q)) as [-> _]; [lia.. |].
  destruct (avg2_channel (getGreen p) (getGreen q)) as [-> _]; [lia.. |].
  destruct (avg2_channel (getBlue p) (getBlue q)) as [-> _]; [lia.. |].
  destruct (avg2_channel (getAlpha p) (getAlpha q)) as [-> _]; [lia.. |].
  reflexivity.
Qed.

Lemma quadAveragePixel_spec p q p' q' :
  quadAveragePixel p q p' q' = average_pixel [p; q; p'; q'].
Proof.
  channel_ranges_of p. channel_ranges_of q.
  channel_ranges_of p'. channel_ranges_of q'.
  unfold quadAveragePixel, average_pixel, channel_avg.
  cbn [fmap list_fmap sumZ foldr length]. change (Z.of_nat 4) with 4.
  rewrite !Z.add_0_r, !Z.add_assoc.
  destruct (avg4_channel (getRed p) (getRed q) (getRed p') (getRed q'))
    as [-> _]; [lia.. |].
  destruct (avg4_channel (getGreen p) (getGreen q) (getGreen p') (getGreen q'))
    as [-> _]; [lia.. |].
  destruct (avg4_channel (getBlue p) (getBlue q) (getBlue p') (getBlue q'))
    as [-> _]; [lia.. |].
  destruct (avg4_channel (getAlpha p) (getAlpha q) (getAlpha p') (getAlpha q'))
    as [-> _]; [lia.. |].
  reflexivity.
Qed.

(** C7. The 2-way and the 4-way averager compute every channel of their
    result as the sum of that channel over their arguments divided by 2,
    respectively 4, with the quotient truncated toward zero and nothing
    added for rounding.  In particular two pixels with red channels 3 and 4
    average to red channel 3 in the 2-way averager, and four pixels whose
    red channels are each 3 or 4, not all 4, average to red channel 3 in
    the 4-way averager. *)
Theorem averagers_truncate (p1 p2 p3 p4 : Z) :
  (getRed (createAveragePixel p1 p2) = Z.quot (getRed p1 + getRed p2) 2 /\
   getGreen (createAveragePixel p1 p2)
     = Z.quot (getGreen p1 + getGreen p2) 2 /\
   getBlue (createAveragePixel p1 p2) = Z.quot (getBlue p1 + getBlue p2) 2 /\
   getAlpha (createAveragePixel p1 p2)
     = Z.quot (getAlpha p1 + getAlpha p2) 2) /\
  (getRed (quadAveragePixel p1 p2 p3 p4)
     = Z.quot (getRed p1 + getRed p2 + getRed p3 + getRed p4) 4 /\
   getGreen (quadAveragePixel p1 p2 p3 p4)
     = Z.quot (getGreen p1 + getGreen p2 + getGreen p3 + getGreen p4) 4 /\
   getBlue (quadAveragePixel p1 p2 p3 p4)
     = Z.quot (getBlue p1 + getBlue p2 + getBlue p3 + getBlue p4) 4 /\
   getAlpha (quadAveragePixel p1 p2 p3 p4)
     = Z.quot (getAlpha p1 + getAlpha p2 + getAlpha p3 + getAlpha p4) 4) /\
  (getRed p1 = 3 -> getRed p2 = 4 ->
   getRed (createAveragePixel p1 p2) = 3 /\
   getRed (createAveragePixel p2 p1) = 3) /\
  ((getRed p1 = 3 \/ getRed p1 = 4) -> (getRed p2 = 3 \/ getRed p2 = 4) ->
   (getRed p3 = 3 \/ getRed p3 = 4) -> (getRed p4 = 3 \/ getRed p4 = 4) ->
   (getRed p1 = 3 \/ getRed p2 = 3 \/ getRed p3 = 3 \/ getRed p4 = 3) ->
   getRed (quadAveragePixel p1 p2 p3 p4) = 3).
Proof.
  split; [apply createAveragePixel_channels|].
  split; [apply quadAveragePixel_channels|].
  split.
  - intros H1 H2.
    destruct (createAveragePixel_channels p1 p2) as [-> _].
    destruct (createAveragePixel_channels p2 p1) as [-> _].
    rewrite H1, H2. split; reflexivity.
  - intros H1 H2 H3 H4 H.
    destruct (quadAveragePixel_channels p1 p2 p3 p4) as [-> _].
    destruct H1 as [E1 | E1], H2 as [E2 | E2], H3 as [E3 | E3],
      H4 as [E4 | E4]; rewrite E1, E2, E3, E4; try reflexivity.
    exfalso. lia.
Qed.

Lemma averagers_truncate_witness :
  getRed (createAveragePixel 50331903 67109119) = 3 /\
  getRed (quadAveragePixel 50331903 67109119 50331903 67109119) = 3.
Proof.
  destruct (averagers_truncate 50331903 67109119 50331903 67109119)
    as (_ & _ & H2 & H4).
  split.
  - apply H2; reflexivity.
  - apply H4; vm_compute; auto.
Defined.

(** ** The pixel codec *)

(** C10. The codec round-trips: repacking the four channels extracted
    from a 32-bit pixel gives the pixel back, and each extractor applied
    to a pixel packed from four channel values in 0..255 returns the
    corresponding value. *)
Theorem pixel_codec_roundtrip (p cr cg cb ca : Z) :
  is_u32 p ->
  0 <= cr <= 255 -> 0 <= cg <= 255 -> 0 <= cb <= 255 -> 0 <= ca <= 255 ->
  createPixel (getRed p) (getGreen p) (getBlue p) (getAlpha p) = p /\
  getRed (createPixel cr cg cb ca) = cr /\
  getGreen (createPixel cr cg cb ca) = cg /\
  getBlue (createPixel cr cg cb ca) = cb /\
  getAlpha (createPixel cr cg cb ca) = ca.
Proof.
  intros Hp Hr Hg Hb Ha.
  split; [apply createPixel_channels; assumption|].
  split; [apply getRed_createPixel; assumption|].
  split; [apply getGreen_createPixel; assumption|].
  split; [apply getBlue_createPixel; assumption|].
  apply getAlpha_createPixel; assumption.
Qed.

Lemma pixel_codec_roundtrip_witness :
  createPixel (getRed 2864434397) (getGreen 2864434397) (getBlue 2864434397)
              (getAlpha 2864434397) = 2864434397 /\
  getRed (createPixel 170 187 204 221) = 170 /\
  getGreen (createPixel 170 187 204 221) = 187 /\
  getBlue (createPixel 170 187 204 221) = 204 /\
  getAlpha (createPixel 170 187 204 221) = 221.
Proof.
  apply (pixel_codec_roundtrip 2864434397 170 187 204 221);
    unfold is_u32, UINT_MOD; lia.
Defined.

(** ** Colour rotation *)

Lemma color_rot_pixel_channels p :
  getRed (color_rot_pixel p) = getBlue p /\
  getGreen (color_rot_pixel p) = getRed p /\
  getBlue (color_rot_pixel p) = getGreen p /\
  getAlpha (color_rot_pixel p) = getAlpha p.
Proof.
  channel_ranges_of p. unfold color_rot_pixel.
  rewrite getRed_createPixel, getGreen_createPixel, getBlue_createPixel,
    getAlpha_createPixel by assumption.
  auto.
Qed.

Lemma color_rot_pixel_is_u32 p : is_u32 (color_rot_pixel p).
Proof.
  channel_ranges_of p. unfold color_rot_pixel.
  apply createPixel_is_u32; assumption.
Qed.

Lemma color_rot_pixel_cycle p :
  is_u32 p -> color_rot_pixel (color_rot_pixel (color_rot_pixel p)) = p.
Proof.
  intros Hp.
  destruct (color_rot_pixel_channels p) as (R1 & G1 & B1 & A1).
  destruct (color_rot_pixel_channels (color_rot_pixel p))
    as (R2 & G2 & B2 & A2).
  unfold color_rot_pixel at 1.
  rewrite R2, G2, B2, A2, R1, G1, B1, A1.
  apply createPixel_channels. assumption.
Qed.

(** The whole transform: it completes, keeps the destination's dimensions
    and stores the rotated pixel at every index. *)
Lemma imgproc_color_rot_data input_img output_img :
  wf_image input_img ->
  has_dims output_img (width input_img) (height input_img) ->
  exists out,
    imgproc_color_rot input_img output_img = Some out /\
    width out = width input_img /\ height out = height input_img /\
    data out = color_rot_pixel <$> data input_img.
Proof.
  intros Hwf (Hw & Hh & Hlen).
  pose proof Hwf as (Hwp & Hhp & Hmax & Hlen' & Hall).
  unfold imgproc_color_rot.
  rewrite int_mul_Some by (unfold INT_MIN; nia). cbn.
  destruct (for_lt_fill (color_rot_cell input_img)
    (fun i => color_rot_pixel (default 0 (data input_img !! Z.to_nat i)))
    (width input_img * height input_img) (data output_img))
    as (d & E & HL & HI); [nia | lia | |].
  - intros i d Hi HL. unfold color_rot_cell.
    rewrite load_lookup by lia.
    destruct (wf_lookup input_img i Hwf Hi) as (p & -> & _). reflexivity.
  - rewrite E. cbn. eexists. split; [reflexivity|]. cbn.
    split; [assumption|]. split; [assumption|].
    apply list_eq. intros n. rewrite list_lookup_fmap.
    destruct (decide (n < length (data input_img))%nat) as [Hn|Hn].
    + specialize (HI (Z.of_nat n)). rewrite Nat2Z.id in HI.
      rewrite HI by lia.
      destruct (lookup_lt_is_Some_2 (data input_img) n Hn) as [p ->].
      reflexivity.
    + rewrite !lookup_ge_None_2 by lia. reflexivity.
Qed.

Lemma imgproc_color_rot_wf input_img out :
  wf_image input_img ->
  width out = width input_img -> height out = height input_img ->
  data out = color_rot_pixel <$> data input_img ->
  wf_image out.
Proof.
  intros (Hwp & Hhp & Hmax & Hlen & Hall) Hw Hh Hd.
  unfold wf_image. rewrite Hw, Hh, Hd, length_fmap.
  repeat split; try assumption.
  apply Forall_fmap, Forall_true. intros p. apply color_rot_pixel_is_u32.
Qed.

Lemma pixelAt_same_dims x y row col :
  width x = width y -> height x = height y ->
  pixelAt x row col
  = if (0 <=? row) && (row <? height y) && (0 <=? col) && (col <? width y)
    then data x !! Z.to_nat (row * width y + col) else None.
Proof. intros Hw Hh. unfold pixelAt. now rewrite Hw, Hh. Qed.

(** C8. For a source image and a destination of the same dimensions the
    channel rotation completes and keeps those dimensions, and at every
    position [(row, col)] the output pixel has the input pixel's blue as
    its red, the input's red as its green, the input's green as its blue,
    and the input's alpha unchanged. *)
Theorem color_rot_channels input_img output_img :
  wf_image input_img ->
  has_dims output_img (width input_img) (height input_img) ->
  exists out,
    imgproc_color_rot input_img output_img = Some out /\
    width out = width input_img /\ height out = height input_img /\
    forall row col,
      0 <= row < height input_img -> 0 <= col < width input_img ->
      exists p q,
        pixelAt input_img row col = Some p /\
        pixelAt out row col = Some q /\
        getRed q = getBlue p /\ getGreen q = getRed p /\
        getBlue q = getGreen p /\ getAlpha q = getAlpha p.
Proof.
  intros Hwf Hd.
  destruct (imgproc_color_rot_data _ _ Hwf Hd) as (out & E & Hw & Hh & Hdat).
  exists out. repeat (split; [assumption|]).
  intros row col Hr Hc.
  destruct (wf_pixelAt _ _ _ Hwf Hr Hc) as (p & Hp & _).
  exists p, (color_rot_pixel p).
  split; [assumption|]. split; [|apply color_rot_pixel_channels].
  rewrite (pixelAt_same_dims out input_img) by assumption.
  unfold pixelAt in Hp.
  destruct ((0 <=? row) && (row <? height input_img) && (0 <=? col)
            && (col <? width input_img)); [|discriminate].
  rewrite Hdat, list_lookup_fmap, Hp. reflexivity.
Qed.

Lemma color_rot_channels_witness :
  exists out,
    imgproc_color_rot img2x2 (blank 2 2) = Some out /\
    exists p q,
      pixelAt img2x2 1 0 = Some p /\ pixelAt out 1 0 = Some q /\
      getRed q = getBlue p /\ getGreen q = getRed p /\
      getBlue q = getGreen p /\ getAlpha q = getAlpha p.
Proof.
  destruct (color_rot_channels img2x2 (blank 2 2))
    as (out & E & Hw & Hh & H).
  - apply wf_image_check. vm_compute. reflexivity.
  - vm_compute. auto.
  - exists out. split; [assumption|].
    apply H; cbn; lia.
Defined.

(** C4. Rotating the channels three times in a row, each time into a
    fresh destination of the dimensions of the image, gives back the
    original image: same dimensions and the same pixel at every position. *)
Theorem color_rot_three_times img d1 d2 d3 :
  wf_image img ->
  has_dims d1 (width img) (height img) ->
  has_dims d2 (width img) (height img) ->
  has_dims d3 (width img) (height img) ->
  exists o1 o2 o3,
    imgproc_color_rot img d1 = Some o1 /\
    imgproc_color_rot o1 d2 = Some o2 /\
    imgproc_color_rot o2 d3 = Some o3 /\
    same_image o3 img /\
    forall row col, pixelAt o3 row col = pixelAt img row col.
Proof.
  intros Hwf H1 H2 H3.
  destruct (imgproc_color_rot_data _ _ Hwf H1) as (o1 & E1 & W1 & T1 & D1).
  pose proof (imgproc_color_rot_wf _ _ Hwf W1 T1 D1) as Hwf1.
  rewrite <- W1, <- T1 in H2.
  destruct (imgproc_color_rot_data _ _ Hwf1 H2) as (o2 & E2 & W2 & T2 & D2).
  pose proof (imgproc_color_rot_wf _ _ Hwf1 W2 T2 D2) as Hwf2.
  rewrite <- W1, <- T1, <- W2, <- T2 in H3.
  destruct (imgproc_color_rot_data _ _ Hwf2 H3) as (o3 & E3 & W3 & T3 & D3).
  exists o1, o2, o3. repeat (split; [assumption|]).
  assert (Hdata : data o3 = data img).
  { rewrite D3, D2, D1, <- !list_fmap_compose.
    rewrite <- (list_fmap_id (data img)) at 2.
    apply Forall_fmap_ext_1.
    destruct Hwf as (_ & _ & _ & _ & Hall).
    eapply Forall_impl; [exact Hall|].
    intros p Hp. cbn. apply color_rot_pixel_cycle. assumption. }
  assert (Hsame : same_image o3 img).
  { split; [congruence|]. split; [congruence | assumption]. }
  split; [assumption|].
  intros row col. destruct Hsame as (Hw & Hh & Hd).
  unfold pixelAt. now rewrite Hw, Hh, Hd.
Qed.

Lemma color_rot_three_times_witness :
  exists o1 o2 o3,
    imgproc_color_rot img2x2 (blank 2 2) = Some o1 /\
    imgproc_color_rot o1 (blank 2 2) = Some o2 /\
    imgproc_color_rot o2 (blank 2 2) = Some o3 /\
    same_image o3 img2x2.
Proof.
  destruct (color_rot_three_times img2x2 (blank 2 2) (blank 2 2) (blank 2 2))
    as (o1 & o2 & o3 & E1 & E2 & E3 & Hs & _).
  - apply wf_image_check. vm_compute. reflexivity.
  - vm_compute. auto.
  - vm_compute. auto.
  - vm_compute. auto.
  - exists o1, o2, o3. auto.
Defined.

(** ** Squash *)

Lemma squash_cell_store src out_w out_h xfac yfac i j (d : list Z) :
  wf_image src -> 0 < out_w -> out_w * out_h <= INT_MAX ->
  0 <= i < out_h -> 0 <= j < out_w ->
  0 < xfac -> 0 < yfac ->
  i * yfac < height src -> j * xfac < width src ->
  squash_cell src out_w xfac yfac i j d
  = store d (i * out_w + j)
      (default 0 (pixelAt src (i * yfac) (j * xfac))).
Proof.
  intros Hwf Hw Hmax Hi Hj Hx Hy Hr Hc.
  pose proof Hwf as (Hwp & Hhp & Hsmax & _).
  assert (Hr' : 0 <= i * yfac < height src) by nia.
  assert (Hc' : 0 <= j * xfac < width src) by nia.
  pose proof (index_bound _ _ _ _ Hr' Hc') as Hsrc.
  pose proof (index_bound _ _ _ _ Hi Hj) as Hdst.
  unfold squash_cell.
  rewrite (int_mul_Some i yfac) by (unfold INT_MIN; nia). bind_step.
  rewrite (int_mul_Some j xfac) by (unfold INT_MIN; nia). bind_step.
  rewrite (int_mul_Some (i * yfac)) by (unfold INT_MIN; nia). bind_step.
  rewrite (int_add_Some (i * yfac * width src))
    by (unfold INT_MIN; nia). bind_step.
  rewrite load_lookup, <- pixelAt_lookup by lia.
  destruct (wf_pixelAt _ _ _ Hwf Hr' Hc') as (p & -> & _). bind_step.
  rewrite (int_mul_Some i out_w) by (unfold INT_MIN; nia). bind_step.
  rewrite int_add_Some by (unfold INT_MIN; nia). bind_step.
  reflexivity.
Qed.

Lemma imgproc_squash_samples src dst xfac yfac :
  wf_image src -> wf_image dst -> 0 < xfac -> 0 < yfac ->
  (forall i j, 0 <= i < height dst -> 0 <= j < width dst ->
     i * yfac < height src /\ j * xfac < width src) ->
  exists out,
    imgproc_squash src dst xfac yfac = Some out /\
    width out = width dst /\ height out = height dst /\
    length (data out) = length (data dst) /\
    forall i j, 0 <= i < height dst -> 0 <= j < width dst ->
      exists p,
        pixelAt out i j = Some p /\
        pixelAt src (i * yfac) (j * xfac) = Some p.
Proof.
  intros Hwf Hwfd Hx Hy Hin.
  pose proof Hwfd as (Hwp & Hhp & Hmax & Hlen & _).
  unfold imgproc_squash. cbv zeta.
  destruct (for_lt_fill2 (squash_cell src (width dst) xfac yfac)
    (fun i j => default 0 (pixelAt src (i * yfac) (j * xfac)))
    (height dst) (width dst) (data dst)) as (d & E & HL & HI);
    try nia.
  - intros i j e Hi Hj _.
    destruct (Hin i j Hi Hj) as [Hr Hc].
    apply squash_cell_store with (out_h := height dst);
      try assumption; lia.
  - rewrite E. cbn. eexists. split; [reflexivity|]. cbn.
    repeat (split; [first [reflexivity | assumption]|]).
    intros i j Hi Hj. destruct (Hin i j Hi Hj) as [Hr Hc].
    destruct (wf_pixelAt src (i * yfac) (j * xfac) Hwf) as (p & Hp & _);
      [nia | nia |].
    exists p. split; [|assumption].
    rewrite pixelAt_lookup by (cbn; assumption). cbn.
    rewrite HI, Hp by assumption. reflexivity.
Qed.

(** C6. Squash copies, into every destination position [(i, j)], the
    source pixel at row [i * yfac] and column [j * xfac], for positive
    factors that keep every sampled coordinate within the source; with
    both factors 1 and a destination of the size of the source the result
    is the source, pixel for pixel; and a 4x4 image squashed by 2 and 2
    into a 2x2 destination has the source's (0,0) at (0,0) and the source's
    (2,2) at (1,1). *)
Theorem squash_subsamples :
  (forall src dst xfac yfac,
     wf_image src -> wf_image dst -> 0 < xfac -> 0 < yfac ->
     (forall i j, 0 <= i < height dst -> 0 <= j < width dst ->
        i * yfac < height src /\ j * xfac < width src) ->
     exists out,
       imgproc_squash src dst xfac yfac = Some out /\
       width out = width dst /\ height out = height dst /\
       forall i j, 0 <= i < height dst -> 0 <= j < width dst ->
         exists p,
           pixelAt out i j = Some p /\
           pixelAt src (i * yfac) (j * xfac) = Some p) /\
  (forall src dst,
     wf_image src -> wf_image dst ->
     width dst = width src -> height dst = height src ->
     exists out,
       imgproc_squash src dst 1 1 = Some out /\ same_image out src) /\
  (forall src dst,
     wf_image src -> width src = 4 -> height src = 4 ->
     wf_image dst -> width dst = 2 -> height dst = 2 ->
     exists out p q,
       imgproc_squash src dst 2 2 = Some out /\
       pixelAt out 0 0 = Some p /\ pixelAt src 0 0 = Some p /\
       pixelAt out 1 1 = Some q /\ pixelAt src 2 2 = Some q).
Proof.
  split; [|split].
  - intros src dst xfac yfac Hwf Hwfd Hx Hy Hin.
    destruct (imgproc_squash_samples src dst xfac yfac)
      as (out & E & Hw & Hh & _ & H); try assumption.
    exists out. auto.
  - intros src dst Hwf Hwfd Hw Hh.
    pose proof Hwf as (Hwp & Hhp & Hmax & Hlen' & _).
    pose proof Hwfd as (_ & _ & _ & Hlen & _).
    destruct (imgproc_squash_samples src dst 1 1)
      as (out & E & Hw' & Hh' & HL & H); try assumption; try lia.
    exists out. split; [assumption|].
    split; [congruence|]. split; [congruence|].
    apply list_eq. intros n.
    destruct (decide (n < length (data src))%nat) as [Hn|Hn].
    + set (i := Z.of_nat n / width src).
      set (j := Z.of_nat n mod width src).
      assert (Hj : 0 <= j < width src) by (apply Z.mod_pos_bound; lia).
      assert (Hn' : Z.of_nat n = i * width src + j).
      { subst i j. pose proof (Z.div_mod (Z.of_nat n) (width src)). lia. }
      assert (Hi : 0 <= i < height src) by nia.
      destruct (H i j) as (p & Ho & Hs); [lia | lia |].
      rewrite !Z.mul_1_r in Hs.
      rewrite pixelAt_lookup in Ho by lia.
      rewrite pixelAt_lookup in Hs by lia.
      rewrite Hw', Hw in Ho. rewrite <- Hn', Nat2Z.id in Ho, Hs.
      congruence.
    + rewrite !lookup_ge_None_2 by lia. reflexivity.
  - intros src dst Hwf Hws Hhs Hwfd Hwd Hhd.
    destruct (imgproc_squash_samples src dst 2 2)
      as (out & E & Hw' & Hh' & _ & H); try assumption; try lia.
    destruct (H 0 0) as (p & Hp1 & Hp2); [lia | lia |].
    destruct (H 1 1) as (q & Hq1 & Hq2); [lia | lia |].
    exists out, p, q. auto.
Qed.

Lemma squash_subsamples_witness :
  (exists out,
     imgproc_squash img4x4 (blank 2 2) 3 2 = Some out /\
     exists p, pixelAt out 1 1 = Some p /\ pixelAt img4x4 2 3 = Some p) /\
  (exists out,
     imgproc_squash img4x4 (blank 4 4) 1 1 = Some out /\
     same_image out img4x4) /\
  (exists out p q,
     imgproc_squash img4x4 (blank 2 2) 2 2 = Some out /\
     pixelAt out 0 0 = Some p /\ pixelAt img4x4 0 0 = Some p /\
     pixelAt out 1 1 = Some q /\ pixelAt img4x4 2 2 = Some q).
Proof.
  destruct squash_subsamples as (H1 & H2 & H3).
  assert (W4 : wf_image img4x4) by (apply wf_image_check; vm_compute; reflexivity).
  assert (W2 : wf_image (blank 2 2))
    by (apply wf_image_check; vm_compute; reflexivity).
  split; [|split].
  - destruct (H1 img4x4 (blank 2 2) 3 2) as (out & E & _ & _ & H);
      try assumption; try lia.
    + cbn. intros i j Hi Hj. lia.
    + exists out. split; [assumption|]. apply (H 1 1); cbn; lia.
  - apply H2; [assumption | | reflexivity | reflexivity].
    apply wf_image_check. vm_compute. reflexivity.
  - apply H3; try assumption; reflexivity.
Defined.

(** ** The running-average accumulator *)

Lemma pa_update_from_img_out pa img row col :
  row < 0 \/ row >= height img \/ col < 0 \/ col >= width img ->
  pa_update_from_img img row col pa = Some pa.
Proof.
  intros H. unfold pa_update_from_img.
  destruct (Z.ltb_spec row 0), (Z.geb_spec row (height img)),
    (Z.ltb_spec col 0), (Z.geb_spec col (width img));
    try reflexivity; lia.
Qed.

Lemma pa_update_from_img_in pa img row col :
  wf_image img -> 0 <= row < height img -> 0 <= col < width img ->
  exists p,
    pixelAt img row col = Some p /\ is_u32 p /\
    pa_update_from_img img row col pa = Some (pa_update pa p).
Proof.
  intros Hwf Hr Hc. unfold pa_update_from_img.
  destruct (Z.ltb_spec row 0), (Z.geb_spec row (height img)),
    (Z.ltb_spec col 0), (Z.geb_spec col (width img)); try lia.
  cbn [orb].
  destruct (wf_pixelAt _ _ _ Hwf Hr Hc) as (p & Hp & Hu).
  pose proof (getPixel_pixelAt _ _ _ Hwf Hr Hc) as Hg.
  unfold getPixel in Hg. rewrite Hp in Hg.
  exists p. split; [assumption|]. split; [assumption|].
  destruct (int_mul row (width img)) as [m|]; [|discriminate].
  bind_step. cbn [mbind option_bind] in Hg.
  destruct (int_add m col) as [idx|]; [|discriminate].
  bind_step. cbn [mbind option_bind] in Hg. rewrite Hg. reflexivity.
Qed.

Lemma u32_fixed z : u32 z = z <-> is_u32 z.
Proof.
  split; [|apply u32_small].
  intros E. rewrite <- E. apply u32_is_u32.
Qed.

(** C9, as the code has it.  Accumulating from a position outside the
    image leaves the averager as it was (the four sums and the count), and
    completes without error; accumulating from a position inside the image
    adds the four channels of the pixel at that position to the four sums
    and one to the count in the 32-bit unsigned arithmetic of the fields:
    every new sum is the old sum plus the channel modulo [2^32] and the
    new count is the old count plus one modulo [2^32].  A field is
    therefore exactly the old value plus the channel (plus one, for the
    count) if and only if that value is not negative and below [2^32]. *)
Theorem pa_update_from_img_bounds (pa : PixelAverager) (img : Image)
    (row col : Z) :
  (row < 0 \/ row >= height img \/ col < 0 \/ col >= width img ->
   pa_update_from_img img row col pa = Some pa) /\
  (wf_image img -> 0 <= row < height img -> 0 <= col < width img ->
   exists p pa',
     pixelAt img row col = Some p /\
     pa_update_from_img img row col pa = Some pa' /\
     PA.r pa' = u32 (PA.r pa + getRed p) /\
     PA.g pa' = u32 (PA.g pa + getGreen p) /\
     PA.b pa' = u32 (PA.b pa + getBlue p) /\
     PA.a pa' = u32 (PA.a pa + getAlpha p) /\
     PA.count pa' = u32 (PA.count pa + 1) /\
     (PA.r pa' = PA.r pa + getRed p <-> is_u32 (PA.r pa + getRed p)) /\
     (PA.g pa' = PA.g pa + getGreen p <-> is_u32 (PA.g pa + getGreen p)) /\
     (PA.b pa' = PA.b pa + getBlue p <-> is_u32 (PA.b pa + getBlue p)) /\
     (PA.a pa' = PA.a pa + getAlpha p <-> is_u32 (PA.a pa + getAlpha p)) /\
     (PA.count pa' = PA.count pa + 1 <-> is_u32 (PA.count pa + 1))).
Proof.
  split; [apply pa_update_from_img_out|].
  intros Hwf Hr Hc.
  destruct (pa_update_from_img_in pa img row col Hwf Hr Hc)
    as (p & Hp & _ & E).
  exists p, (pa_update pa p).
  split; [assumption|]. split; [assumption|].
  cbn [pa_update PA.r PA.g PA.b PA.a PA.count].
  repeat (split; [reflexivity|]).
  repeat (split; [apply u32_fixed|]). apply u32_fixed.
Qed.

Lemma pa_update_from_img_bounds_witness :
  pa_update_from_img img2x2 2 0 pa_init = Some pa_init /\
  exists p pa',
    pixelAt img2x2 1 0 = Some p /\
    pa_update_from_img img2x2 1 0 pa_init = Some pa' /\
    PA.r pa' = PA.r pa_init + getRed p /\
    PA.g pa' = PA.g pa_init + getGreen p /\
    PA.b pa' = PA.b pa_init + getBlue p /\
    PA.a pa' = PA.a pa_init + getAlpha p /\
    PA.count pa' = PA.count pa_init + 1.
Proof.
  split.
  - apply (pa_update_from_img_bounds pa_init img2x2 2 0). cbn. lia.
  - assert (W : wf_image img2x2)
      by (apply wf_image_check; vm_compute; reflexivity).
    assert (R : 0 <= 1 < height img2x2) by (cbn; lia).
    assert (C : 0 <= 0 < width img2x2) by (cbn; lia).
    destruct (pa_update_from_img_bounds pa_init img2x2 1 0) as [_ H].
    destruct (H W R C)
      as (p & pa' & Hp & E & _ & _ & _ & _ & _ & Hr & Hg & Hb & Ha & Hn).
    exists p, pa'. split; [exact Hp|]. split; [exact E|].
    pose proof (getRed_range p). pose proof (getGreen_range p).
    pose proof (getBlue_range p). pose proof (getAlpha_range p).
    split; [apply Hr; unfold is_u32, UINT_MOD; cbn; lia|].
    split; [apply Hg; unfold is_u32, UINT_MOD; cbn; lia|].
    split; [apply Hb; unfold is_u32, UINT_MOD; cbn; lia|].
    split; [apply Ha; unfold is_u32, UINT_MOD; cbn; lia|].
    apply Hn. unfold is_u32, UINT_MOD. cbn. lia.
Defined.

(** The in-bounds half of C9 as the specification words it, with sums
    that grow by the channels and a count that grows by exactly one, does
    not hold of every averager.  At [pa_full] both the red and the alpha
    sum are [2^32 - 1]; accumulating the pixel [0xFF0000FF] at [(0, 0)] of
    the 2x2 example image leaves 254 in each of them, not the old sum plus
    255.  At [pa_count_max] the same accumulation takes the count from
    [2^32 - 1] to zero, after which finalizing divides by zero. *)
Lemma pa_update_sums_wrap :
  wf_image img2x2 /\
  0 <= 0 < height img2x2 /\ 0 <= 0 < width img2x2 /\
  pixelAt img2x2 0 0 = Some 4278190335 /\
  pa_update_from_img img2x2 0 0 pa_full
  = Some (PA.mk 254 0 0 254 16843010) /\
  ~ (exists p pa',
       pixelAt img2x2 0 0 = Some p /\
       pa_update_from_img img2x2 0 0 pa_full = Some pa' /\
       PA.r pa' = PA.r pa_full + getRed p /\
       PA.g pa' = PA.g pa_full + getGreen p /\
       PA.b pa' = PA.b pa_full + getBlue p /\
       PA.a pa' = PA.a pa_full + getAlpha p /\
       PA.count pa' = PA.count pa_full + 1) /\
  pa_update_from_img img2x2 0 0 pa_count_max = Some (PA.mk 255 0 0 255 0) /\
  PA.count (PA.mk 255 0 0 255 0) <> PA.count pa_count_max + 1 /\
  pa_avg_pixel (PA.mk 255 0 0 255 0) = None.
Proof.
  split; [apply wf_image_check; vm_compute; reflexivity|].
  split; [cbn; lia|]. split; [cbn; lia|].
  split; [reflexivity|].
  split; [vm_compute; reflexivity|].
  split.
  - intros (p & pa' & Hp & E & Hr & _).
    vm_compute in Hp. injection Hp as <-.
    vm_compute in E. injection E as <-.
    vm_compute in Hr. discriminate.
  - split; [vm_compute; reflexivity|].
    split; [vm_compute; discriminate | vm_compute; reflexivity].
Qed.

(** ** Expand *)

Lemma parity_rem x : 0 <= x -> (Z.rem x 2 =? 0) = Z.even x.
Proof.
  intros Hx. rewrite Z.rem_mod_nonneg, Zmod_even by lia.
  destruct (Z.even x); reflexivity.
Qed.

(** One iteration of the loop of [imgproc_expand] stores the pixel that
    the specification's dispatch gives for the coordinates of its index. *)
Lemma expand_cell_store src dst i (d : list Z) :
  wf_image src -> wf_image dst ->
  width dst = 2 * width src -> height dst = 2 * height src ->
  0 <= i < width dst * height dst ->
  expand_cell src dst i d
  = store d i (default 0 (expand_spec src (i / width dst) (i mod width dst))).
Proof.
  intros Hwf Hwfd Hw Hh Hi.
  pose proof Hwf as (Hwp & Hhp & Hmax & _).
  pose proof Hwfd as (Hwpd & Hhpd & Hmaxd & _).
  unfold expand_cell, rowIndex, columnIndex.
  rewrite int_div_nonneg, int_rem_nonneg by lia. bind_step.
  set (row := i / width dst). set (col := i mod width dst).
  assert (Hcol : 0 <= col < width dst) by (apply Z.mod_pos_bound; lia).
  assert (Hrow : 0 <= row < height dst).
  { split; [apply Z.div_pos; lia | apply Z.div_lt_upper_bound; lia]. }
  rewrite !parity_rem by lia.
  rewrite !Z.quot_div_nonneg by lia.
  unfold expand_spec. cbv zeta.
  set (r := row / 2). set (c := col / 2).
  assert (Hr : 0 <= r < height src).
  { split; [apply Z.div_pos; lia | apply Z.div_lt_upper_bound; lia]. }
  assert (Hc : 0 <= c < width src).
  { split; [apply Z.div_pos; lia | apply Z.div_lt_upper_bound; lia]. }
  rewrite !Z.geb_leb.
  rewrite (getPixel_pixelAt src r c) by assumption.
  destruct (wf_pixelAt src r c Hwf Hr Hc) as (po & Hpo & _).
  rewrite Hpo. bind_step.
  destruct (Z.even row), (Z.even col); cbn [andb negb];
    destruct (Z.leb_spec (width src) (c + 1)) as [Hre|Hre];
    destruct (Z.leb_spec (height src) (r + 1)) as [Hbe|Hbe];
    cbn [andb negb]; try reflexivity;
    repeat match goal with
      | |- context [getPixel src ?x ?y] =>
          rewrite (getPixel_pixelAt src x y) by (assumption || lia);
          let q := fresh "q" in
          let Hq := fresh "Hq" in
          destruct (wf_pixelAt src x y Hwf) as (q & Hq & _);
          [lia | lia | rewrite Hq; bind_step]
      end;
    rewrite <- ?createAveragePixel_spec, <- ?quadAveragePixel_spec;
    reflexivity.
Qed.

(** C1. For a source of [n] rows and [m] columns and a destination of [2n]
    rows and [2m] columns, expand completes, keeps the destination's
    dimensions, and the pixel it leaves at every output position
    [(row, col)] is the one the parity and edge dispatch of the
    specification gives: a copy of the top-left source pixel, or the
    truncated average, over all four channels, of the two or four source
    pixels the dispatch selects. *)
Theorem expand_dispatch src dst :
  wf_image src -> wf_image dst ->
  width dst = 2 * width src -> height dst = 2 * height src ->
  exists out,
    imgproc_expand src dst = Some out /\
    width out = 2 * width src /\ height out = 2 * height src /\
    forall row col,
      0 <= row < 2 * height src -> 0 <= col < 2 * width src ->
      exists p,
        pixelAt out row col = Some p /\ expand_spec src row col = Some p.
Proof.
  intros Hwf Hwfd Hw Hh.
  pose proof Hwfd as (Hwpd & Hhpd & Hmaxd & Hlend & _).
  unfold imgproc_expand.
  rewrite int_mul_Some by (unfold INT_MIN; nia). bind_step.
  destruct (for_lt_fill (expand_cell src dst)
    (fun i => default 0 (expand_spec src (i / width dst) (i mod width dst)))
    (width dst * height dst) (data dst)) as (d & E & HL & HI);
    [nia | lia | |].
  - intros i e Hi _. apply expand_cell_store; assumption.
  - rewrite E. bind_step. eexists. split; [reflexivity|]. cbn.
    split; [assumption|]. split; [assumption|].
    intros row col Hrow Hcol.
    rewrite pixelAt_lookup by (cbn; lia). cbn.
    rewrite HI by (apply index_bound; lia).
    rewrite index_div, index_mod by lia.
    assert (Hsome : is_Some (expand_spec src row col)).
    { unfold expand_spec. cbv zeta.
      assert (Hr : 0 <= row / 2 < height src).
      { split; [apply Z.div_pos; lia | apply Z.div_lt_upper_bound; lia]. }
      assert (Hc : 0 <= col / 2 < width src).
      { split; [apply Z.div_pos; lia | apply Z.div_lt_upper_bound; lia]. }
      destruct (wf_pixelAt src _ _ Hwf Hr Hc) as (po & Hpo & _).
      rewrite Hpo. bind_step.
      destruct (Z.even row), (Z.even col);
        destruct (Z.leb_spec (width src) (col / 2 + 1)) as [Hre|Hre];
        destruct (Z.leb_spec (height src) (row / 2 + 1)) as [Hbe|Hbe];
        try (eexists; reflexivity);
        repeat match goal with
          | |- context [pixelAt src ?x ?y] =>
              let q := fresh "q" in
              let Hq := fresh "Hq" in
              destruct (wf_pixelAt src x y Hwf) as (q & Hq & _);
              [lia | lia | rewrite Hq; bind_step]
          end;
        eexists; reflexivity. }
    destruct Hsome as [p Hp]. exists p. rewrite Hp. auto.
Qed.

Lemma expand_dispatch_witness :
  exists out,
    imgproc_expand img2x2 (blank 4 4) = Some out /\
    exists p, pixelAt out 1 1 = Some p /\ expand_spec img2x2 1 1 = Some p.
Proof.
  destruct (expand_dispatch img2x2 (blank 4 4)) as (out & E & _ & _ & H).
  - apply wf_image_check. vm_compute. reflexivity.
  - apply wf_image_check. vm_compute. reflexivity.
  - reflexivity.
  - reflexivity.
  - exists out. split; [assumption|]. apply H; cbn; lia.
Defined.

(** ** Blur *)

Lemma sumZ_fmap_cons (f : Z -> Z) p ps :
  sumZ (f <$> p :: ps) = f p + sumZ (f <$> ps).
Proof. reflexivity. Qed.

Lemma sumZ_channel_bound (ch : Z -> Z) ps :
  (forall p, 0 <= ch p <= 255) ->
  0 <= sumZ (ch <$> ps) <= 255 * Z.of_nat (length ps).
Proof.
  intros Hch. induction ps as [|p ps IH]; [cbn; lia|].
  rewrite sumZ_fmap_cons. cbn [length]. specialize (Hch p). lia.
Qed.

Lemma to_int_u32_range z : INT_MIN <= to_int (u32 z) <= INT_MAX.
Proof.
  pose proof (u32_is_u32 z) as H. unfold is_u32, UINT_MOD in H.
  unfold to_int, INT_MIN, INT_MAX, UINT_MOD.
  destruct (Z.leb_spec (u32 z) 2147483647); lia.
Qed.

Lemma int_add_u32_range x c : INT_MIN <= int_add_u32 x c <= INT_MAX.
Proof. apply to_int_u32_range. Qed.

Lemma acc_int_add acc p : acc_int acc -> acc_int (acc_add_int acc p).
Proof.
  intros (Ht & _). unfold acc_int, acc_add_int. cbn.
  pose proof (int_add_u32_range (red acc) (getRed p)).
  pose proof (int_add_u32_range (green acc) (getGreen p)).
  pose proof (int_add_u32_range (blue acc) (getBlue p)).
  lia.
Qed.

Lemma foldl_acc_add_int_total ps acc :
  total (foldl acc_add_int acc ps) = total acc + Z.of_nat (length ps).
Proof.
  revert acc. induction ps as [|p ps IH]; intros acc; [cbn; lia|].
  cbn [foldl length]. rewrite IH. cbn. lia.
Qed.

Lemma foldl_acc_add_int_ok ps acc :
  acc_int acc -> acc_int (foldl acc_add_int acc ps).
Proof.
  revert acc. induction ps as [|p ps IH]; intros acc H; [exact H|].
  cbn [foldl]. apply IH, acc_int_add, H.
Qed.

(** While a sum fits an [int] the wrapping accumulation is exact. *)
Lemma foldl_acc_add_int_exact ps acc :
  (0 <= red acc -> red acc + sumZ (getRed <$> ps) <= INT_MAX ->
   red (foldl acc_add_int acc ps) = red acc + sumZ (getRed <$> ps)) /\
  (0 <= green acc -> green acc + sumZ (getGreen <$> ps) <= INT_MAX ->
   green (foldl acc_add_int acc ps) = green acc + sumZ (getGreen <$> ps)) /\
  (0 <= blue acc -> blue acc + sumZ (getBlue <$> ps) <= INT_MAX ->
   blue (foldl acc_add_int acc ps) = blue acc + sumZ (getBlue <$> ps)).
Proof.
  revert acc. induction ps as [|p ps IH]; intros acc.
  - cbn. repeat split; intros; lia.
  - cbn [foldl]. rewrite !sumZ_fmap_cons.
    destruct (IH (acc_add_int acc p)) as (Hr & Hg & Hb).
    channel_ranges_of p.
    pose proof (sumZ_channel_bound getRed ps getRed_range).
    pose proof (sumZ_channel_bound getGreen ps getGreen_range).
    pose proof (sumZ_channel_bound getBlue ps getBlue_range).
    cbn [acc_add_int red green blue] in Hr, Hg, Hb.
    repeat split; intros Hnn Hfit.
    + rewrite int_add_u32_small in Hr by lia. rewrite Hr; lia.
    + rewrite int_add_u32_small in Hg by lia. rewrite Hg; lia.
    + rewrite int_add_u32_small in Hb by lia. rewrite Hb; lia.
Qed.

Lemma seqZ_snoc m n : 0 <= n -> seqZ m (n + 1) = seqZ m n ++ [m + n].
Proof. intros Hn. rewrite seqZ_app by lia. reflexivity. Qed.

Lemma pixelAt_Some_bounds img row col p :
  pixelAt img row col = Some p ->
  0 <= row < height img /\ 0 <= col < width img.
Proof.
  unfold pixelAt. intros Hp.
  destruct ((0 <=? row) && (row <? height img) && (0 <=? col)
            && (col <? width img)) eqn:Hin; [|discriminate].
  rewrite !andb_true_iff, !Z.leb_le, !Z.ltb_lt in Hin. lia.
Qed.

(** A window row outside the image holds no pixel. *)
Lemma row_out_nil img x (ys : list Z) :
  ~ 0 <= x < height img ->
  (y ← ys; option_list (pixelAt img x y)) = [].
Proof.
  intros Hx. induction ys as [|y ys IH]; [reflexivity|].
  change (option_list (pixelAt img x y)
          ++ (y' ← ys; option_list (pixelAt img x y')) = []).
  rewrite IH, pixelAt_None by lia. reflexivity.
Qed.

Lemma window_cap_bound img d :
  wf_image img -> 0 <= d -> 0 <= window_cap img d <= INT_MAX.
Proof.
  intros (Hwp & Hhp & Hmax & _) Hd. unfold window_cap.
  assert (0 < Z.min (height img) (2 * d + 1) <= height img) by lia.
  assert (0 < Z.min (width img) (2 * d + 1) <= width img) by lia.
  nia.
Qed.

Section BlurScan.
Variables (img : Image) (d i j : Z).
Hypothesis Hwf : wf_image img.
Hypothesis Hrange : blur_in_range img d.
Hypothesis Hi : 0 <= i < height img.
Hypothesis Hj : 0 <= j < width img.

(** One cell of the window: the pixel at [(i + k, j + l)], when there is
    one, is accumulated. *)
Lemma blur_cell_spec k l acc :
  - d <= k <= d -> - d <= l <= d -> 0 <= total acc ->
  (is_Some (pixelAt img (i + k) (j + l)) ->
   total acc + 1 <= window_cap img d) ->
  blur_cell img (height img) (width img) i j k l acc
  = Some (foldl acc_add_int acc
            (option_list (pixelAt img (i + k) (j + l)))).
Proof.
  intros Hk Hl Ht Hcap.
  destruct Hrange as (Hd & Hdh & Hdw).
  pose proof Hwf as (Hwp & Hhp & Hmax & _).
  pose proof (window_cap_bound img d Hwf (proj1 Hd)) as Hcb.
  unfold blur_cell.
  rewrite (int_add_Some i k) by (unfold INT_MIN, INT_MAX in *; lia).
  bind_step.
  rewrite (int_add_Some j l) by (unfold INT_MIN, INT_MAX in *; lia).
  bind_step.
  unfold pixelAt in *.
  destruct ((0 <=? i + k) && (i + k <? height img) && (0 <=? j + l)
            && (j + l <? width img)) eqn:Hin; [|reflexivity].
  assert (Hb' : (0 <= i + k < height img) /\ (0 <= j + l < width img)).
  { rewrite !andb_true_iff, !Z.leb_le, !Z.ltb_lt in Hin. lia. }
  destruct Hb' as [Hx Hy].
  pose proof (index_bound _ _ _ _ Hx Hy) as Hidx.
  rewrite int_mul_Some by (unfold INT_MIN; nia). bind_step.
  rewrite (int_add_Some ((i + k) * width img)) by (unfold INT_MIN; lia).
  bind_step.
  rewrite load_lookup by lia.
  destruct (wf_lookup img _ Hwf Hidx) as (p & Hp & _).
  rewrite Hp in *. bind_step.
  specialize (Hcap (ex_intro _ p eq_refl)).
  rewrite (int_add_Some (total acc)) by (unfold INT_MIN; lia). bind_step.
  reflexivity.
Qed.

(** One window row: the inner loop accumulates the pixels of the row. *)
Lemma blur_row_spec k acc T0 :
  - d <= k <= d -> 0 <= total acc <= T0 ->
  (0 <= i + k < height img ->
   T0 + Z.min (width img) (2 * d + 1) <= window_cap img d) ->
  exists acc',
    for_le (- d) d (blur_cell img (height img) (width img) i j k) acc
      = Some acc' /\
    acc' = foldl acc_add_int acc (row_pixels img d (i + k) j) /\
    0 <= total acc' <= T0 + Z.min (width img) (2 * d + 1) /\
    (~ 0 <= i + k < height img -> acc' = acc).
Proof.
  intros Hk HT0 Hcap.
  pose proof Hrange as (Hd & Hdh & Hdw).
  pose proof Hwf as (Hwp & Hhp & Hmax & _).
  destruct (for_le_inv
    (fun l acc' =>
       acc' = foldl acc_add_int acc
                (y ← seqZ (j - d) (l + d);
                 option_list (pixelAt img (i + k) y)) /\
       0 <= total acc' <=
         T0 + Z.min (below (width img) (j + l)) (l + d))
    (- d) d (blur_cell img (height img) (width img) i j k) acc)
    as (acc' & E & Hacc & Hbound);
    try (unfold INT_MIN, INT_MAX in *; lia).
  - replace (- d + d) with 0 by lia. cbn.
    split; [reflexivity|]. unfold below. lia.
  - intros l t Hl (Ht & Htb).
    rewrite blur_cell_spec; try assumption; try lia.
    + eexists. split; [reflexivity|].
      replace (l + 1 + d) with (l + d + 1) by lia.
      rewrite seqZ_snoc, bind_app, foldl_app, <- Ht by lia.
      replace (j - d + (l + d)) with (j + l) by lia.
      cbn [mbind list_bind mjoin list_join fmap list_fmap app].
      rewrite app_nil_r.
      split; [reflexivity|].
      destruct (pixelAt img (i + k) (j + l)) as [p|] eqn:Hp; cbn.
      * apply pixelAt_Some_bounds in Hp. unfold below in *. lia.
      * unfold below in *. lia.
    + intros [p Hp]. apply pixelAt_Some_bounds in Hp as [Hx Hy].
      specialize (Hcap Hx). unfold below in *. lia.
  - exists acc'. split; [assumption|].
    replace (d + 1 + d) with (2 * d + 1) in Hacc by lia.
    split; [exact Hacc|].
    split; [unfold below in *; lia|].
    intros Hout. rewrite Hacc. unfold row_pixels.
    rewrite row_out_nil by assumption. reflexivity.
Qed.

(** The whole scan: the two loops accumulate the pixels of the window,
    which are at most [window_cap] many. *)
Lemma blur_scan_spec :
  blur_scan img (height img) (width img) d i j
  = Some (foldl acc_add_int (mkAcc 0 0 0 0) (window_pixels img d i j)) /\
  Z.of_nat (length (window_pixels img d i j)) <= window_cap img d.
Proof.
  pose proof Hrange as (Hd & Hdh & Hdw).
  pose proof Hwf as (Hwp & Hhp & Hmax & _).
  unfold blur_scan.
  rewrite int_neg_Some by (unfold INT_MIN, INT_MAX in *; lia). bind_step.
  set (C := Z.min (width img) (2 * d + 1)).
  destruct (for_le_inv
    (fun k acc =>
       acc = foldl acc_add_int (mkAcc 0 0 0 0)
               (x ← seqZ (i - d) (k + d); row_pixels img d x j) /\
       0 <= total acc <= Z.min (below (height img) (i + k)) (k + d) * C)
    (- d) d
    (fun k acc =>
       for_le (- d) d (blur_cell img (height img) (width img) i j k) acc)
    (mkAcc 0 0 0 0)) as (acc & E & Hacc & Hb);
    try (unfold INT_MIN, INT_MAX in *; lia).
  - replace (- d + d) with 0 by lia. cbn.
    split; [reflexivity|]. unfold below. subst C. nia.
  - intros k t Hk (Ht & Htb).
    set (a := Z.min (below (height img) (i + k)) (k + d)) in *.
    destruct (blur_row_spec k t (a * C)) as (t' & E' & Ht' & Hb' & Hsame);
      try assumption; try lia.
    + intros Hx. unfold window_cap. fold C.
      assert (a + 1 <= Z.min (height img) (2 * d + 1))
        by (subst a; unfold below; lia).
      assert (0 <= C) by (subst C; lia).
      nia.
    + exists t'. split; [assumption|].
      replace (k + 1 + d) with (k + d + 1) by lia.
      rewrite seqZ_snoc, bind_app, foldl_app, <- Ht by lia.
      replace (i - d + (k + d)) with (i + k) by lia.
      cbn [mbind list_bind mjoin list_join fmap list_fmap app].
      rewrite app_nil_r.
      split; [assumption|].
      assert (0 <= C) by (subst C; lia).
      destruct (decide (0 <= i + k < height img)) as [Hx|Hx].
      * assert (Z.min (below (height img) (i + (k + 1))) (k + d + 1) = a + 1)
          as -> by (subst a; unfold below; lia).
        fold C in Hb'. lia.
      * rewrite (Hsame Hx).
        assert (a <= Z.min (below (height img) (i + (k + 1))) (k + d + 1))
          by (subst a; unfold below; lia).
        nia.
  - replace (d + 1 + d) with (2 * d + 1) in Hacc by lia.
    fold (window_pixels img d i j) in Hacc.
    split; [rewrite E, Hacc; reflexivity|].
    rewrite Hacc, foldl_acc_add_int_total in Hb. cbn [total] in Hb.
    unfold window_cap. fold C.
    assert (Z.min (below (height img) (i + (d + 1))) (d + 1 + d)
            <= Z.min (height img) (2 * d + 1)) by (unfold below; lia).
    assert (0 <= C) by (subst C; lia).
    nia.
Qed.

(** The centre of the window is one of its pixels. *)
Lemma window_pixels_centre :
  exists p, pixelAt img i j = Some p /\ p ∈ window_pixels img d i j.
Proof.
  destruct Hrange as (Hd & _).
  destruct (wf_pixelAt img i j Hwf Hi Hj) as (p & Hp & _).
  exists p. split; [assumption|].
  unfold window_pixels, row_pixels.
  apply list_elem_of_bind. exists i. split.
  - apply list_elem_of_bind. exists j. split.
    + rewrite Hp. cbn. apply list_elem_of_here.
    + apply elem_of_seqZ. lia.
  - apply elem_of_seqZ. lia.
Qed.

Lemma window_pixels_nonempty : 1 <= Z.of_nat (length (window_pixels img d i j)).
Proof.
  destruct window_pixels_centre as (p & _ & Hin).
  destruct (window_pixels img d i j); [inversion Hin | cbn; lia].
Qed.

End BlurScan.

Lemma quot_avg_range x n :
  0 <= x <= 255 * n -> 0 < n ->
  Z.quot x n = x / n /\ 0 <= x / n <= 255.
Proof.
  intros Hx Hn. rewrite Z.quot_div_nonneg by lia.
  split; [reflexivity|].
  split; [apply Z.div_pos; lia|].
  apply Z.div_le_upper_bound; lia.
Qed.

Lemma channel_avg_range (ch : Z -> Z) ps :
  (forall p, 0 <= ch p <= 255) -> 0 <= channel_avg ch ps <= 255.
Proof.
  intros Hch. unfold channel_avg.
  pose proof (sumZ_channel_bound ch ps Hch) as Hs.
  destruct ps as [|p ps].
  - change (0 <= 0 <= 255). lia.
  - destruct (quot_avg_range _ _ Hs) as [-> R]; [cbn [length]; lia|].
    assumption.
Qed.

(** A signed division by a positive count is always defined. *)
Lemma int_div_pos x n :
  INT_MIN <= x <= INT_MAX -> 1 <= n -> int_div x n = Some (Z.quot x n).
Proof.
  intros Hx Hn. unfold int_div.
  destruct (Z.eqb_spec n 0); [lia|].
  apply int_chk_Some.
  destruct (Z.le_gt_cases 0 x) as [Hp|Hneg].
  - rewrite Z.quot_div_nonneg by lia.
    assert (0 <= x / n) by (apply Z.div_pos; lia).
    assert (x / n <= x) by (apply Z.div_le_upper_bound; nia).
    unfold INT_MIN in *. lia.
  - replace x with (- - x) by lia.
    rewrite Z.quot_opp_l, Z.quot_div_nonneg by lia.
    assert (0 <= - x / n) by (apply Z.div_pos; lia).
    assert (- x / n <= - x) by (apply Z.div_le_upper_bound; nia).
    unfold INT_MAX in *. lia.
Qed.

(** The alpha byte of a packed pixel is the alpha argument, whatever the
    three colour arguments are. *)
Lemma getAlpha_createPixel_any cr cg cb ca :
  0 <= ca <= 255 -> getAlpha (createPixel cr cg cb ca) = ca.
Proof. intros Ha. unfold getAlpha, createPixel. bitblast. Qed.

(** One output pixel: the scan completes, the divisions are defined and
    the pixel stored is [blur_result]. *)
Lemma blur_pixel_store img d i j (out : list Z) :
  wf_image img -> blur_in_range img d ->
  0 <= i < height img -> 0 <= j < width img ->
  blur_pixel img (height img) (width img) d i j out
  = store out (i * width img + j) (default 0 (blur_result img d i j)).
Proof.
  intros Hwf Hrange Hi Hj.
  pose proof Hwf as (Hwp & Hhp & Hmax & _).
  pose proof (index_bound _ _ _ _ Hi Hj) as Hidx.
  unfold blur_pixel.
  destruct (blur_scan_spec img d i j Hwf Hrange Hi Hj) as [-> _]. bind_step.
  rewrite int_mul_Some by (unfold INT_MIN; nia). bind_step.
  rewrite int_add_Some by (unfold INT_MIN; lia). bind_step.
  rewrite load_lookup, <- pixelAt_lookup by lia.
  unfold blur_result.
  destruct (wf_pixelAt img i j Hwf Hi Hj) as (p & -> & _). bind_step.
  set (w := window_pixels img d i j).
  pose proof (window_pixels_nonempty img d i j Hwf Hrange Hi Hj) as Hlen.
  fold w in Hlen. cbv zeta.
  set (acc := foldl acc_add_int (mkAcc 0 0 0 0) w).
  assert (Hacc : acc_int acc).
  { apply foldl_acc_add_int_ok. unfold acc_int, INT_MIN, INT_MAX. cbn. lia. }
  assert (Ht : 1 <= total acc).
  { subst acc. rewrite foldl_acc_add_int_total. cbn [total]. lia. }
  destruct Hacc as (_ & Hr & Hg & Hb).
  rewrite !int_div_pos by assumption. bind_step.
  reflexivity.
Qed.

(** What [blur_result] is worth: the alpha is always that of the input
    pixel, and the colours are the truncated averages as soon as the three
    sums over the window fit an [int]. *)
Lemma blur_result_channels img d row col p :
  pixelAt img row col = Some p ->
  exists q,
    blur_result img d row col = Some q /\
    getAlpha q = getAlpha p /\
    (sums_fit (window_pixels img d row col) ->
     getRed q = channel_avg getRed (window_pixels img d row col) /\
     getGreen q = channel_avg getGreen (window_pixels img d row col) /\
     getBlue q = channel_avg getBlue (window_pixels img d row col) /\
     blur_spec img d row col = Some q).
Proof.
  intros Hp. unfold blur_result, blur_spec. rewrite Hp. bind_step. cbv zeta.
  eexists. split; [reflexivity|].
  pose proof (getAlpha_range p).
  split; [apply getAlpha_createPixel_any; assumption|].
  set (w := window_pixels img d row col).
  intros (Fr & Fg & Fb).
  destruct (foldl_acc_add_int_exact w (mkAcc 0 0 0 0)) as (Er & Eg & Eb).
  cbn [red green blue] in Er, Eg, Eb.
  rewrite Er, Eg, Eb, foldl_acc_add_int_total by lia.
  cbn [total]. rewrite !Z.add_0_l.
  fold (channel_avg getRed w) (channel_avg getGreen w)
    (channel_avg getBlue w).
  pose proof (channel_avg_range getRed w getRed_range).
  pose proof (channel_avg_range getGreen w getGreen_range).
  pose proof (channel_avg_range getBlue w getBlue_range).
  rewrite (u32_small (channel_avg getRed w)),
    (u32_small (channel_avg getGreen w)),
    (u32_small (channel_avg getBlue w)) by (unfold is_u32, UINT_MOD; lia).
  rewrite getRed_createPixel, getGreen_createPixel, getBlue_createPixel
    by assumption.
  auto.
Qed.

Lemma sums_fit_cap img d row col :
  Z.of_nat (length (window_pixels img d row col)) <= window_cap img d ->
  255 * window_cap img d <= INT_MAX ->
  sums_fit (window_pixels img d row col).
Proof.
  intros Hlen Hcap. set (w := window_pixels img d row col) in *.
  pose proof (sumZ_channel_bound getRed w getRed_range).
  pose proof (sumZ_channel_bound getGreen w getGreen_range).
  pose proof (sumZ_channel_bound getBlue w getBlue_range).
  unfold sums_fit. lia.
Qed.

(** The whole transform, under the range preconditions. *)
Lemma imgproc_blur_data src dst d :
  wf_image src -> has_dims dst (width src) (height src) ->
  blur_in_range src d ->
  exists out,
    imgproc_blur src dst d = Some out /\
    width out = width src /\ height out = height src /\
    length (data out) = length (data src) /\
    forall row col,
      0 <= row < height src -> 0 <= col < width src ->
      pixelAt out row col = blur_result src d row col.
Proof.
  intros Hwf (Hw & Hh & Hlen) Hrange.
  pose proof Hwf as (Hwp & Hhp & Hmax & Hlen' & _).
  unfold imgproc_blur. cbv zeta.
  destruct (for_lt_fill2
    (blur_pixel src (height src) (width src) d)
    (fun i j => default 0 (blur_result src d i j))
    (height src) (width src) (data dst)) as (e & E & HL & HI);
    try nia.
  - intros i j e Hi Hj _. apply blur_pixel_store; assumption.
  - rewrite E. bind_step. eexists. split; [reflexivity|]. cbn.
    split; [assumption|]. split; [assumption|]. split; [lia|].
    intros row col Hr Hc.
    destruct (wf_pixelAt src row col Hwf Hr Hc) as (p & Hp & _).
    destruct (blur_result_channels src d row col p Hp) as (q & Hq & _).
    rewrite pixelAt_lookup by (cbn; lia). cbn.
    rewrite Hw, HI, Hq by assumption. reflexivity.
Qed.

(** C2, as the code has it.  For an image and a non-negative blur distance
    such that the loop variables and the window coordinates fit an [int]
    ([blur_in_range]), blur completes and every output pixel has the alpha
    of the input pixel at the same position; and its red, green and blue
    channels are the truncated averages of those channels over exactly the
    in-bounds pixels of its window whenever the three sums over the window
    fit an [int], which they do as soon as 255 times the capacity of a
    window does. *)
Theorem blur_window_average src dst d :
  wf_image src -> has_dims dst (width src) (height src) ->
  blur_in_range src d ->
  exists out,
    imgproc_blur src dst d = Some out /\
    width out = width src /\ height out = height src /\
    forall row col,
      0 <= row < height src -> 0 <= col < width src ->
      exists p q,
        pixelAt src row col = Some p /\
        pixelAt out row col = Some q /\
        getAlpha q = getAlpha p /\
        (255 * window_cap src d <= INT_MAX ->
         sums_fit (window_pixels src d row col)) /\
        (sums_fit (window_pixels src d row col) ->
         getRed q = channel_avg getRed (window_pixels src d row col) /\
         getGreen q = channel_avg getGreen (window_pixels src d row col) /\
         getBlue q = channel_avg getBlue (window_pixels src d row col)).
Proof.
  intros Hwf Hd Hrange.
  destruct (imgproc_blur_data src dst d Hwf Hd Hrange)
    as (out & E & Hw & Hh & _ & H).
  exists out. repeat (split; [assumption|]).
  intros row col Hr Hc.
  destruct (wf_pixelAt src row col Hwf Hr Hc) as (p & Hp & _).
  destruct (blur_result_channels src d row col p Hp) as (q & Hq & Ha & Hch).
  exists p, q. split; [assumption|].
  split; [rewrite H by assumption; exact Hq|].
  split; [assumption|]. split.
  - apply sums_fit_cap.
    apply (blur_scan_spec src d row col Hwf Hrange Hr Hc).
  - intros Hfit. destruct (Hch Hfit) as (? & ? & ? & _). auto.
Qed.

Lemma blur_window_average_witness :
  exists out,
    imgproc_blur img2x2 (blank 2 2) 1 = Some out /\
    exists p q,
      pixelAt img2x2 0 1 = Some p /\
      pixelAt out 0 1 = Some q /\
      getAlpha q = getAlpha p /\
      getRed q = channel_avg getRed (window_pixels img2x2 1 0 1) /\
      getGreen q = channel_avg getGreen (window_pixels img2x2 1 0 1) /\
      getBlue q = channel_avg getBlue (window_pixels img2x2 1 0 1).
Proof.
  destruct (blur_window_average img2x2 (blank 2 2) 1)
    as (out & E & _ & _ & H).
  - apply wf_image_check. vm_compute. reflexivity.
  - vm_compute. auto.
  - unfold blur_in_range, INT_MAX. cbn. lia.
  - exists out. split; [assumption|].
    destruct (H 0 1) as (p & q & Hp & Hq & Ha & Hcap & Hch);
      [cbn; lia | cbn; lia |].
    exists p, q. repeat (split; [assumption|]).
    apply Hch, Hcap. vm_compute. discriminate.
Defined.

(** A blur distance of [INT_MAX] is non-negative, but the window loops can
    then only end by incrementing their variable past [INT_MAX]: the
    transform has undefined behaviour and yields no output, even on a
    single-pixel image. *)
Lemma blur_dist_int_max_undefined :
  wf_image img1x1 /\ has_dims (blank 1 1) (width img1x1) (height img1x1) /\
  0 <= 2147483647 /\
  imgproc_blur img1x1 (blank 1 1) 2147483647 = None /\
  ~ (exists out,
       imgproc_blur img1x1 (blank 1 1) 2147483647 = Some out /\
       forall row col,
         0 <= row < height img1x1 -> 0 <= col < width img1x1 ->
         exists p q,
           pixelAt img1x1 row col = Some p /\
           pixelAt out row col = Some q /\
           getRed q
             = channel_avg getRed (window_pixels img1x1 2147483647 row col) /\
           getGreen q
             = channel_avg getGreen
                 (window_pixels img1x1 2147483647 row col) /\
           getBlue q
             = channel_avg getBlue (window_pixels img1x1 2147483647 row col) /\
           getAlpha q = getAlpha p).
Proof.
  assert (E : imgproc_blur img1x1 (blank 1 1) 2147483647 = None).
  { unfold imgproc_blur. cbv zeta.
    change (height img1x1) with 1. change (width img1x1) with 1.
    unfold for_lt at 1. change (Z.to_nat (1 - 0)) with 1%nat.
    cbn [iter]. unfold for_lt at 1. change (Z.to_nat (1 - 0)) with 1%nat.
    cbn [iter]. unfold blur_pixel, blur_scan.
    rewrite int_neg_Some by (unfold INT_MIN, INT_MAX; lia). bind_step.
    unfold for_le at 1.
    rewrite iter_overflow; [reflexivity | unfold INT_MAX; lia |].
    rewrite Z2Nat.id by lia. unfold INT_MAX. lia. }
  split; [apply wf_image_check; vm_compute; reflexivity|].
  split; [vm_compute; auto|].
  split; [lia|]. split; [exact E|].
  intros (out & Hout & _). rewrite E in Hout. discriminate.
Qed.

(** *** The sums beyond [INT_MAX] *)

Lemma u32_to_int z : is_u32 z -> u32 (to_int z) = z.
Proof.
  intros Hz. unfold to_int. destruct (Z.leb_spec z INT_MAX).
  - apply u32_small, Hz.
  - unfold u32. replace (z - UINT_MOD) with (z + (-1) * UINT_MOD) by lia.
    rewrite Z.mod_add by (unfold UINT_MOD; lia). apply Z.mod_small, Hz.
Qed.

Lemma int_add_u32_wrap x c : int_add_u32 (to_int (u32 x)) c = to_int (u32 (x + c)).
Proof.
  unfold int_add_u32. rewrite u32_to_int by apply u32_is_u32.
  f_equal. unfold u32. apply Zplus_mod_idemp_l.
Qed.

(** In general the sums of a scan are the exact sums reduced to [int]. *)
Lemma foldl_acc_add_int_wrap ps acc r0 g0 b0 :
  red acc = to_int (u32 r0) -> green acc = to_int (u32 g0) ->
  blue acc = to_int (u32 b0) ->
  red (foldl acc_add_int acc ps) = to_int (u32 (r0 + sumZ (getRed <$> ps))) /\
  green (foldl acc_add_int acc ps)
    = to_int (u32 (g0 + sumZ (getGreen <$> ps))) /\
  blue (foldl acc_add_int acc ps)
    = to_int (u32 (b0 + sumZ (getBlue <$> ps))).
Proof.
  revert acc r0 g0 b0.
  induction ps as [|p ps IH]; intros acc r0 g0 b0 Hr Hg Hb.
  - cbn [foldl fmap list_fmap]. change (sumZ []) with 0.
    rewrite !Z.add_0_r. auto.
  - cbn [foldl]. rewrite !sumZ_fmap_cons, !Z.add_assoc.
    apply IH; cbn [acc_add_int red green blue].
    + rewrite Hr. apply int_add_u32_wrap.
    + rewrite Hg. apply int_add_u32_wrap.
    + rewrite Hb. apply int_add_u32_wrap.
Qed.

Lemma sumZ_fmap_replicate (f : Z -> Z) n p :
  sumZ (f <$> replicate n p) = Z.of_nat n * f p.
Proof.
  induction n as [|n IH]; [reflexivity|].
  cbn [replicate]. rewrite sumZ_fmap_cons, IH. lia.
Qed.

Lemma rows_out_nil img d j (xs : list Z) :
  Forall (fun x => ~ 0 <= x < height img) xs ->
  (x ← xs; row_pixels img d x j) = [].
Proof.
  induction 1 as [|x xs Hx _ IH]; [reflexivity|].
  change (row_pixels img d x j ++ (x' ← xs; row_pixels img d x' j) = []).
  rewrite IH. unfold row_pixels. rewrite row_out_nil by assumption.
  reflexivity.
Qed.

Lemma cols_out_nil img x (ys : list Z) :
  Forall (fun y => ~ 0 <= y < width img) ys ->
  (y ← ys; option_list (pixelAt img x y)) = [].
Proof.
  induction 1 as [|y ys Hy _ IH]; [reflexivity|].
  change (option_list (pixelAt img x y)
          ++ (y' ← ys; option_list (pixelAt img x y')) = []).
  rewrite IH, pixelAt_None by lia. reflexivity.
Qed.

Section RedRow.
Variable n : Z.
Hypothesis Hn : 1 <= n <= 1073741824.

Lemma red_row_wf : wf_image (red_row n).
Proof.
  unfold wf_image, red_row, INT_MAX. cbn [width height data].
  rewrite length_replicate.
  repeat split; try lia.
  apply Forall_replicate. unfold is_u32, UINT_MOD. lia.
Qed.

Lemma red_row_blank_dims : has_dims (blank n 1) n 1.
Proof.
  unfold has_dims, blank. cbn [width height data].
  rewrite length_replicate. lia.
Qed.

Lemma red_row_in_range : blur_in_range (red_row n) (n - 1).
Proof.
  unfold blur_in_range, red_row, INT_MAX in *. cbn [width height]. lia.
Qed.

Lemma red_row_pixelAt y :
  0 <= y < n -> pixelAt (red_row n) 0 y = Some 4278190080.
Proof.
  intros Hy. rewrite pixelAt_lookup by (cbn [width height red_row]; lia).
  cbn [red_row data width]. apply lookup_replicate_2. lia.
Qed.

Lemma red_row_prefix (m : nat) :
  Z.of_nat m <= n ->
  (y ← seqZ 0 (Z.of_nat m); option_list (pixelAt (red_row n) 0 y))
  = replicate m 4278190080.
Proof.
  induction m as [|m IH]; intros Hm; [reflexivity|].
  rewrite seqZ_S, bind_app, IH, replicate_S_end by lia.
  f_equal. rewrite Z.add_0_l.
  change (option_list (pixelAt (red_row n) 0 (Z.of_nat m)) ++ []
          = [4278190080]).
  rewrite red_row_pixelAt by lia. reflexivity.
Qed.

(** The window of the first pixel, for a blur distance of [n - 1], holds
    the whole row. *)
Lemma red_row_window :
  window_pixels (red_row n) (n - 1) 0 0 = replicate (Z.to_nat n) 4278190080.
Proof.
  unfold window_pixels.
  replace (2 * (n - 1) + 1) with ((n - 1) + (1 + (n - 1))) at 1 by lia.
  rewrite !seqZ_app, !bind_app by lia.
  rewrite (rows_out_nil _ _ _ (seqZ (0 - (n - 1)) (n - 1))).
  2:{ apply Forall_forall. intros x Hx. apply elem_of_seqZ in Hx.
      cbn [red_row height]. lia. }
  rewrite (rows_out_nil _ _ _ (seqZ (0 - (n - 1) + (n - 1) + 1) (n - 1))).
  2:{ apply Forall_forall. intros x Hx. apply elem_of_seqZ in Hx.
      cbn [red_row height]. lia. }
  replace (0 - (n - 1) + (n - 1)) with 0 by lia.
  change (seqZ 0 1) with [0].
  change ([0] ≫= (fun x => row_pixels (red_row n) (n - 1) x 0))
    with (row_pixels (red_row n) (n - 1) 0 0 ++ []).
  rewrite !app_nil_r, app_nil_l. unfold row_pixels.
  replace (2 * (n - 1) + 1) with ((n - 1) + n) by lia.
  rewrite seqZ_app, bind_app by lia.
  rewrite cols_out_nil.
  2:{ apply Forall_forall. intros y Hy. apply elem_of_seqZ in Hy.
      cbn [red_row width]. lia. }
  replace (0 - (n - 1) + (n - 1)) with 0 by lia.
  rewrite <- (Z2Nat.id n) at 1 by lia.
  rewrite red_row_prefix by lia. reflexivity.
Qed.

(** The pixel blur computes there, in terms of [n] alone. *)
Lemma red_row_blur_result :
  blur_result (red_row n) (n - 1) 0 0
  = Some (createPixel (u32 (Z.quot (to_int (u32 (n * 255))) n))
                      (u32 (Z.quot (to_int (u32 (n * 0))) n))
                      (u32 (Z.quot (to_int (u32 (n * 0))) n))
                      0).
Proof.
  unfold blur_result. rewrite red_row_pixelAt by lia. bind_step. cbv zeta.
  rewrite red_row_window.
  destruct (foldl_acc_add_int_wrap (replicate (Z.to_nat n) 4278190080)
              (mkAcc 0 0 0 0) 0 0 0) as (Er & Eg & Eb); try reflexivity.
  rewrite Er, Eg, Eb, foldl_acc_add_int_total, !sumZ_fmap_replicate.
  rewrite length_replicate. cbn [total].
  rewrite !Z.add_0_l, Z2Nat.id by lia.
  reflexivity.
Qed.

Lemma red_row_channel_avg :
  channel_avg getRed (window_pixels (red_row n) (n - 1) 0 0) = 255.
Proof.
  unfold channel_avg.
  rewrite red_row_window, sumZ_fmap_replicate, length_replicate.
  rewrite Z2Nat.id by lia.
  change (getRed 4278190080) with 255.
  rewrite Z.quot_div_nonneg, Z.mul_comm by lia. apply Z.div_mul. lia.
Qed.

End RedRow.

(** The sum bound is needed: on a single row of 8421505 pixels of full red
    and a blur distance of 8421504, every coordinate stays within [int] and
    blur completes, but the red sum of the first pixel is 2147483775, which
    wraps to a negative [int]: the red channel stored is 2 where the average
    over the window is 255. *)
Lemma blur_sum_wraps :
  wf_image (red_row 8421505) /\
  has_dims (blank 8421505 1) (width (red_row 8421505))
           (height (red_row 8421505)) /\
  blur_in_range (red_row 8421505) 8421504 /\
  channel_avg getRed (window_pixels (red_row 8421505) 8421504 0 0) = 255 /\
  exists out q,
    imgproc_blur (red_row 8421505) (blank 8421505 1) 8421504 = Some out /\
    pixelAt out 0 0 = Some q /\ getRed q = 2.
Proof.
  assert (Hn : 1 <= 8421505 <= 1073741824) by lia.
  pose proof (red_row_wf _ Hn) as Hwf.
  pose proof (red_row_blank_dims _ Hn) as Hd.
  pose proof (red_row_in_range _ Hn) as Hr.
  change (8421505 - 1) with 8421504 in Hr.
  split; [assumption|]. split; [exact Hd|]. split; [assumption|].
  split; [exact (red_row_channel_avg _ Hn)|].
  destruct (imgproc_blur_data _ _ _ Hwf Hd Hr) as (out & E & _ & _ & _ & H).
  specialize (H 0 0).
  pose proof (red_row_blur_result _ Hn) as Hres.
  change (8421505 - 1) with 8421504 in Hres.
  rewrite Hres in H.
  eexists out, _. split; [exact E|].
  split; [apply H; cbn [red_row width height]; lia|].
  vm_compute. reflexivity.
Qed.

(** *** Blur distance zero *)

Lemma blur_in_range_0 img : wf_image img -> blur_in_range img 0.
Proof.
  intros (Hwp & Hhp & Hmax & _).
  unfold blur_in_range, INT_MAX in *.
  repeat split; try lia; nia.
Qed.

Lemma window_pixels_0 img row col p :
  pixelAt img row col = Some p -> window_pixels img 0 row col = [p].
Proof.
  intros Hp. unfold window_pixels, row_pixels.
  rewrite !Z.sub_0_r. change (2 * 0 + 1) with 1.
  change (seqZ row 1) with [0 + row]. change (seqZ col 1) with [0 + col].
  rewrite !Z.add_0_l. cbn. rewrite Hp. reflexivity.
Qed.

Lemma channel_avg_singleton (ch : Z -> Z) p : channel_avg ch [p] = ch p.
Proof.
  unfold channel_avg. cbn [fmap list_fmap sumZ foldr length].
  change (Z.of_nat 1) with 1. rewrite Z.quot_1_r. lia.
Qed.

Lemma blur_spec_0 img row col p :
  pixelAt img row col = Some p -> is_u32 p ->
  blur_spec img 0 row col = Some p.
Proof.
  intros Hp Hu. unfold blur_spec. rewrite Hp. bind_step. cbv zeta.
  rewrite (window_pixels_0 img row col p Hp), !channel_avg_singleton.
  rewrite createPixel_channels by assumption. reflexivity.
Qed.

Lemma blur_result_0 img row col p :
  pixelAt img row col = Some p -> is_u32 p ->
  blur_result img 0 row col = Some p.
Proof.
  intros Hp Hu.
  destruct (blur_result_channels img 0 row col p Hp) as (q & Hq & _ & Hch).
  destruct Hch as (_ & _ & _ & Hs).
  - rewrite (window_pixels_0 img row col p Hp).
    channel_ranges_of p. unfold sums_fit, INT_MAX.
    rewrite !sumZ_fmap_cons. change (sumZ (_ <$> [])) with 0. lia.
  - rewrite (blur_spec_0 img row col p Hp Hu) in Hs. congruence.
Qed.

(** C5. Blur with a blur distance of 0 into a destination of the
    dimensions of the image completes and reproduces the image exactly:
    same dimensions, and every pixel (all four channels) unchanged. *)
Theorem blur_zero_identity src dst :
  wf_image src -> has_dims dst (width src) (height src) ->
  exists out,
    imgproc_blur src dst 0 = Some out /\
    same_image out src /\
    forall row col, pixelAt out row col = pixelAt src row col.
Proof.
  intros Hwf Hd.
  destruct (imgproc_blur_data src dst 0 Hwf Hd (blur_in_range_0 src Hwf))
    as (out & E & Hw & Hh & HL & H).
  pose proof Hwf as (Hwp & Hhp & Hmax & Hlen & _).
  assert (Hdata : data out = data src).
  { apply list_eq. intros n.
    destruct (decide (n < length (data src))%nat) as [Hn|Hn].
    - set (i := Z.of_nat n / width src).
      set (j := Z.of_nat n mod width src).
      assert (Hj : 0 <= j < width src) by (apply Z.mod_pos_bound; lia).
      assert (Hn' : Z.of_nat n = i * width src + j).
      { subst i j. pose proof (Z.div_mod (Z.of_nat n) (width src)). lia. }
      assert (Hi : 0 <= i < height src) by nia.
      pose proof (H i j Hi Hj) as Ho.
      destruct (wf_pixelAt src i j Hwf Hi Hj) as (p & Hp & Hu).
      rewrite (blur_result_0 src i j p Hp Hu), <- Hp in Ho.
      rewrite !pixelAt_lookup in Ho by lia.
      rewrite Hw, <- Hn', Nat2Z.id in Ho. exact Ho.
    - rewrite !lookup_ge_None_2 by lia. reflexivity. }
  exists out. split; [assumption|].
  split; [split; [assumption | split; assumption]|].
  intros row col. unfold pixelAt. now rewrite Hw, Hh, Hdata.
Qed.

Lemma blur_zero_identity_witness :
  exists out,
    imgproc_blur img2x2 (blank 2 2) 0 = Some out /\ same_image out img2x2.
Proof.
  destruct (blur_zero_identity img2x2 (blank 2 2)) as (out & E & Hs & _).
  - apply wf_image_check. vm_compute. reflexivity.
  - vm_compute. auto.
  - exists out. auto.
Defined.

(** *** The divisor of the averages *)

Section LoopPost.
Context {St : Type}.
Implicit Types (body : Z -> St -> option St) (Inv : Z -> St -> Prop).

(** The partial-correctness rule: an invariant kept by every iteration
    that completes holds of the result of a loop that completes. *)
Lemma iter_post Inv n lo body s s' :
  Inv lo s ->
  (forall i t t', lo <= i < lo + Z.of_nat n -> Inv i t ->
     body i t = Some t' -> Inv (i + 1) t') ->
  iter n lo body s = Some s' -> Inv (lo + Z.of_nat n) s'.
Proof.
  revert lo s. induction n as [|n IH]; intros lo s H0 Hstep E.
  - cbn in E. injection E as <-. now rewrite Z.add_0_r.
  - cbn [iter] in E.
    destruct (body lo s) as [t|] eqn:Hb; [|discriminate].
    cbn [mbind option_bind] in E.
    destruct (int_add lo 1) as [lo'|] eqn:Hlo; [|discriminate].
    cbn [mbind option_bind] in E.
    apply int_chk_inv in Hlo as [-> _].
    replace (lo + Z.of_nat (S n)) with (lo + 1 + Z.of_nat n) by lia.
    apply (IH (lo + 1) t); [| |assumption].
    + apply (Hstep lo s t); [lia | assumption | assumption].
    + intros i u u' Hi. apply Hstep. lia.
Qed.

Lemma for_le_post Inv lo hi body s s' :
  lo <= hi + 1 -> Inv lo s ->
  (forall i t t', lo <= i <= hi -> Inv i t ->
     body i t = Some t' -> Inv (i + 1) t') ->
  for_le lo hi body s = Some s' -> Inv (hi + 1) s'.
Proof.
  intros Hle H0 Hstep E. unfold for_le in E.
  replace (hi + 1) with (lo + Z.of_nat (Z.to_nat (hi + 1 - lo))) by lia.
  apply (iter_post Inv _ lo body s s'); [assumption | | assumption].
  intros i t t' Hi. apply Hstep. lia.
Qed.

End LoopPost.

(** A cell of the window never lowers the count, and the cell of a
    position inside the image raises it by one. *)
Lemma blur_cell_total img rows cols i j k l acc acc' :
  blur_cell img rows cols i j k l acc = Some acc' ->
  total acc <= total acc' /\
  (0 <= i + k < rows -> 0 <= j + l < cols -> total acc' = total acc + 1).
Proof.
  unfold blur_cell. intros E.
  destruct (int_add i k) as [x|] eqn:Ex; [|discriminate].
  apply int_chk_inv in Ex as [-> _]. cbn [mbind option_bind] in E.
  destruct (int_add j l) as [y|] eqn:Ey; [|discriminate].
  apply int_chk_inv in Ey as [-> _]. cbn [mbind option_bind] in E.
  destruct ((0 <=? i + k) && (i + k <? rows) && (0 <=? j + l)
            && (j + l <? cols)) eqn:Hin.
  - destruct (int_mul (i + k) cols) as [m|]; [|discriminate].
    cbn [mbind option_bind] in E.
    destruct (int_add m (j + l)) as [idx|]; [|discriminate].
    cbn [mbind option_bind] in E.
    destruct (load (data img) idx) as [p|]; [|discriminate].
    cbn [mbind option_bind] in E.
    destruct (int_add (total acc) 1) as [t|] eqn:Et; [|discriminate].
    apply int_chk_inv in Et as [-> _]. cbn [mbind option_bind] in E.
    injection E as <-. cbn. lia.
  - injection E as <-. split; [lia|]. intros Hx Hy.
    rewrite !andb_false_iff, !Z.leb_gt, !Z.ltb_ge in Hin. lia.
Qed.

Lemma blur_scan_total img rows cols d i j acc :
  0 <= d -> 0 <= i < rows -> 0 <= j < cols ->
  blur_scan img rows cols d i j = Some acc -> 1 <= total acc.
Proof.
  intros Hd Hi Hj E. unfold blur_scan in E.
  destruct (int_neg d) as [lo|] eqn:Hlo; [|discriminate].
  apply int_chk_inv in Hlo as [-> _]. cbn [mbind option_bind] in E.
  apply (for_le_post
    (fun k acc => 0 <= total acc /\ (0 < k -> 1 <= total acc))) in E.
  - apply E. lia.
  - lia.
  - cbn. lia.
  - intros k t t' Hk [Ht0 Ht1] Ek.
    cbn [mbind option_bind] in Ek.
    apply (for_le_post
      (fun l acc => total t <= total acc /\
                    (k = 0 -> 0 < l -> 1 <= total acc))) in Ek.
    + destruct Ek as [Hm Hc].
      split; [lia|]. intros Hk'.
      destruct (Z.eq_dec k 0) as [->|Hne]; [apply Hc; lia | lia].
    + lia.
    + split; [lia|]. intros; lia.
    + intros l u u' Hl [Hu0 Hu1] El.
      apply blur_cell_total in El as [Hm Hin].
      split; [lia|]. intros -> Hl'.
      destruct (Z.eq_dec l 0) as [->|Hne].
      * rewrite Hin by lia. lia.
      * specialize (Hu1 eq_refl). lia.
Qed.

(** A cell of the window keeps the three sums within [int] and the count
    non-negative. *)
Lemma blur_cell_acc_int img rows cols i j k l acc acc' :
  blur_cell img rows cols i j k l acc = Some acc' ->
  acc_int acc -> acc_int acc'.
Proof.
  unfold blur_cell. intros E (Ht & Hr & Hg & Hb).
  destruct (int_add i k) as [x|]; [|discriminate].
  cbn [mbind option_bind] in E.
  destruct (int_add j l) as [y|]; [|discriminate].
  cbn [mbind option_bind] in E.
  destruct ((0 <=? x) && (x <? rows) && (0 <=? y) && (y <? cols)).
  - destruct (int_mul x cols) as [m|]; [|discriminate].
    cbn [mbind option_bind] in E.
    destruct (int_add m y) as [idx|]; [|discriminate].
    cbn [mbind option_bind] in E.
    destruct (load (data img) idx) as [p|]; [|discriminate].
    cbn [mbind option_bind] in E.
    destruct (int_add (total acc) 1) as [t|] eqn:Et; [|discriminate].
    apply int_chk_inv in Et as [-> _]. cbn [mbind option_bind] in E.
    injection E as <-. unfold acc_int. cbn [total red green blue].
    split; [lia|].
    split; [apply int_add_u32_range|].
    split; apply int_add_u32_range.
  - injection E as <-. unfold acc_int. auto.
Qed.

Lemma blur_scan_acc_int img rows cols d i j acc :
  0 <= d -> blur_scan img rows cols d i j = Some acc -> acc_int acc.
Proof.
  intros Hd E. unfold blur_scan in E.
  destruct (int_neg d) as [lo|] eqn:Hlo; [|discriminate].
  apply int_chk_inv in Hlo as [-> _]. cbn [mbind option_bind] in E.
  apply (for_le_post (fun _ acc => acc_int acc)) in E.
  - exact E.
  - lia.
  - unfold acc_int, INT_MIN, INT_MAX. cbn. lia.
  - intros k t t' Hk Ht Ek.
    cbn [mbind option_bind] in Ek.
    apply (for_le_post (fun _ acc => acc_int acc)) in Ek.
    + exact Ek.
    + lia.
    + exact Ht.
    + intros l u u' Hl Hu El.
      apply (blur_cell_acc_int _ _ _ _ _ _ _ _ _ El Hu).
Qed.

(** The pixel that [blur_pixel] stores is packed from the quotients of
    the three sums of the scan by the count of the scan, which is the
    divisor of all three divisions, and from the alpha of the input
    pixel. *)
Lemma blur_pixel_divides img d i j acc (out : list Z) :
  wf_image img -> 0 <= d ->
  0 <= i < height img -> 0 <= j < width img ->
  blur_scan img (height img) (width img) d i j = Some acc ->
  exists p,
    pixelAt img i j = Some p /\
    blur_pixel img (height img) (width img) d i j out
    = store out (i * width img + j)
        (createPixel (u32 (Z.quot (red acc) (total acc)))
                     (u32 (Z.quot (green acc) (total acc)))
                     (u32 (Z.quot (blue acc) (total acc)))
                     (getAlpha p)).
Proof.
  intros Hwf Hd Hi Hj E.
  pose proof Hwf as (Hwp & Hhp & Hmax & _).
  pose proof (index_bound _ _ _ _ Hi Hj) as Hidx.
  pose proof (blur_scan_total _ _ _ _ _ _ _ Hd Hi Hj E) as Ht.
  destruct (blur_scan_acc_int _ _ _ _ _ _ _ Hd E) as (_ & Hr & Hg & Hb).
  destruct (wf_pixelAt img i j Hwf Hi Hj) as (p & Hp & _).
  exists p. split; [assumption|].
  unfold blur_pixel. rewrite E. bind_step.
  rewrite int_mul_Some by (unfold INT_MIN; nia). bind_step.
  rewrite int_add_Some by (unfold INT_MIN; lia). bind_step.
  rewrite load_lookup, <- pixelAt_lookup, Hp by lia. bind_step.
  rewrite !int_div_pos by assumption. bind_step.
  reflexivity.
Qed.

Lemma pa_avg_pixel_defined pa :
  1 <= PA.count pa ->
  pa_avg_pixel pa
  = Some (createPixel (u32 (PA.r pa / PA.count pa))
                      (u32 (PA.g pa / PA.count pa))
                      (u32 (PA.b pa / PA.count pa))
                      (u32 (PA.a pa / PA.count pa))).
Proof.
  intros Hc. unfold pa_avg_pixel, u32_div.
  destruct (Z.eqb_spec (PA.count pa) 0); [lia | reflexivity].
Qed.

(** C3.  In blur the contributor count of an output pixel is at least 1
    whenever the scan of its window completes, for every non-negative blur
    distance, because the centre of the window is counted; and that count
    is the divisor [blur_pixel] uses: the pixel it stores is packed from
    the quotients of the three channel sums by the count, so none of its
    divisions is a division by zero.  When the window coordinates fit an
    [int] the scan does complete, and so does the whole transform.  At the
    corner of a 3x3 image blurred with distance 1 the count is 4, and
    blurring the 3x3 image of zero pixels with distance 1 gives zero
    pixels.  Finalizing an averager whose count is at least 1 is defined,
    and an averager that has accumulated a pixel inside the image on top
    of a count below [2^32 - 1] has a count of at least 1. *)
Theorem blur_divisor_positive (img dst : Image) (d i j : Z) (out : list Z)
    (pa : PixelAverager) :
  0 <= d -> 0 <= i < height img -> 0 <= j < width img ->
  (forall acc,
     blur_scan img (height img) (width img) d i j = Some acc ->
     1 <= total acc /\
     (wf_image img ->
      exists p,
        pixelAt img i j = Some p /\
        int_div (red acc) (total acc)
        = Some (Z.quot (red acc) (total acc)) /\
        int_div (green acc) (total acc)
        = Some (Z.quot (green acc) (total acc)) /\
        int_div (blue acc) (total acc)
        = Some (Z.quot (blue acc) (total acc)) /\
        blur_pixel img (height img) (width img) d i j out
        = store out (i * width img + j)
            (createPixel (u32 (Z.quot (red acc) (total acc)))
                         (u32 (Z.quot (green acc) (total acc)))
                         (u32 (Z.quot (blue acc) (total acc)))
                         (getAlpha p)))) /\
  (wf_image img -> blur_in_range img d ->
   (exists acc,
      blur_scan img (height img) (width img) d i j = Some acc) /\
   (Z.of_nat (length out) = width img * height img ->
    is_Some (blur_pixel img (height img) (width img) d i j out)) /\
   (has_dims dst (width img) (height img) ->
    is_Some (imgproc_blur img dst d))) /\
  blur_scan img3x3_zero 3 3 1 0 0 = Some (mkAcc 0 0 0 4) /\
  imgproc_blur img3x3_zero (blank 3 3) 1 = Some img3x3_zero /\
  (1 <= PA.count pa -> is_Some (pa_avg_pixel pa)) /\
  (wf_image img -> 0 <= PA.count pa < UINT_MOD - 1 ->
   exists pa',
     pa_update_from_img img i j pa = Some pa' /\
     1 <= PA.count pa' /\ is_Some (pa_avg_pixel pa')).
Proof.
  intros Hd Hi Hj. split; [|split; [|split; [|split; [|split]]]].
  - intros acc E.
    pose proof (blur_scan_total _ _ _ _ _ _ _ Hd Hi Hj E) as Ht.
    split; [assumption|]. intros Hwf.
    destruct (blur_scan_acc_int _ _ _ _ _ _ _ Hd E) as (_ & Hr & Hg & Hb).
    destruct (blur_pixel_divides img d i j acc out Hwf Hd Hi Hj E)
      as (p & Hp & Hpix).
    exists p. rewrite !int_div_pos by assumption. auto.
  - intros Hwf Hrange.
    pose proof Hwf as (Hwp & Hhp & Hmax & _).
    pose proof (index_bound _ _ _ _ Hi Hj) as Hidx.
    destruct (blur_scan_spec img d i j Hwf Hrange Hi Hj) as [E _].
    split; [eauto|]. split.
    + intros Hlen.
      destruct (blur_pixel_divides img d i j _ out Hwf Hd Hi Hj E)
        as (p & _ & ->).
      rewrite store_Some by lia. eauto.
    + intros Hdims.
      destruct (imgproc_blur_data img dst d Hwf Hdims Hrange)
        as (o & -> & _). eauto.
  - reflexivity.
  - vm_compute. reflexivity.
  - intros Hc. rewrite pa_avg_pixel_defined by assumption. eauto.
  - intros Hwf Hc.
    destruct (pa_update_from_img_in pa img i j Hwf Hi Hj) as (p & _ & _ & E).
    exists (pa_update pa p). split; [assumption|].
    assert (1 <= PA.count (pa_update pa p)).
    { cbn [pa_update PA.count].
      rewrite u32_small by (unfold is_u32; lia). lia. }
    split; [assumption|].
    rewrite pa_avg_pixel_defined by assumption. eauto.
Qed.

Lemma blur_divisor_positive_witness :
  (forall acc,
     blur_scan img2x2 (height img2x2) (width img2x2) 1 1 1 = Some acc ->
     1 <= total acc) /\
  (exists acc,
     blur_scan img2x2 (height img2x2) (width img2x2) 1 1 1 = Some acc) /\
  is_Some (blur_pixel img2x2 (height img2x2) (width img2x2) 1 1 1
             (data (blank 2 2))) /\
  is_Some (imgproc_blur img2x2 (blank 2 2) 1) /\
  is_Some (pa_avg_pixel (pa_update pa_init 4278190335)) /\
  exists pa',
    pa_update_from_img img2x2 1 1 pa_init = Some pa' /\
    1 <= PA.count pa' /\ is_Some (pa_avg_pixel pa').
Proof.
  assert (W : wf_image img2x2)
    by (apply wf_image_check; vm_compute; reflexivity).
  assert (R : blur_in_range img2x2 1)
    by (unfold blur_in_range, INT_MAX; cbn; lia).
  destruct (blur_divisor_positive img2x2 (blank 2 2) 1 1 1
              (data (blank 2 2)) (pa_update pa_init 4278190335))
    as (H1 & H2 & _ & _ & H3 & _); try (cbn; lia).
  destruct (blur_divisor_positive img2x2 (blank 2 2) 1 1 1
              (data (blank 2 2)) pa_init)
    as (_ & _ & _ & _ & _ & H4); try (cbn; lia).
  destruct (H2 W R) as (Hs & Hp & Hb).
  split; [intros acc E; apply (H1 acc E)|].
  split; [exact Hs|].
  split; [apply Hp; reflexivity|].
  split; [apply Hb; vm_compute; auto|].
  split; [apply H3; vm_compute; discriminate|].
  apply H4; [exact W | unfold UINT_MOD; cbn; lia].
Defined.

(** * Further properties of the code *)

(** ** Linear indices *)

Lemma quot_in_int x y :
  INT_MIN <= x <= INT_MAX -> y <> 0 -> ~ (x = INT_MIN /\ y = -1) ->
  INT_MIN <= Z.quot x y <= INT_MAX.
Proof.
  intros Hx Hy Hne.
  pose proof (Z.quot_rem' x y) as E.
  pose proof (Z.rem_bound_abs x y Hy) as Hr.
  pose proof (Z.rem_sign_mul x y Hy) as Hs.
  unfold INT_MIN, INT_MAX in *.
  destruct (Z.eq_dec y 1) as [->|H1].
  { rewrite Z.quot_1_r. lia. }
  destruct (Z.eq_dec y (-1)) as [->|H2].
  { replace (-1) with (- (1)) by lia. rewrite Z.quot_opp_r, Z.quot_1_r by lia.
    lia. }
  assert (Habs : Z.abs (Z.quot x y) <= Z.abs x).
  { rewrite <- Z.quot_abs by assumption.
    rewrite Z.quot_div_nonneg by lia.
    apply Z.div_le_upper_bound; [lia|]. nia. }
  assert (Z.abs (Z.quot x y) * 2 <= Z.abs x).
  { rewrite <- Z.quot_abs by assumption.
    rewrite Z.quot_div_nonneg by lia.
    pose proof (Z.mul_div_le (Z.abs x) (Z.abs y) ltac:(lia)).
    assert (0 <= Z.abs x / Z.abs y) by (apply Z.div_pos; lia).
    nia. }
  lia.
Qed.

(** X1. For every [int] index and every non-zero [int] width other than the
    pair [INT_MIN], [-1], [rowIndex] and [columnIndex] are both defined and
    split the index: [index = row * width + col], with the column smaller in
    absolute value than the width and of the sign of the index. *)
Theorem index_split index w :
  INT_MIN <= index <= INT_MAX -> w <> 0 ->
  ~ (index = INT_MIN /\ w = -1) ->
  exists row col,
    rowIndex index w = Some row /\ columnIndex index w = Some col /\
    index = row * w + col /\
    Z.abs col < Z.abs w /\ 0 <= col * index.
Proof.
  intros Hx Hw Hne.
  exists (Z.quot index w), (Z.rem index w).
  unfold rowIndex, columnIndex, int_div, int_rem.
  destruct (Z.eqb_spec w 0); [contradiction|].
  rewrite int_chk_Some by (apply quot_in_int; assumption).
  split; [reflexivity|]. split.
  - destruct (Z.eqb_spec index INT_MIN), (Z.eqb_spec w (-1));
      try reflexivity. exfalso. auto.
  - pose proof (Z.quot_rem' index w).
    pose proof (Z.rem_bound_abs index w Hw).
    pose proof (Z.rem_sign_nz index w).
    split; [lia|]. split; [lia|].
    apply Z.rem_sign_mul. assumption.
Qed.

Lemma index_split_witness :
  exists row col,
    rowIndex (-7) 3 = Some row /\ columnIndex (-7) 3 = Some col /\
    -7 = row * 3 + col /\ Z.abs col < Z.abs 3 /\ 0 <= col * -7.
Proof. apply (index_split (-7) 3); unfold INT_MIN, INT_MAX; lia. Defined.

(** X2. [rowIndex] and [columnIndex] invert the row-major index: for a
    column within the width and a non-negative row whose index fits an
    [int], they give back the row and the column. *)
Theorem index_of_row_col w row col :
  0 <= row -> 0 <= col < w -> row * w + col <= INT_MAX ->
  rowIndex (row * w + col) w = Some row /\
  columnIndex (row * w + col) w = Some col.
Proof.
  intros Hr Hc Hmax. unfold rowIndex, columnIndex.
  rewrite int_div_nonneg, int_rem_nonneg by nia.
  rewrite index_div, index_mod by assumption. auto.
Qed.

Lemma index_of_row_col_witness :
  rowIndex (2 * 5 + 3) 5 = Some 2 /\ columnIndex (2 * 5 + 3) 5 = Some 3.
Proof. apply (index_of_row_col 5 2 3); unfold INT_MAX; lia. Defined.

(** ** Unchecked pixel access *)

(** X3. [getPixel] checks neither coordinate: it reads the buffer at the
    linear index [row * width + col], which it forms in [int].  Whenever
    the product [row * width] fits an [int] and the index lies within the
    buffer it returns the pixel stored there, which sits at row
    [index / width] and column [index mod width] even if [col] is not
    within the width.  Whenever the index lies outside the buffer the read
    is undefined, and so it is whenever the product does not fit an [int],
    even if the index then lies within the buffer. *)
Theorem getPixel_linear img row col :
  wf_image img ->
  (INT_MIN <= row * width img <= INT_MAX ->
   0 <= row * width img + col < width img * height img ->
   exists p,
     getPixel img row col = Some p /\
     pixelAt img ((row * width img + col) / width img)
                 ((row * width img + col) mod width img) = Some p) /\
  (row * width img + col < 0 \/
   width img * height img <= row * width img + col ->
   getPixel img row col = None) /\
  (row * width img < INT_MIN \/ INT_MAX < row * width img ->
   getPixel img row col = None).
Proof.
  intros Hwf. pose proof Hwf as (Hwp & Hhp & Hmax & Hlen & _).
  unfold getPixel. split; [|split].
  - intros Hm Hidx.
    set (idx := row * width img + col) in *.
    rewrite int_mul_Some by assumption. bind_step. fold idx.
    rewrite int_add_Some by (unfold INT_MIN; lia). bind_step.
    rewrite load_lookup by lia.
    destruct (wf_lookup img idx Hwf Hidx) as (p & Hp & _).
    exists p. split; [assumption|].
    assert (Hc : 0 <= idx mod width img < width img)
      by (apply Z.mod_pos_bound; lia).
    assert (Hr : 0 <= idx / width img < height img).
    { split; [apply Z.div_pos; lia | apply Z.div_lt_upper_bound; lia]. }
    rewrite pixelAt_lookup by assumption.
    replace (idx / width img * width img + idx mod width img) with idx;
      [assumption|].
    pose proof (Z.div_mod idx (width img)). lia.
  - intros Hout.
    destruct (int_mul row (width img)) as [m|] eqn:Em; [|reflexivity].
    apply int_chk_inv in Em as [-> _]. bind_step.
    destruct (int_add (row * width img) col) as [idx|] eqn:Ei;
      [|reflexivity].
    apply int_chk_inv in Ei as [-> _]. bind_step.
    unfold load.
    destruct (Z.ltb_spec (row * width img + col) 0); [reflexivity|].
    apply lookup_ge_None_2. lia.
  - intros Hover.
    destruct (int_mul row (width img)) as [m|] eqn:Em; [|reflexivity].
    apply int_chk_inv in Em as [_ Hm]. lia.
Qed.

Lemma getPixel_linear_witness :
  (exists p, getPixel img4x4 1 5 = Some p /\ pixelAt img4x4 2 1 = Some p) /\
  getPixel img4x4 3 4 = None /\
  getPixel img4x4 536870912 (-2147483643) = None.
Proof.
  assert (W : wf_image img4x4)
    by (apply wf_image_check; vm_compute; reflexivity).
  destruct (getPixel_linear img4x4 1 5 W) as (H1 & _ & _).
  destruct (getPixel_linear img4x4 3 4 W) as (_ & H2 & _).
  destruct (getPixel_linear img4x4 536870912 (-2147483643) W)
    as (_ & _ & H3).
  split; [|split].
  - apply H1; unfold INT_MIN, INT_MAX; cbn; lia.
  - apply H2. cbn. lia.
  - apply H3. unfold INT_MAX. cbn. lia.
Defined.

(** ** Packing without validation *)

(** X4. [createPixel] masks none of its arguments: for arbitrary 32-bit
    arguments the result is a 32-bit value whose alpha byte is the low byte
    of the alpha argument, and whose blue, green and red bytes are the low
    bytes of their arguments or-ed with the bits that the lower arguments
    carry above their low byte. *)
Theorem createPixel_unmasked cr cg cb ca :
  is_u32 cr -> is_u32 cg -> is_u32 cb -> is_u32 ca ->
  is_u32 (createPixel cr cg cb ca) /\
  getAlpha (createPixel cr cg cb ca) = Z.land ca 255 /\
  getBlue (createPixel cr cg cb ca)
    = Z.lor (Z.land cb 255) (Z.land (Z.shiftr ca 8) 255) /\
  getGreen (createPixel cr cg cb ca)
    = Z.lor (Z.lor (Z.land cg 255) (Z.land (Z.shiftr cb 8) 255))
            (Z.land (Z.shiftr ca 16) 255) /\
  getRed (createPixel cr cg cb ca)
    = Z.lor (Z.lor (Z.lor (Z.land cr 255) (Z.land (Z.shiftr cg 8) 255))
                   (Z.land (Z.shiftr cb 16) 255))
            (Z.land (Z.shiftr ca 24) 255).
Proof.
  intros Hr Hg Hb Ha. split; [|split; [|split; [|split]]].
  - assert (E : createPixel cr cg cb ca = u32 (createPixel cr cg cb ca)).
    { unfold createPixel. bitblast. }
    rewrite E. apply u32_is_u32.
  - unfold getAlpha, createPixel. bitblast.
  - unfold getBlue, createPixel. bitblast; repeat f_equal; lia.
  - unfold getGreen, createPixel. bitblast; repeat f_equal; lia.
  - unfold getRed, createPixel. bitblast; repeat f_equal; lia.
Qed.

Lemma createPixel_unmasked_witness :
  getRed (createPixel 0 256 0 0) = Z.lor (Z.lor (Z.lor (Z.land 0 255)
    (Z.land (Z.shiftr 256 8) 255)) (Z.land (Z.shiftr 0 16) 255))
    (Z.land (Z.shiftr 0 24) 255).
Proof.
  apply (createPixel_unmasked 0 256 0 0); unfold is_u32, UINT_MOD; lia.
Defined.

(** ** Algebra of the averagers *)

Lemma sumZ_fmap_perm (f : Z -> Z) (ps qs : list Z) :
  ps ≡ₚ qs -> sumZ (f <$> ps) = sumZ (f <$> qs).
Proof.
  induction 1 as [|x l l' _ IH|x y l|l l' l'' _ IH1 _ IH2].
  - reflexivity.
  - rewrite !sumZ_fmap_cons, IH. reflexivity.
  - rewrite !sumZ_fmap_cons. lia.
  - congruence.
Qed.

Lemma average_pixel_perm (ps qs : list Z) :
  ps ≡ₚ qs -> average_pixel ps = average_pixel qs.
Proof.
  intros H. unfold average_pixel, channel_avg.
  rewrite (Permutation_length H).
  rewrite !(sumZ_fmap_perm _ ps qs H). reflexivity.
Qed.

Lemma average_pixel_is_u32 ps : is_u32 (average_pixel ps).
Proof.
  unfold average_pixel. apply createPixel_is_u32.
  - apply channel_avg_range, getRed_range.
  - apply channel_avg_range, getGreen_range.
  - apply channel_avg_range, getBlue_range.
  - apply channel_avg_range, getAlpha_range.
Qed.

Lemma quot_mul_l n c : n <> 0 -> Z.quot (n * c) n = c.
Proof. intros Hn. rewrite Z.mul_comm. apply Z.quot_mul. assumption. Qed.

Lemma average_pixel_replicate n p :
  is_u32 p -> average_pixel (replicate (S n) p) = p.
Proof.
  intros Hp. unfold average_pixel, channel_avg.
  rewrite !sumZ_fmap_replicate, length_replicate.
  rewrite !quot_mul_l by lia.
  apply createPixel_channels. assumption.
Qed.

Lemma quot_between x y :
  0 <= x -> 0 <= y -> Z.min x y <= Z.quot (x + y) 2 <= Z.max x y.
Proof.
  intros Hx Hy. rewrite Z.quot_div_nonneg by lia.
  split.
  - apply Z.div_le_lower_bound; lia.
  - apply Z.div_le_upper_bound; lia.
Qed.

(** X5. The 2-way averager always returns a 32-bit pixel, does not depend
    on the order of its two arguments, returns a 32-bit pixel unchanged
    when given it twice, and each channel of its result lies between the
    same channel of its two arguments. *)
Theorem createAveragePixel_algebra p q :
  is_u32 (createAveragePixel p q) /\
  createAveragePixel p q = createAveragePixel q p /\
  (is_u32 p -> createAveragePixel p p = p) /\
  Z.min (getRed p) (getRed q) <= getRed (createAveragePixel p q)
    <= Z.max (getRed p) (getRed q) /\
  Z.min (getGreen p) (getGreen q) <= getGreen (createAveragePixel p q)
    <= Z.max (getGreen p) (getGreen q) /\
  Z.min (getBlue p) (getBlue q) <= getBlue (createAveragePixel p q)
    <= Z.max (getBlue p) (getBlue q) /\
  Z.min (getAlpha p) (getAlpha q) <= getAlpha (createAveragePixel p q)
    <= Z.max (getAlpha p) (getAlpha q).
Proof.
  split; [rewrite createAveragePixel_spec; apply average_pixel_is_u32|].
  split.
  { rewrite !createAveragePixel_spec. apply average_pixel_perm.
    apply Permutation_swap. }
  split.
  { intros Hp. rewrite createAveragePixel_spec.
    apply (average_pixel_replicate 1 p Hp). }
  destruct (createAveragePixel_channels p q) as (-> & -> & -> & ->).
  channel_ranges_of p. channel_ranges_of q.
  repeat split; apply quot_between; lia.
Qed.

Lemma createAveragePixel_algebra_witness :
  createAveragePixel 4278190335 4278190335 = 4278190335.
Proof.
  apply (createAveragePixel_algebra 4278190335 4278190335).
  unfold is_u32, UINT_MOD. lia.
Defined.

(** X6. The 4-way averager always returns a 32-bit pixel, gives the same
    result for every reordering of its four arguments, returns a 32-bit
    pixel unchanged when given it four times, and, given two pixels twice
    each, agrees with the 2-way averager on those two pixels. *)
Theorem quadAveragePixel_algebra p1 p2 p3 p4 q1 q2 q3 q4 :
  is_u32 (quadAveragePixel p1 p2 p3 p4) /\
  ([p1; p2; p3; p4] ≡ₚ [q1; q2; q3; q4] ->
   quadAveragePixel p1 p2 p3 p4 = quadAveragePixel q1 q2 q3 q4) /\
  (is_u32 p1 -> quadAveragePixel p1 p1 p1 p1 = p1) /\
  quadAveragePixel p1 p2 p1 p2 = createAveragePixel p1 p2.
Proof.
  split; [rewrite quadAveragePixel_spec; apply average_pixel_is_u32|].
  split.
  { intros H. rewrite !quadAveragePixel_spec.
    apply average_pixel_perm, H. }
  split.
  { intros Hp. rewrite quadAveragePixel_spec.
    apply (average_pixel_replicate 3 p1 Hp). }
  rewrite quadAveragePixel_spec, createAveragePixel_spec.
  unfold average_pixel, channel_avg.
  rewrite !sumZ_fmap_cons. change (sumZ (_ <$> [])) with 0.
  cbn [length]. change (Z.of_nat 4) with 4. change (Z.of_nat 2) with 2.
  channel_ranges_of p1. channel_ranges_of p2.
  assert (Hhalf : forall x y, 0 <= x -> 0 <= y ->
            Z.quot (x + (y + (x + (y + 0)))) 4 = Z.quot (x + (y + 0)) 2).
  { intros x y Hx Hy. rewrite !Z.quot_div_nonneg by lia.
    replace (x + (y + (x + (y + 0)))) with ((x + (y + 0)) * 2) by lia.
    change 4 with (2 * 2).
    rewrite <- Z.div_div, Z.div_mul by lia. reflexivity. }
  rewrite !Hhalf by lia. reflexivity.
Qed.

Lemma quadAveragePixel_algebra_witness :
  quadAveragePixel 4278190335 16711935 65535 4294967295
  = quadAveragePixel 4294967295 65535 16711935 4278190335 /\
  quadAveragePixel 65535 65535 65535 65535 = 65535.
Proof.
  destruct (quadAveragePixel_algebra 4278190335 16711935 65535 4294967295
              4294967295 65535 16711935 4278190335) as (_ & H & _).
  destruct (quadAveragePixel_algebra 65535 65535 65535 65535
              65535 65535 65535 65535) as (_ & _ & H' & _).
  split.
  - apply H. apply (Permutation_rev [4278190335; 16711935; 65535; 4294967295]).
  - apply H'. unfold is_u32, UINT_MOD. lia.
Defined.

(** ** The averager as a whole *)

(** As long as no field wraps, the sums of an averager are those of the
    channels of the pixels it was updated with and its count is their
    number.  255 times the number of pixels bounds each sum. *)
Lemma foldl_pa_update ps pa :
  0 <= PA.r pa -> 0 <= PA.g pa -> 0 <= PA.b pa -> 0 <= PA.a pa ->
  0 <= PA.count pa ->
  PA.r pa + 255 * Z.of_nat (length ps) < UINT_MOD ->
  PA.g pa + 255 * Z.of_nat (length ps) < UINT_MOD ->
  PA.b pa + 255 * Z.of_nat (length ps) < UINT_MOD ->
  PA.a pa + 255 * Z.of_nat (length ps) < UINT_MOD ->
  PA.count pa + Z.of_nat (length ps) < UINT_MOD ->
  PA.r (foldl pa_update pa ps) = PA.r pa + sumZ (getRed <$> ps) /\
  PA.g (foldl pa_update pa ps) = PA.g pa + sumZ (getGreen <$> ps) /\
  PA.b (foldl pa_update pa ps) = PA.b pa + sumZ (getBlue <$> ps) /\
  PA.a (foldl pa_update pa ps) = PA.a pa + sumZ (getAlpha <$> ps) /\
  PA.count (foldl pa_update pa ps) = PA.count pa + Z.of_nat (length ps).
Proof.
  revert pa. induction ps as [|p ps IH];
    intros pa Hr Hg Hb Ha Hc Br Bg Bb Ba Bc.
  - cbn [foldl fmap list_fmap length]. change (sumZ []) with 0. lia.
  - cbn [foldl]. cbn [length] in Br, Bg, Bb, Ba, Bc.
    pose proof (getRed_range p). pose proof (getGreen_range p).
    pose proof (getBlue_range p). pose proof (getAlpha_range p).
    assert (E : pa_update pa p
                = PA.mk (PA.r pa + getRed p) (PA.g pa + getGreen p)
                        (PA.b pa + getBlue p) (PA.a pa + getAlpha p)
                        (PA.count pa + 1)).
    { unfold pa_update.
      rewrite (u32_small (PA.r pa + getRed p)),
        (u32_small (PA.g pa + getGreen p)),
        (u32_small (PA.b pa + getBlue p)),
        (u32_small (PA.a pa + getAlpha p)),
        (u32_small (PA.count pa + 1)) by (unfold is_u32; lia).
      reflexivity. }
    rewrite E.
    destruct (IH (PA.mk (PA.r pa + getRed p) (PA.g pa + getGreen p)
                        (PA.b pa + getBlue p) (PA.a pa + getAlpha p)
                        (PA.count pa + 1)))
      as (-> & -> & -> & -> & ->);
      cbn [PA.r PA.g PA.b PA.a PA.count]; try lia.
    rewrite !sumZ_fmap_cons. cbn [length]. lia.
Qed.

Lemma pa_avg_pixel_foldl ps :
  ps <> [] -> 255 * Z.of_nat (length ps) < UINT_MOD ->
  pa_avg_pixel (foldl pa_update pa_init ps) = Some (average_pixel ps).
Proof.
  intros Hne Hfit.
  assert (Hlen : 0 < Z.of_nat (length ps)) by (destruct ps; [done | cbn; lia]).
  destruct (foldl_pa_update ps pa_init) as (Er & Eg & Eb & Ea & Ec);
    cbn [pa_init PA.r PA.g PA.b PA.a PA.count]; try lia.
  cbn [pa_init PA.r PA.g PA.b PA.a PA.count] in Er, Eg, Eb, Ea, Ec.
  rewrite pa_avg_pixel_defined by lia.
  rewrite Er, Eg, Eb, Ea, Ec, !Z.add_0_l.
  unfold average_pixel, channel_avg.
  pose proof (sumZ_channel_bound getRed ps getRed_range) as Hr.
  pose proof (sumZ_channel_bound getGreen ps getGreen_range) as Hg.
  pose proof (sumZ_channel_bound getBlue ps getBlue_range) as Hb.
  pose proof (sumZ_channel_bound getAlpha ps getAlpha_range) as Ha.
  destruct (quot_avg_range _ _ Hr Hlen) as [-> Rr].
  destruct (quot_avg_range _ _ Hg Hlen) as [-> Rg].
  destruct (quot_avg_range _ _ Hb Hlen) as [-> Rb].
  destruct (quot_avg_range _ _ Ha Hlen) as [-> Ra].
  rewrite !u32_small by (unfold is_u32, UINT_MOD; lia).
  reflexivity.
Qed.

Lemma sumZ_replicate (f : Z -> Z) n p :
  sumZ (f <$> replicate n p) = Z.of_nat n * f p.
Proof.
  induction n as [|n IH]; [reflexivity|].
  change (replicate (S n) p) with (p :: replicate n p).
  rewrite sumZ_fmap_cons, IH. lia.
Qed.

(** The state [pa_full] is the one an averager is in after 16843009
    pixels of full red and full alpha, none of which wraps a field. *)
Lemma pa_full_reached :
  foldl pa_update pa_init (replicate (Z.to_nat 16843009) 4278190335)
  = pa_full.
Proof.
  set (n := Z.to_nat 16843009).
  assert (Hn : Z.of_nat n = 16843009) by (subst n; apply Z2Nat.id; lia).
  destruct (foldl_pa_update (replicate n 4278190335) pa_init)
    as (Er & Eg & Eb & Ea & Ec);
    rewrite ?length_replicate, ?Hn;
    cbn [pa_init PA.r PA.g PA.b PA.a PA.count];
    try (unfold UINT_MOD; lia).
  rewrite !sumZ_replicate, ?length_replicate, Hn in *.
  cbn [pa_init PA.r PA.g PA.b PA.a PA.count] in Er, Eg, Eb, Ea, Ec.
  clearbody n.
  destruct (foldl pa_update pa_init (replicate n 4278190335))
    as [r g b a c].
  cbn [PA.r PA.g PA.b PA.a PA.count] in Er, Eg, Eb, Ea, Ec.
  subst r g b a c. reflexivity.
Qed.

(** X7. Reset, one accumulation from a position inside the image, and
    finalization give back exactly the pixel at that position. *)
Theorem pa_single_pixel_roundtrip img row col :
  wf_image img -> 0 <= row < height img -> 0 <= col < width img ->
  exists p pa,
    pixelAt img row col = Some p /\
    pa_update_from_img img row col pa_init = Some pa /\
    pa_avg_pixel pa = Some p.
Proof.
  intros Hwf Hr Hc.
  destruct (pa_update_from_img_in pa_init img row col Hwf Hr Hc)
    as (p & Hp & Hu & E).
  exists p, (pa_update pa_init p). split; [assumption|].
  split; [assumption|].
  change (pa_update pa_init p) with (foldl pa_update pa_init [p]).
  rewrite pa_avg_pixel_foldl; [| discriminate | reflexivity].
  f_equal. apply (average_pixel_replicate 0 p Hu).
Qed.

Lemma pa_single_pixel_roundtrip_witness :
  exists p pa,
    pixelAt img2x2 1 0 = Some p /\
    pa_update_from_img img2x2 1 0 pa_init = Some pa /\
    pa_avg_pixel pa = Some p.
Proof.
  apply (pa_single_pixel_roundtrip img2x2 1 0).
  - apply wf_image_check. vm_compute. reflexivity.
  - cbn. lia.
  - cbn. lia.
Defined.

(** X8. Finalizing an averager that was reset and then updated with the
    pixels of a non-empty list, few enough for the sums to stay below
    [2^32], gives the pixel of the truncated per-channel averages of the
    list; for two pixels this is the result of the 2-way averager and for
    four pixels that of the 4-way averager. *)
Theorem pa_average_of_list ps p1 p2 p3 p4 :
  ps <> [] -> 255 * Z.of_nat (length ps) < UINT_MOD ->
  pa_avg_pixel (foldl pa_update pa_init ps) = Some (average_pixel ps) /\
  pa_avg_pixel (pa_update (pa_update pa_init p1) p2)
    = Some (createAveragePixel p1 p2) /\
  pa_avg_pixel
    (pa_update (pa_update (pa_update (pa_update pa_init p1) p2) p3) p4)
    = Some (quadAveragePixel p1 p2 p3 p4).
Proof.
  intros Hne Hfit.
  split; [apply pa_avg_pixel_foldl; assumption|].
  split.
  - rewrite createAveragePixel_spec.
    apply (pa_avg_pixel_foldl [p1; p2]); [discriminate | reflexivity].
  - rewrite quadAveragePixel_spec.
    apply (pa_avg_pixel_foldl [p1; p2; p3; p4]); [discriminate | reflexivity].
Qed.

Lemma pa_average_of_list_witness :
  pa_avg_pixel (foldl pa_update pa_init [4278190335; 16711935; 65535])
  = Some (average_pixel [4278190335; 16711935; 65535]).
Proof.
  apply (pa_average_of_list [4278190335; 16711935; 65535] 0 0 0 0).
  - discriminate.
  - vm_compute. reflexivity.
Defined.

(** ** Failing iterations *)

Section LoopFail.
Context {St : Type}.
Implicit Types (body : Z -> St -> option St) (Inv : St -> Prop).

(** A loop one of whose iterations is undefined in every state the loop
    can reach is undefined. *)
Lemma iter_fail Inv n lo body s k :
  lo <= k < lo + Z.of_nat n -> Inv s ->
  (forall i t t', Inv t -> body i t = Some t' -> Inv t') ->
  (forall t, Inv t -> body k t = None) ->
  iter n lo body s = None.
Proof.
  revert lo s. induction n as [|n IH]; intros lo s Hk Hs Hkeep Hfail; [lia|].
  cbn [iter]. destruct (body lo s) as [t|] eqn:Hb; [|reflexivity].
  bind_step. destruct (int_add lo 1) as [lo'|] eqn:Hlo; [|reflexivity].
  bind_step. apply int_chk_inv in Hlo as [-> _].
  destruct (Z.eq_dec k lo) as [->|Hne].
  - rewrite (Hfail s Hs) in Hb. discriminate.
  - apply IH; [lia | eapply Hkeep; eassumption | assumption | assumption].
Qed.

Lemma for_lt_fail Inv lo hi body s k :
  lo <= k < hi -> Inv s ->
  (forall i t t', Inv t -> body i t = Some t' -> Inv t') ->
  (forall t, Inv t -> body k t = None) ->
  for_lt lo hi body s = None.
Proof.
  intros Hk. unfold for_lt. apply iter_fail. lia.
Qed.

End LoopFail.

Lemma store_length (d d' : list Z) idx v :
  store d idx v = Some d' -> length d' = length d.
Proof.
  unfold store.
  destruct ((0 <=? idx) && (idx <? Z.of_nat (length d))); [|discriminate].
  intros [= <-]. apply length_insert.
Qed.

Lemma store_None (d : list Z) idx v :
  Z.of_nat (length d) <= idx -> store d idx v = None.
Proof.
  intros H. unfold store.
  destruct (Z.leb_spec 0 idx), (Z.ltb_spec idx (Z.of_nat (length d)));
    try reflexivity; lia.
Qed.

Lemma load_None (d : list Z) idx :
  Z.of_nat (length d) <= idx -> load d idx = None.
Proof.
  intros H. unfold load. destruct (Z.ltb_spec idx 0); [reflexivity|].
  apply lookup_ge_None_2. lia.
Qed.

(** Two row-major buffers of the same shape with the same pixel at every
    position are equal. *)
Lemma data_ext (x y : Image) :
  0 < width y -> width x = width y -> height x = height y ->
  Z.of_nat (length (data y)) = width y * height y ->
  length (data x) = length (data y) ->
  (forall row col, 0 <= row < height y -> 0 <= col < width y ->
     pixelAt x row col = pixelAt y row col) ->
  data x = data y.
Proof.
  intros Hwp Hw Hh Hlen HL H. apply list_eq. intros n.
  destruct (decide (n < length (data y))%nat) as [Hn|Hn].
  - set (i := Z.of_nat n / width y).
    set (j := Z.of_nat n mod width y).
    assert (Hj : 0 <= j < width y) by (apply Z.mod_pos_bound; lia).
    assert (Hn' : Z.of_nat n = i * width y + j).
    { subst i j. pose proof (Z.div_mod (Z.of_nat n) (width y)). lia. }
    assert (Hi : 0 <= i < height y) by nia.
    specialize (H i j Hi Hj).
    rewrite !pixelAt_lookup in H by lia.
    rewrite Hw, <- Hn', Nat2Z.id in H. exact H.
  - rewrite !lookup_ge_None_2 by lia. reflexivity.
Qed.

(** ** Squash beyond its contract *)

Lemma squash_cell_store_lin src out_w out_h xfac yfac i j (d : list Z) :
  wf_image src -> 0 < out_w -> out_w * out_h <= INT_MAX ->
  0 <= i < out_h -> 0 <= j < out_w ->
  0 <= xfac -> 0 <= yfac ->
  i * yfac * width src + j * xfac < width src * height src ->
  squash_cell src out_w xfac yfac i j d
  = store d (i * out_w + j)
      (default 0 (data src !! Z.to_nat (i * yfac * width src + j * xfac))).
Proof.
  intros Hwf Hw Hmax Hi Hj Hx Hy Hidx.
  pose proof Hwf as (Hwp & Hhp & Hsmax & _).
  pose proof (index_bound _ _ _ _ Hi Hj) as Hdst.
  assert (0 <= i * yfac) by nia. assert (0 <= j * xfac) by nia.
  assert (i * yfac <= i * yfac * width src) by nia.
  unfold squash_cell.
  rewrite (int_mul_Some i yfac) by (unfold INT_MIN; lia). bind_step.
  rewrite (int_mul_Some j xfac) by (unfold INT_MIN; lia). bind_step.
  rewrite (int_mul_Some (i * yfac)) by (unfold INT_MIN; lia). bind_step.
  rewrite (int_add_Some (i * yfac * width src))
    by (unfold INT_MIN; lia). bind_step.
  rewrite load_lookup by lia.
  destruct (wf_lookup src (i * yfac * width src + j * xfac) Hwf)
    as (p & -> & _); [lia|]. bind_step.
  rewrite (int_mul_Some i out_w) by (unfold INT_MIN; nia). bind_step.
  rewrite int_add_Some by (unfold INT_MIN; nia). bind_step.
  reflexivity.
Qed.

Lemma imgproc_squash_linear src dst xfac yfac :
  wf_image src -> wf_image dst -> 0 <= xfac -> 0 <= yfac ->
  (height dst - 1) * yfac * width src + (width dst - 1) * xfac
    < width src * height src ->
  exists out,
    imgproc_squash src dst xfac yfac = Some out /\
    width out = width dst /\ height out = height dst /\
    length (data out) = length (data dst) /\
    forall i j, 0 <= i < height dst -> 0 <= j < width dst ->
      exists p,
        pixelAt out i j = Some p /\ is_u32 p /\
        data src !! Z.to_nat (i * yfac * width src + j * xfac) = Some p.
Proof.
  intros Hwf Hwfd Hx Hy Hlast.
  pose proof Hwfd as (Hwp & Hhp & Hmax & Hlen & _).
  pose proof Hwf as (Hswp & Hshp & _).
  assert (Hidx : forall i j, 0 <= i < height dst -> 0 <= j < width dst ->
            0 <= i * yfac * width src + j * xfac < width src * height src).
  { intros i j Hi Hj.
    assert (i * yfac <= (height dst - 1) * yfac) by nia.
    assert (j * xfac <= (width dst - 1) * xfac) by nia.
    assert (0 <= i * yfac) by nia. assert (0 <= j * xfac) by nia.
    nia. }
  unfold imgproc_squash. cbv zeta.
  destruct (for_lt_fill2 (squash_cell src (width dst) xfac yfac)
    (fun i j =>
       default 0 (data src !! Z.to_nat (i * yfac * width src + j * xfac)))
    (height dst) (width dst) (data dst)) as (d & E & HL & HI);
    try nia.
  - intros i j e Hi Hj _.
    apply squash_cell_store_lin with (out_h := height dst);
      try assumption; try lia.
    apply Hidx; assumption.
  - rewrite E. bind_step. eexists. split; [reflexivity|]. cbn.
    repeat (split; [first [reflexivity | assumption]|]).
    intros i j Hi Hj.
    destruct (wf_lookup src _ Hwf (Hidx i j Hi Hj)) as (p & Hp & Hu).
    exists p. split; [|split; assumption].
    rewrite pixelAt_lookup by (cbn; assumption). cbn.
    rewrite HI, Hp by assumption. reflexivity.
Qed.

(** X9. Squash only needs the linear index of its last sample to lie
    within the source buffer: for non-negative factors it then completes
    and copies into destination [(i, j)] the source entry at linear index
    [i * yfac * width + j * xfac].  A sampled column at or beyond the source
    width is not detected: the entry read then belongs to a later row. *)
Theorem squash_linear_index src dst xfac yfac :
  wf_image src -> wf_image dst -> 0 <= xfac -> 0 <= yfac ->
  (height dst - 1) * yfac * width src + (width dst - 1) * xfac
    < width src * height src ->
  exists out,
    imgproc_squash src dst xfac yfac = Some out /\
    width out = width dst /\ height out = height dst /\
    forall i j, 0 <= i < height dst -> 0 <= j < width dst ->
      exists p,
        pixelAt out i j = Some p /\
        data src !! Z.to_nat (i * yfac * width src + j * xfac) = Some p /\
        (width src <= j * xfac ->
         pixelAt src (i * yfac + j * xfac / width src)
                     (j * xfac mod width src) = Some p).
Proof.
  intros Hwf Hwfd Hx Hy Hlast.
  destruct (imgproc_squash_linear src dst xfac yfac Hwf Hwfd Hx Hy Hlast)
    as (out & E & Hw & Hh & _ & H).
  exists out. repeat (split; [assumption|]).
  intros i j Hi Hj. destruct (H i j Hi Hj) as (p & Ho & _ & Hs).
  exists p. split; [assumption|]. split; [assumption|].
  intros _. pose proof Hwf as (Hwp & Hhp & _ & Hlen & _).
  set (c := j * xfac) in *. set (r := i * yfac) in *.
  assert (0 <= r) by (subst r; nia). assert (0 <= c) by (subst c; nia).
  assert (Hc : 0 <= c mod width src < width src)
    by (apply Z.mod_pos_bound; lia).
  assert (0 <= c / width src) by (apply Z.div_pos; lia).
  pose proof (Z.div_mod c (width src) ltac:(lia)) as Hdm.
  rewrite pixelAt_lookup; [| nia | assumption].
  replace ((r + c / width src) * width src + c mod width src)
    with (r * width src + c) by lia.
  assumption.
Qed.

Lemma squash_linear_index_witness :
  exists out p,
    imgproc_squash img4x4 (blank 3 2) 2 1 = Some out /\
    pixelAt out 0 2 = Some p /\ pixelAt img4x4 1 0 = Some p.
Proof.
  destruct (squash_linear_index img4x4 (blank 3 2) 2 1)
    as (out & E & _ & _ & H).
  - apply wf_image_check. vm_compute. reflexivity.
  - apply wf_image_check. vm_compute. reflexivity.
  - lia.
  - lia.
  - cbn. lia.
  - destruct (H 0 2) as (p & Ho & _ & Hs); [cbn; lia | cbn; lia |].
    exists out, p. split; [assumption|]. split; [assumption|].
    apply Hs. cbn. lia.
Defined.

(** X10. When the linear index of the last sample lies beyond the source
    buffer, squash reads outside the buffer: its behaviour is undefined and
    it yields no image. *)
Theorem squash_out_of_buffer src dst xfac yfac :
  wf_image src -> wf_image dst -> 0 <= xfac -> 0 <= yfac ->
  width src * height src
    <= (height dst - 1) * yfac * width src + (width dst - 1) * xfac ->
  imgproc_squash src dst xfac yfac = None.
Proof.
  intros Hwf Hwfd Hx Hy Hlast.
  pose proof Hwfd as (Hwp & Hhp & _).
  pose proof Hwf as (_ & _ & _ & Hlen & _).
  unfold imgproc_squash. cbv zeta.
  rewrite (for_lt_fail (fun _ => True) 0 (height dst) _ _ (height dst - 1));
    [reflexivity | lia | exact I | auto |].
  intros t _.
  apply (for_lt_fail (fun _ => True) 0 (width dst) _ _ (width dst - 1));
    [lia | exact I | auto |].
  intros u _. unfold squash_cell.
  destruct (int_mul (height dst - 1) yfac) as [r|] eqn:Er; [|reflexivity].
  apply int_chk_inv in Er as [-> _]. bind_step.
  destruct (int_mul (width dst - 1) xfac) as [c|] eqn:Ec; [|reflexivity].
  apply int_chk_inv in Ec as [-> _]. bind_step.
  destruct (int_mul ((height dst - 1) * yfac) (width src)) as [m|] eqn:Em;
    [|reflexivity].
  apply int_chk_inv in Em as [-> _]. bind_step.
  destruct (int_add ((height dst - 1) * yfac * width src)
              ((width dst - 1) * xfac)) as [idx|] eqn:Ei; [|reflexivity].
  apply int_chk_inv in Ei as [-> _]. bind_step.
  rewrite load_None by lia. reflexivity.
Qed.

Lemma squash_out_of_buffer_witness :
  imgproc_squash img4x4 (blank 2 2) 2 4 = None.
Proof.
  apply squash_out_of_buffer.
  - apply wf_image_check. vm_compute. reflexivity.
  - apply wf_image_check. vm_compute. reflexivity.
  - lia.
  - lia.
  - cbn. lia.
Defined.

(** ** Colour rotation into a short destination *)

(** X11. Colour rotation runs over the pixel count of the input, whatever
    the destination is: with a destination buffer shorter than the input it
    writes outside the buffer, so its behaviour is undefined and it yields
    no image. *)
Theorem color_rot_short_destination input_img output_img :
  wf_image input_img ->
  Z.of_nat (length (data output_img))
    < width input_img * height input_img ->
  imgproc_color_rot input_img output_img = None.
Proof.
  intros Hwf Hshort.
  pose proof Hwf as (Hwp & Hhp & Hmax & Hlen & _).
  unfold imgproc_color_rot.
  rewrite int_mul_Some by (unfold INT_MIN; nia). bind_step.
  rewrite (for_lt_fail
    (fun d => length d = length (data output_img)) 0 _ _ _
    (Z.of_nat (length (data output_img)))); [reflexivity | lia | reflexivity | |].
  - intros i t t' Ht E. unfold color_rot_cell in E.
    destruct (load (data input_img) i) as [p|]; [|discriminate].
    cbn [mbind option_bind] in E. apply store_length in E. congruence.
  - intros t Ht. unfold color_rot_cell.
    destruct (load (data input_img) _) as [p|]; [|reflexivity].
    bind_step. apply store_None. lia.
Qed.

Lemma color_rot_short_destination_witness :
  imgproc_color_rot img2x2 (blank 1 1) = None.
Proof.
  apply color_rot_short_destination.
  - apply wf_image_check. vm_compute. reflexivity.
  - vm_compute. reflexivity.
Defined.

(** ** Expand into other destinations *)

Lemma expand_spec_Some src row col :
  wf_image src ->
  0 <= row < 2 * height src -> 0 <= col < 2 * width src ->
  exists p, expand_spec src row col = Some p /\ is_u32 p.
Proof.
  intros Hwf Hrow Hcol. unfold expand_spec. cbv zeta.
  assert (Hr : 0 <= row / 2 < height src).
  { split; [apply Z.div_pos; lia | apply Z.div_lt_upper_bound; lia]. }
  assert (Hc : 0 <= col / 2 < width src).
  { split; [apply Z.div_pos; lia | apply Z.div_lt_upper_bound; lia]. }
  destruct (wf_pixelAt src _ _ Hwf Hr Hc) as (po & Hpo & Hu).
  rewrite Hpo. bind_step.
  destruct (Z.even row), (Z.even col);
    destruct (Z.leb_spec (width src) (col / 2 + 1)) as [Hre|Hre];
    destruct (Z.leb_spec (height src) (row / 2 + 1)) as [Hbe|Hbe];
    try (eexists; split; [reflexivity | assumption]);
    repeat match goal with
      | |- context [pixelAt src ?x ?y] =>
          let q := fresh "q" in
          let Hq := fresh "Hq" in
          destruct (wf_pixelAt src x y Hwf) as (q & Hq & _);
          [lia | lia | rewrite Hq; bind_step]
      end;
    eexists; (split; [reflexivity | apply average_pixel_is_u32]).
Qed.

Lemma expand_cell_store_le src dst i (d : list Z) :
  wf_image src -> wf_image dst ->
  width dst <= 2 * width src -> height dst <= 2 * height src ->
  0 <= i < width dst * height dst ->
  expand_cell src dst i d
  = store d i (default 0 (expand_spec src (i / width dst) (i mod width dst))).
Proof.
  intros Hwf Hwfd Hw Hh Hi.
  pose proof Hwf as (Hwp & Hhp & Hmax & _).
  pose proof Hwfd as (Hwpd & Hhpd & Hmaxd & _).
  unfold expand_cell, rowIndex, columnIndex.
  rewrite int_div_nonneg, int_rem_nonneg by lia. bind_step.
  set (row := i / width dst). set (col := i mod width dst).
  assert (Hcol : 0 <= col < width dst) by (apply Z.mod_pos_bound; lia).
  assert (Hrow : 0 <= row < height dst).
  { split; [apply Z.div_pos; lia | apply Z.div_lt_upper_bound; lia]. }
  rewrite !parity_rem by lia.
  rewrite !Z.quot_div_nonneg by lia.
  unfold expand_spec. cbv zeta.
  set (r := row / 2). set (c := col / 2).
  assert (Hr : 0 <= r < height src).
  { split; [apply Z.div_pos; lia | apply Z.div_lt_upper_bound; lia]. }
  assert (Hc : 0 <= c < width src).
  { split; [apply Z.div_pos; lia | apply Z.div_lt_upper_bound; lia]. }
  rewrite !Z.geb_leb.
  rewrite (getPixel_pixelAt src r c) by assumption.
  destruct (wf_pixelAt src r c Hwf Hr Hc) as (po & Hpo & _).
  rewrite Hpo. bind_step.
  destruct (Z.even row), (Z.even col); cbn [andb negb];
    destruct (Z.leb_spec (width src) (c + 1)) as [Hre|Hre];
    destruct (Z.leb_spec (height src) (r + 1)) as [Hbe|Hbe];
    cbn [andb negb]; try reflexivity;
    repeat match goal with
      | |- context [getPixel src ?x ?y] =>
          rewrite (getPixel_pixelAt src x y) by (assumption || lia);
          let q := fresh "q" in
          let Hq := fresh "Hq" in
          destruct (wf_pixelAt src x y Hwf) as (q & Hq & _);
          [lia | lia | rewrite Hq; bind_step]
      end;
    rewrite <- ?createAveragePixel_spec, <- ?quadAveragePixel_spec;
    reflexivity.
Qed.

Lemma imgproc_expand_data src dst :
  wf_image src -> wf_image dst ->
  width dst <= 2 * width src -> height dst <= 2 * height src ->
  exists out,
    imgproc_expand src dst = Some out /\
    width out = width dst /\ height out = height dst /\
    length (data out) = length (data dst) /\
    forall row col,
      0 <= row < height dst -> 0 <= col < width dst ->
      pixelAt out row col = expand_spec src row col.
Proof.
  intros Hwf Hwfd Hw Hh.
  pose proof Hwfd as (Hwpd & Hhpd & Hmaxd & Hlend & _).
  unfold imgproc_expand.
  rewrite int_mul_Some by (unfold INT_MIN; nia). bind_step.
  destruct (for_lt_fill (expand_cell src dst)
    (fun i => default 0 (expand_spec src (i / width dst) (i mod width dst)))
    (width dst * height dst) (data dst)) as (d & E & HL & HI);
    [nia | lia | |].
  - intros i e Hi _. apply expand_cell_store_le; assumption.
  - rewrite E. bind_step. eexists. split; [reflexivity|]. cbn.
    repeat (split; [first [reflexivity | assumption]|]).
    intros row col Hrow Hcol.
    rewrite pixelAt_lookup by (cbn; lia). cbn.
    rewrite HI by (apply index_bound; lia).
    rewrite index_div, index_mod by lia.
    destruct (expand_spec_Some src row col Hwf) as (p & -> & _);
      [lia | lia | reflexivity].
Qed.

(** X12. Expand also works into a destination smaller than twice the
    source: for any destination of at most [2n] rows and [2m] columns it
    completes and fills the destination with the top-left part of the full
    expansion, every pixel being the one the parity and edge dispatch
    gives for its coordinates. *)
Theorem expand_into_smaller src dst :
  wf_image src -> wf_image dst ->
  width dst <= 2 * width src -> height dst <= 2 * height src ->
  exists out,
    imgproc_expand src dst = Some out /\
    width out = width dst /\ height out = height dst /\
    forall row col,
      0 <= row < height dst -> 0 <= col < width dst ->
      exists p,
        pixelAt out row col = Some p /\ expand_spec src row col = Some p.
Proof.
  intros Hwf Hwfd Hw Hh.
  destruct (imgproc_expand_data src dst Hwf Hwfd Hw Hh)
    as (out & E & Hw' & Hh' & _ & H).
  exists out. repeat (split; [assumption|]).
  intros row col Hr Hc.
  destruct (expand_spec_Some src row col Hwf) as (p & Hp & _); [lia | lia |].
  exists p. rewrite H by assumption. auto.
Qed.

Lemma expand_into_smaller_witness :
  exists out p,
    imgproc_expand img2x2 (blank 3 3) = Some out /\
    pixelAt out 2 1 = Some p /\ expand_spec img2x2 2 1 = Some p.
Proof.
  destruct (expand_into_smaller img2x2 (blank 3 3)) as (out & E & _ & _ & H).
  - apply wf_image_check. vm_compute. reflexivity.
  - apply wf_image_check. vm_compute. reflexivity.
  - cbn. lia.
  - cbn. lia.
  - destruct (H 2 1) as (p & Hp); [cbn; lia | cbn; lia |].
    exists out, p. split; [assumption | exact Hp].
Defined.

(** X13. Expand reads the top-left source pixel of every destination
    pixel without a bounds check: into a destination of more than [2n]
    rows it reads beyond the source buffer, so its behaviour is undefined
    and it yields no image. *)
Theorem expand_too_tall src dst :
  wf_image src -> wf_image dst ->
  2 * height src < height dst ->
  imgproc_expand src dst = None.
Proof.
  intros Hwf Hwfd Hh.
  pose proof Hwf as (Hwp & Hhp & Hmax & Hlen & _).
  pose proof Hwfd as (Hwpd & Hhpd & Hmaxd & _).
  unfold imgproc_expand.
  rewrite int_mul_Some by (unfold INT_MIN; nia). bind_step.
  rewrite (for_lt_fail (fun _ => True) 0 _ _ _
             (2 * height src * width dst + 0));
    [reflexivity | nia | exact I | auto |].
  intros t _. unfold expand_cell, rowIndex, columnIndex.
  rewrite int_div_nonneg, int_rem_nonneg by nia.
  rewrite index_div, index_mod by lia. bind_step.
  replace (Z.quot (2 * height src) 2) with (height src)
    by (rewrite Z.mul_comm, Z.quot_mul; lia).
  change (Z.quot 0 2) with 0.
  assert (Hread : getPixel src (height src) 0 = None).
  { unfold getPixel.
    rewrite int_mul_Some by (unfold INT_MIN; nia). bind_step.
    rewrite int_add_Some by (unfold INT_MIN; nia). bind_step.
    apply load_None. lia. }
  rewrite Hread. reflexivity.
Qed.

Lemma expand_too_tall_witness :
  imgproc_expand img2x2 (blank 4 5) = None.
Proof.
  apply expand_too_tall.
  - apply wf_image_check. vm_compute. reflexivity.
  - apply wf_image_check. vm_compute. reflexivity.
  - cbn. lia.
Defined.

(** ** What the transforms keep *)

Lemma image_eq (x y : Image) :
  width x = width y -> height x = height y -> data x = data y -> x = y.
Proof. destruct x, y. cbn. intros -> -> ->. reflexivity. Qed.

Lemma wf_from_pixels out w h :
  0 < w -> 0 < h -> w * h <= INT_MAX ->
  width out = w -> height out = h ->
  Z.of_nat (length (data out)) = w * h ->
  (forall row col, 0 <= row < h -> 0 <= col < w ->
     exists p, pixelAt out row col = Some p /\ is_u32 p) ->
  wf_image out.
Proof.
  intros Hw Hh Hmax Ew Eh Hlen H. unfold wf_image. rewrite Ew, Eh.
  repeat (split; [assumption|]).
  apply Forall_lookup. intros n x Hx.
  pose proof (lookup_lt_Some _ _ _ Hx) as Hn.
  set (i := Z.of_nat n / w). set (j := Z.of_nat n mod w).
  assert (Hj : 0 <= j < w) by (apply Z.mod_pos_bound; lia).
  assert (Hn' : Z.of_nat n = i * w + j).
  { subst i j. pose proof (Z.div_mod (Z.of_nat n) w). lia. }
  assert (Hi : 0 <= i < h) by nia.
  destruct (H i j Hi Hj) as (p & Hp & Hu).
  rewrite pixelAt_lookup in Hp by lia.
  rewrite Ew, <- Hn', Nat2Z.id in Hp. congruence.
Qed.

Lemma createPixel_is_u32_alpha cr cg cb ca :
  0 <= ca <= 255 -> is_u32 (createPixel cr cg cb ca).
Proof.
  intros Ha.
  assert (E : createPixel cr cg cb ca = u32 (createPixel cr cg cb ca)).
  { unfold createPixel. bitblast. }
  rewrite E. apply u32_is_u32.
Qed.

Lemma blur_result_is_u32 img d row col p :
  pixelAt img row col = Some p ->
  exists q, blur_result img d row col = Some q /\ is_u32 q.
Proof.
  intros Hp. unfold blur_result. rewrite Hp. bind_step. cbv zeta.
  eexists. split; [reflexivity|].
  apply createPixel_is_u32_alpha, getAlpha_range.
Qed.

Lemma imgproc_blur_wf src d out :
  wf_image src -> width out = width src -> height out = height src ->
  length (data out) = length (data src) ->
  (forall row col, 0 <= row < height src -> 0 <= col < width src ->
     pixelAt out row col = blur_result src d row col) ->
  wf_image out.
Proof.
  intros Hwf Hw Hh HL H.
  pose proof Hwf as (Hwp & Hhp & Hmax & Hlen & _).
  apply (wf_from_pixels out (width src) (height src)); try assumption; [lia|].
  intros row col Hr Hc. rewrite H by assumption.
  destruct (wf_pixelAt src row col Hwf Hr Hc) as (p & Hp & _).
  apply (blur_result_is_u32 src d row col p Hp).
Qed.

Lemma imgproc_expand_wf src dst out :
  wf_image src -> wf_image dst ->
  width dst <= 2 * width src -> height dst <= 2 * height src ->
  width out = width dst -> height out = height dst ->
  length (data out) = length (data dst) ->
  (forall row col, 0 <= row < height dst -> 0 <= col < width dst ->
     pixelAt out row col = expand_spec src row col) ->
  wf_image out.
Proof.
  intros Hwf Hwfd Hw Hh Ew Eh HL H.
  pose proof Hwfd as (Hwp & Hhp & Hmax & Hlen & _).
  apply (wf_from_pixels out (width dst) (height dst)); try assumption; [lia|].
  intros row col Hr Hc. rewrite H by assumption.
  apply expand_spec_Some; [assumption | lia | lia].
Qed.

(** X14. Every transform that completes leaves a well-formed image in the
    destination: the dimensions of the destination, a buffer of its pixel
    count, and 32-bit pixels only, whatever the destination held before
    (for colour rotation and blur) and for every input within the
    preconditions of the transform. *)
Theorem transforms_keep_wf src dst d xfac yfac :
  wf_image src ->
  (has_dims dst (width src) (height src) ->
   exists out, imgproc_color_rot src dst = Some out /\ wf_image out) /\
  (has_dims dst (width src) (height src) -> blur_in_range src d ->
   exists out, imgproc_blur src dst d = Some out /\ wf_image out) /\
  (wf_image dst -> 0 <= xfac -> 0 <= yfac ->
   (height dst - 1) * yfac * width src + (width dst - 1) * xfac
     < width src * height src ->
   exists out, imgproc_squash src dst xfac yfac = Some out /\ wf_image out) /\
  (wf_image dst ->
   width dst <= 2 * width src -> height dst <= 2 * height src ->
   exists out, imgproc_expand src dst = Some out /\ wf_image out).
Proof.
  intros Hwf. split; [|split; [|split]].
  - intros Hd.
    destruct (imgproc_color_rot_data src dst Hwf Hd) as (out & E & Hw & Hh & D).
    exists out. split; [assumption|].
    apply (imgproc_color_rot_wf src out); assumption.
  - intros Hd Hr.
    destruct (imgproc_blur_data src dst d Hwf Hd Hr)
      as (out & E & Hw & Hh & HL & H).
    exists out. split; [assumption|].
    apply (imgproc_blur_wf src d out); assumption.
  - intros Hwfd Hx Hy Hlast.
    destruct (imgproc_squash_linear src dst xfac yfac Hwf Hwfd Hx Hy Hlast)
      as (out & E & Hw & Hh & HL & H).
    exists out. split; [assumption|].
    pose proof Hwfd as (Hwp & Hhp & Hmax & Hlen & _).
    apply (wf_from_pixels out (width dst) (height dst));
      try assumption; [lia|].
    intros row col Hr Hc. destruct (H row col Hr Hc) as (p & Hp & Hu & _).
    eauto.
  - intros Hwfd Hw Hh.
    destruct (imgproc_expand_data src dst Hwf Hwfd Hw Hh)
      as (out & E & Ew & Eh & HL & H).
    exists out. split; [assumption|].
    apply (imgproc_expand_wf src dst out); assumption.
Qed.

Lemma transforms_keep_wf_witness :
  (exists out, imgproc_color_rot img2x2 (blank 2 2) = Some out /\
               wf_image out) /\
  (exists out, imgproc_blur img2x2 (blank 2 2) 1 = Some out /\
               wf_image out) /\
  (exists out, imgproc_squash img2x2 (blank 2 2) 1 1 = Some out /\
               wf_image out) /\
  (exists out, imgproc_expand img2x2 (blank 2 2) = Some out /\
               wf_image out).
Proof.
  assert (W : wf_image img2x2)
    by (apply wf_image_check; vm_compute; reflexivity).
  assert (B : wf_image (blank 2 2))
    by (apply wf_image_check; vm_compute; reflexivity).
  assert (D : has_dims (blank 2 2) (width img2x2) (height img2x2))
    by (vm_compute; auto).
  destruct (transforms_keep_wf img2x2 (blank 2 2) 1 1 1 W)
    as (H1 & H2 & H3 & H4).
  split; [apply H1; exact D|].
  split; [apply H2; [exact D | unfold blur_in_range, INT_MAX; cbn; lia]|].
  split; [apply H3; [exact B | lia | lia | cbn; lia]|].
  apply H4; [exact B | cbn; lia | cbn; lia].
Defined.

(** X15. No transform lets the previous contents of the destination show
    in its result: two destinations of the same dimensions give the same
    output image, for colour rotation, blur, squash and expand alike. *)
Theorem output_ignores_destination src dst1 dst2 d xfac yfac :
  wf_image src ->
  width dst1 = width dst2 -> height dst1 = height dst2 ->
  (has_dims dst1 (width src) (height src) ->
   has_dims dst2 (width src) (height src) ->
   imgproc_color_rot src dst1 = imgproc_color_rot src dst2 /\
   (blur_in_range src d ->
    imgproc_blur src dst1 d = imgproc_blur src dst2 d)) /\
  (wf_image dst1 -> wf_image dst2 ->
   (0 <= xfac -> 0 <= yfac ->
    (height dst1 - 1) * yfac * width src + (width dst1 - 1) * xfac
      < width src * height src ->
    imgproc_squash src dst1 xfac yfac = imgproc_squash src dst2 xfac yfac) /\
   (width dst1 <= 2 * width src -> height dst1 <= 2 * height src ->
    imgproc_expand src dst1 = imgproc_expand src dst2)).
Proof.
  intros Hwf Ew Eh. pose proof Hwf as (Hwp & Hhp & Hmax & Hlen & _).
  split.
  - intros H1 H2. split.
    + destruct (imgproc_color_rot_data src dst1 Hwf H1)
        as (o1 & -> & W1 & T1 & D1).
      destruct (imgproc_color_rot_data src dst2 Hwf H2)
        as (o2 & -> & W2 & T2 & D2).
      f_equal. apply image_eq; congruence.
    + intros Hr.
      destruct (imgproc_blur_data src dst1 d Hwf H1 Hr)
        as (o1 & -> & W1 & T1 & L1 & P1).
      destruct (imgproc_blur_data src dst2 d Hwf H2 Hr)
        as (o2 & -> & W2 & T2 & L2 & P2).
      f_equal. apply image_eq; try congruence.
      apply data_ext; try congruence; try lia.
      intros row col Hrow Hcol.
      rewrite T2 in Hrow. rewrite W2 in Hcol.
      rewrite P1, P2 by assumption. reflexivity.
  - intros Hd1 Hd2.
    pose proof Hd2 as (Hwp2 & Hhp2 & Hmax2 & Hlen2 & _).
    pose proof Hd1 as (_ & _ & _ & Hlen1 & _).
    split.
    + intros Hx Hy Hlast.
      destruct (imgproc_squash_linear src dst1 xfac yfac Hwf Hd1 Hx Hy Hlast)
        as (o1 & -> & W1 & T1 & L1 & P1).
      rewrite Ew, Eh in Hlast.
      destruct (imgproc_squash_linear src dst2 xfac yfac Hwf Hd2 Hx Hy Hlast)
        as (o2 & -> & W2 & T2 & L2 & P2).
      f_equal. apply image_eq; try congruence.
      apply data_ext; try congruence; try lia.
      intros row col Hrow Hcol.
      rewrite T2 in Hrow. rewrite W2 in Hcol.
      destruct (P1 row col) as (p & -> & _ & S1); [lia | lia |].
      destruct (P2 row col) as (q & -> & _ & S2); [lia | lia |].
      congruence.
    + intros Hw Hh.
      destruct (imgproc_expand_data src dst1 Hwf Hd1 Hw Hh)
        as (o1 & -> & W1 & T1 & L1 & P1).
      rewrite Ew in Hw. rewrite Eh in Hh.
      destruct (imgproc_expand_data src dst2 Hwf Hd2 Hw Hh)
        as (o2 & -> & W2 & T2 & L2 & P2).
      f_equal. apply image_eq; try congruence.
      apply data_ext; try congruence; try lia.
      intros row col Hrow Hcol.
      rewrite T2 in Hrow. rewrite W2 in Hcol.
      rewrite P1, P2 by lia. reflexivity.
Qed.

Lemma output_ignores_destination_witness :
  imgproc_blur img2x2 (blank 2 2) 1 = imgproc_blur img2x2 img2x2 1 /\
  imgproc_expand img2x2 (blank 2 2) = imgproc_expand img2x2 img2x2.
Proof.
  assert (W : wf_image img2x2)
    by (apply wf_image_check; vm_compute; reflexivity).
  assert (B : wf_image (blank 2 2))
    by (apply wf_image_check; vm_compute; reflexivity).
  destruct (output_ignores_destination img2x2 (blank 2 2) img2x2 1 1 1 W
              eq_refl eq_refl) as (H1 & H2).
  split.
  - apply H1; [vm_compute; auto | vm_compute; auto |].
    unfold blur_in_range, INT_MAX. cbn. lia.
  - apply (H2 B W); cbn; lia.
Defined.

(** ** Expand followed by squash *)

Lemma expand_spec_even src i j :
  expand_spec src (i * 2) (j * 2) = pixelAt src i j.
Proof.
  unfold expand_spec. cbv zeta.
  rewrite !Z.div_mul by lia.
  rewrite !Z.even_mul. cbn. rewrite !orb_true_r. reflexivity.
Qed.

(** X16. Expanding an image and squashing the result by 2 in both
    directions gives back the image, pixel for pixel: the pixels expand
    puts at even rows and columns are exact copies, and those are the ones
    squash samples. *)
Theorem squash_expand_roundtrip src big small :
  wf_image src -> wf_image big -> wf_image small ->
  width big = 2 * width src -> height big = 2 * height src ->
  width small = width src -> height small = height src ->
  exists expanded out,
    imgproc_expand src big = Some expanded /\
    imgproc_squash expanded small 2 2 = Some out /\
    same_image out src.
Proof.
  intros Hwf Hwfb Hwfs Wb Hb Ws Hs.
  pose proof Hwf as (Hwp & Hhp & Hmax & Hlen & _).
  destruct (imgproc_expand_data src big Hwf Hwfb) as
    (ex & E & We & He & Le & Pe); [lia | lia |].
  assert (Hwfe : wf_image ex).
  { apply (imgproc_expand_wf src big ex); try assumption; lia. }
  destruct (imgproc_squash_samples ex small 2 2 Hwfe Hwfs)
    as (out & E' & Wo & Ho & Lo & Po); [lia | lia | |].
  { intros i j Hi Hj. lia. }
  exists ex, out. split; [assumption|]. split; [assumption|].
  pose proof Hwfs as (_ & _ & _ & Hlens & _).
  split; [congruence|]. split; [congruence|].
  apply data_ext; try congruence; try lia.
  intros row col Hrow Hcol.
  destruct (Po row col) as (p & -> & Hp); [lia | lia |].
  rewrite Pe, expand_spec_even in Hp by lia. congruence.
Qed.

Lemma squash_expand_roundtrip_witness :
  exists expanded out,
    imgproc_expand img2x2 (blank 4 4) = Some expanded /\
    imgproc_squash expanded (blank 2 2) 2 2 = Some out /\
    same_image out img2x2.
Proof.
  apply squash_expand_roundtrip;
    try (apply wf_image_check; vm_compute; reflexivity); reflexivity.
Defined.

(** ** Uniform images *)

Lemma uniform_pixelAt img p row col q :
  Forall (eq p) (data img) -> pixelAt img row col = Some q -> q = p.
Proof.
  intros Hall Hq. unfold pixelAt in Hq.
  destruct ((0 <=? row) && (row <? height img) && (0 <=? col)
            && (col <? width img)); [|discriminate].
  rewrite Forall_lookup in Hall. symmetry. eapply Hall, Hq.
Qed.

Lemma window_pixels_elem img d i j q :
  q ∈ window_pixels img d i j -> exists x y, pixelAt img x y = Some q.
Proof.
  unfold window_pixels, row_pixels. intros H.
  apply list_elem_of_bind in H as (x & H & _).
  apply list_elem_of_bind in H as (y & H & _).
  exists x, y. destruct (pixelAt img x y) as [p|]; cbn in H.
  - apply list_elem_of_singleton in H. congruence.
  - inversion H.
Qed.

Lemma expand_spec_uniform src p row col :
  wf_image src -> is_u32 p -> Forall (eq p) (data src) ->
  0 <= row < 2 * height src -> 0 <= col < 2 * width src ->
  expand_spec src row col = Some p.
Proof.
  intros Hwf Hu Hall Hrow Hcol. unfold expand_spec. cbv zeta.
  assert (Hr : 0 <= row / 2 < height src).
  { split; [apply Z.div_pos; lia | apply Z.div_lt_upper_bound; lia]. }
  assert (Hc : 0 <= col / 2 < width src).
  { split; [apply Z.div_pos; lia | apply Z.div_lt_upper_bound; lia]. }
  pose proof (average_pixel_replicate 1 p Hu) as E2.
  pose proof (average_pixel_replicate 3 p Hu) as E4.
  cbn [replicate] in E2, E4.
  destruct (Z.even row), (Z.even col);
    destruct (Z.leb_spec (width src) (col / 2 + 1)) as [Hre|Hre];
    destruct (Z.leb_spec (height src) (row / 2 + 1)) as [Hbe|Hbe];
    repeat match goal with
      | |- context [pixelAt src ?x ?y] =>
          let q := fresh "q" in
          let Hq := fresh "Hq" in
          destruct (wf_pixelAt src x y Hwf) as (q & Hq & _);
          [lia | lia |];
          rewrite Hq; apply (uniform_pixelAt src p) in Hq; [|assumption];
          subst q; bind_step
      end;
    rewrite ?E2, ?E4; reflexivity.
Qed.

(** X17. Expanding an image all of whose pixels are one and the same pixel
    gives an image all of whose pixels are that pixel: at the edges and in
    the interior alike the averages of equal pixels lose nothing to
    truncation. *)
Theorem expand_uniform src dst p :
  wf_image src -> wf_image dst ->
  width dst = 2 * width src -> height dst = 2 * height src ->
  Forall (eq p) (data src) ->
  exists out,
    imgproc_expand src dst = Some out /\ Forall (eq p) (data out).
Proof.
  intros Hwf Hwfd Hw Hh Hall.
  pose proof Hwf as (Hwp & Hhp & Hmax & Hlen & Hu32).
  pose proof Hwfd as (Hwpd & Hhpd & Hmaxd & Hlend & _).
  assert (Hu : is_u32 p).
  { destruct (wf_pixelAt src 0 0 Hwf) as (q & Hq & Hu); [lia | lia |].
    apply (uniform_pixelAt src p) in Hq; [|assumption]. congruence. }
  destruct (imgproc_expand_data src dst Hwf Hwfd)
    as (out & E & Ew & Eh & HL & H); [lia | lia |].
  exists out. split; [assumption|].
  apply Forall_lookup. intros n x Hx.
  pose proof (lookup_lt_Some _ _ _ Hx) as Hn.
  set (i := Z.of_nat n / width dst). set (j := Z.of_nat n mod width dst).
  assert (Hj : 0 <= j < width dst) by (apply Z.mod_pos_bound; lia).
  assert (Hn' : Z.of_nat n = i * width dst + j).
  { subst i j. pose proof (Z.div_mod (Z.of_nat n) (width dst)). lia. }
  assert (Hi : 0 <= i < height dst) by nia.
  specialize (H i j Hi Hj).
  rewrite (expand_spec_uniform src p) in H by (assumption || lia).
  rewrite pixelAt_lookup in H by lia.
  rewrite Ew, <- Hn', Nat2Z.id in H. congruence.
Qed.

Lemma expand_uniform_witness :
  exists out,
    imgproc_expand (mkImage 2 1 [4278190335; 4278190335]) (blank 4 2)
      = Some out /\
    Forall (eq 4278190335) (data out).
Proof.
  apply expand_uniform.
  - apply wf_image_check. vm_compute. reflexivity.
  - apply wf_image_check. vm_compute. reflexivity.
  - reflexivity.
  - reflexivity.
  - repeat constructor.
Defined.

Lemma blur_spec_uniform img d p row col :
  wf_image img -> blur_in_range img d -> Forall (eq p) (data img) ->
  0 <= row < height img -> 0 <= col < width img ->
  blur_spec img d row col = Some p.
Proof.
  intros Hwf Hrange Hall Hr Hc. unfold blur_spec.
  destruct (wf_pixelAt img row col Hwf Hr Hc) as (q & Hq & Hu).
  rewrite Hq. bind_step. cbv zeta.
  apply (uniform_pixelAt img p) in Hq; [|assumption]. subst q.
  set (w := window_pixels img d row col).
  assert (Hw : exists n, w = replicate (S n) p).
  { pose proof (window_pixels_nonempty img d row col Hwf Hrange Hr Hc) as Hn.
    fold w in Hn.
    assert (Hf : Forall (eq p) w).
    { apply Forall_forall. intros x Hx.
      apply window_pixels_elem in Hx as (a & b & Hx).
      symmetry. eapply uniform_pixelAt; eassumption. }
    exists (Nat.pred (length w)).
    symmetry. apply replicate_as_Forall. split; [lia | assumption]. }
  destruct Hw as [n ->].
  pose proof (average_pixel_replicate n p Hu) as E.
  unfold average_pixel in E.
  assert (Ea : channel_avg getAlpha (replicate (S n) p) = getAlpha p).
  { unfold channel_avg.
    rewrite sumZ_fmap_replicate, length_replicate, quot_mul_l by lia.
    reflexivity. }
  rewrite Ea in E. rewrite E. reflexivity.
Qed.

(** X18. Blurring an image all of whose pixels are one and the same pixel
    reproduces the image, for every blur distance within the range
    preconditions whose window sums fit an [int]: the clamped window
    biases no edge or corner. *)
Theorem blur_uniform src dst d p :
  wf_image src -> has_dims dst (width src) (height src) ->
  blur_in_range src d -> 255 * window_cap src d <= INT_MAX ->
  Forall (eq p) (data src) ->
  exists out, imgproc_blur src dst d = Some out /\ same_image out src.
Proof.
  intros Hwf Hd Hrange Hcap Hall.
  pose proof Hwf as (Hwp & Hhp & Hmax & Hlen & _).
  destruct (imgproc_blur_data src dst d Hwf Hd Hrange)
    as (out & E & Ew & Eh & HL & H).
  exists out. split; [assumption|].
  split; [assumption|]. split; [assumption|].
  apply data_ext; try assumption.
  intros row col Hr Hc. rewrite H by assumption.
  destruct (wf_pixelAt src row col Hwf Hr Hc) as (q & Hq & _).
  destruct (blur_result_channels src d row col q Hq) as (o & -> & _ & Hch).
  destruct Hch as (_ & _ & _ & Hs).
  { apply sums_fit_cap; [|assumption].
    apply (blur_scan_spec src d row col Hwf Hrange Hr Hc). }
  rewrite (blur_spec_uniform src d p) in Hs by assumption.
  rewrite Hq. apply (uniform_pixelAt src p) in Hq; [|assumption].
  congruence.
Qed.

Lemma blur_uniform_witness :
  exists out,
    imgproc_blur img3x3_zero (blank 3 3) 1 = Some out /\
    same_image out img3x3_zero.
Proof.
  apply (blur_uniform img3x3_zero (blank 3 3) 1 0).
  - apply wf_image_check. vm_compute. reflexivity.
  - vm_compute. auto.
  - unfold blur_in_range, INT_MAX. cbn. lia.
  - vm_compute. discriminate.
  - repeat constructor.
Defined.

(** ** Blur distances below zero *)

(** X19. With a negative blur distance no window cell is scanned, the
    count stays 0 and the averages divide by zero (and [-blur_dist] itself
    overflows for [INT_MIN]): the behaviour of blur is undefined and it
    yields no image. *)
Theorem blur_negative_distance src dst d :
  wf_image src -> d < 0 -> imgproc_blur src dst d = None.
Proof.
  intros Hwf Hd. pose proof Hwf as (Hwp & Hhp & Hmax & Hlen & _).
  unfold imgproc_blur. cbv zeta.
  rewrite (for_lt_fail (fun _ => True) 0 (height src) _ _ 0);
    [reflexivity | lia | exact I | auto |].
  intros t _.
  apply (for_lt_fail (fun _ => True) 0 (width src) _ _ 0);
    [lia | exact I | auto |].
  intros u _. unfold blur_pixel, blur_scan.
  destruct (int_neg d) as [lo|] eqn:Hlo; [|reflexivity].
  apply int_chk_inv in Hlo as [-> _]. bind_step.
  unfold for_le at 1.
  replace (Z.to_nat (d + 1 - - d)) with 0%nat by lia.
  cbn [iter]. bind_step.
  change (int_mul 0 (width src)) with (Some 0). bind_step.
  change (int_add 0 0) with (Some 0). bind_step.
  destruct (load (data src) 0) as [p|]; [|reflexivity].
  bind_step. reflexivity.
Qed.

Lemma blur_negative_distance_witness :
  imgproc_blur img2x2 (blank 2 2) (-1) = None.
Proof.
  apply blur_negative_distance.
  - apply wf_image_check. vm_compute. reflexivity.
  - lia.
Defined.

(** ** The size of a window *)

Lemma option_list_length_pixelAt img x y :
  wf_image img -> 0 <= x < height img ->
  Z.of_nat (length (option_list (pixelAt img x y)))
  = if (0 <=? y) && (y <? width img) then 1 else 0.
Proof.
  intros Hwf Hx.
  destruct (Z.leb_spec 0 y), (Z.ltb_spec y (width img)); cbn [andb].
  - destruct (wf_pixelAt img x y Hwf Hx) as (p & -> & _); [lia|].
    reflexivity.
  - rewrite pixelAt_None by lia. reflexivity.
  - rewrite pixelAt_None by lia. reflexivity.
  - rewrite pixelAt_None by lia. reflexivity.
Qed.

Lemma cols_length img x a (n : nat) :
  wf_image img -> 0 <= x < height img ->
  Z.of_nat (length (y ← seqZ a (Z.of_nat n);
                    option_list (pixelAt img x y)))
  = Z.max 0 (Z.min (a + Z.of_nat n) (width img) - Z.max a 0).
Proof.
  intros Hwf Hx. pose proof Hwf as (Hwp & _).
  induction n as [|n IH].
  { change (seqZ a (Z.of_nat 0)) with (@nil Z).
    change (Z.of_nat 0) with 0. cbn [mbind list_bind mjoin list_join fmap
      list_fmap foldr length]. change (Z.of_nat 0) with 0. lia. }
  rewrite seqZ_S, bind_app, length_app, Nat2Z.inj_add, IH.
  change ([a + Z.of_nat n] ≫= (fun y => option_list (pixelAt img x y)))
    with (option_list (pixelAt img x (a + Z.of_nat n)) ++ []).
  rewrite app_nil_r, option_list_length_pixelAt by assumption.
  destruct (Z.leb_spec 0 (a + Z.of_nat n)),
    (Z.ltb_spec (a + Z.of_nat n) (width img)); cbn [andb]; lia.
Qed.

Lemma rows_length img d j b (m : nat) :
  wf_image img ->
  Z.of_nat (length (x ← seqZ b (Z.of_nat m); row_pixels img d x j))
  = Z.max 0 (Z.min (b + Z.of_nat m) (height img) - Z.max b 0)
    * Z.max 0 (Z.min (j - d + (2 * d + 1)) (width img) - Z.max (j - d) 0).
Proof.
  intros Hwf. pose proof Hwf as (Hwp & Hhp & _).
  set (C := Z.max 0 (Z.min (j - d + (2 * d + 1)) (width img)
                     - Z.max (j - d) 0)).
  induction m as [|m IH].
  { change (seqZ b (Z.of_nat 0)) with (@nil Z).
    change (Z.of_nat 0) with 0. cbn [mbind list_bind mjoin list_join fmap
      list_fmap foldr length]. change (Z.of_nat 0) with 0. lia. }
  rewrite seqZ_S, bind_app, length_app, Nat2Z.inj_add, IH.
  change ([b + Z.of_nat m] ≫= (fun x => row_pixels img d x j))
    with (row_pixels img d (b + Z.of_nat m) j ++ []).
  rewrite app_nil_r.
  destruct (decide (0 <= b + Z.of_nat m < height img)) as [Hx|Hx].
  - unfold row_pixels.
    destruct (Z.le_gt_cases 0 (2 * d + 1)) as [Hd|Hd].
    + rewrite <- (Z2Nat.id (2 * d + 1)) at 1 by lia.
      rewrite cols_length by assumption.
      rewrite Z2Nat.id by lia. fold C. nia.
    + replace (seqZ (j - d) (2 * d + 1)) with (@nil Z).
      * cbn. subst C. nia.
      * unfold seqZ. replace (Z.to_nat (2 * d + 1)) with 0%nat by lia.
        reflexivity.
  - unfold row_pixels. rewrite row_out_nil by assumption. cbn [length].
    nia.
Qed.

(** X20. When blur completes, the count that divides the sums of the
    output pixel [(i, j)] is the number of window rows inside the image
    times the number of window columns inside the image: the window is
    clamped to the image on each side separately. *)
Theorem blur_window_count img d i j :
  wf_image img -> blur_in_range img d ->
  0 <= i < height img -> 0 <= j < width img ->
  exists acc,
    blur_scan img (height img) (width img) d i j = Some acc /\
    total acc
    = (Z.min (i + d) (height img - 1) - Z.max (i - d) 0 + 1)
      * (Z.min (j + d) (width img - 1) - Z.max (j - d) 0 + 1).
Proof.
  intros Hwf Hrange Hi Hj.
  destruct (blur_scan_spec img d i j Hwf Hrange Hi Hj) as [E _].
  eexists. split; [exact E|].
  rewrite foldl_acc_add_int_total. cbn [total]. rewrite Z.add_0_l.
  destruct Hrange as ((Hd & _) & _).
  unfold window_pixels.
  rewrite <- (Z2Nat.id (2 * d + 1)) at 1 by lia.
  rewrite rows_length by assumption.
  rewrite Z2Nat.id by lia.
  f_equal; lia.
Qed.

Lemma blur_window_count_witness :
  exists acc,
    blur_scan img3x3_zero (height img3x3_zero) (width img3x3_zero) 1 0 1
      = Some acc /\
    total acc
    = (Z.min (0 + 1) (height img3x3_zero - 1) - Z.max (0 - 1) 0 + 1)
      * (Z.min (1 + 1) (width img3x3_zero - 1) - Z.max (1 - 1) 0 + 1).
Proof.
  apply blur_window_count.
  - apply wf_image_check. vm_compute. reflexivity.
  - unfold blur_in_range, INT_MAX. cbn. lia.
  - cbn. lia.
  - cbn. lia.
Defined.

(** ** A window that covers the image *)

Lemma row_pixels_whole img d x j :
  0 <= j < width img -> j <= d -> width img - 1 - j <= d ->
  row_pixels img d x j
  = (y ← seqZ 0 (width img); option_list (pixelAt img x y)).
Proof.
  intros Hj Hl Hr. unfold row_pixels.
  replace (2 * d + 1)
    with ((d - j) + (width img + (d + j + 1 - width img))) by lia.
  rewrite !seqZ_app, !bind_app by lia.
  rewrite (cols_out_nil img x (seqZ (j - d) (d - j))).
  2:{ apply Forall_forall. intros y Hy. apply elem_of_seqZ in Hy. lia. }
  rewrite (cols_out_nil img x
             (seqZ (j - d + (d - j) + width img) (d + j + 1 - width img))).
  2:{ apply Forall_forall. intros y Hy. apply elem_of_seqZ in Hy. lia. }
  replace (j - d + (d - j)) with 0 by lia.
  rewrite app_nil_r. reflexivity.
Qed.

Lemma window_pixels_whole img d i j :
  0 <= i < height img -> 0 <= j < width img ->
  i <= d -> j <= d -> height img - 1 - i <= d -> width img - 1 - j <= d ->
  window_pixels img d i j
  = (x ← seqZ 0 (height img); y ← seqZ 0 (width img);
     option_list (pixelAt img x y)).
Proof.
  intros Hi Hj Hu Hl Hd Hr. unfold window_pixels.
  replace (2 * d + 1)
    with ((d - i) + (height img + (d + i + 1 - height img))) by lia.
  rewrite !seqZ_app, !bind_app by lia.
  rewrite (rows_out_nil img d j (seqZ (i - d) (d - i))).
  2:{ apply Forall_forall. intros x Hx. apply elem_of_seqZ in Hx. lia. }
  rewrite (rows_out_nil img d j
             (seqZ (i - d + (d - i) + height img) (d + i + 1 - height img))).
  2:{ apply Forall_forall. intros x Hx. apply elem_of_seqZ in Hx. lia. }
  replace (i - d + (d - i)) with 0 by lia.
  rewrite app_nil_r. cbn [app].
  apply list_bind_ext; [|reflexivity].
  intros x. apply row_pixels_whole; assumption.
Qed.

(** X21. With a blur distance of at least the larger dimension of the
    image minus one, every window covers the whole image: blur then gives
    all output pixels the same red, green and blue channels (each pixel
    keeping its own alpha), provided the sums over the image fit an
    [int]. *)
Theorem blur_whole_image src dst d :
  wf_image src -> has_dims dst (width src) (height src) ->
  blur_in_range src d -> 255 * window_cap src d <= INT_MAX ->
  height src - 1 <= d -> width src - 1 <= d ->
  exists out,
    imgproc_blur src dst d = Some out /\
    forall r1 c1 r2 c2,
      0 <= r1 < height src -> 0 <= c1 < width src ->
      0 <= r2 < height src -> 0 <= c2 < width src ->
      exists q1 q2,
        pixelAt out r1 c1 = Some q1 /\ pixelAt out r2 c2 = Some q2 /\
        getRed q1 = getRed q2 /\ getGreen q1 = getGreen q2 /\
        getBlue q1 = getBlue q2.
Proof.
  intros Hwf Hd Hrange Hcap Hh Hw.
  destruct (imgproc_blur_data src dst d Hwf Hd Hrange)
    as (out & E & _ & _ & _ & H).
  exists out. split; [assumption|].
  intros r1 c1 r2 c2 Hr1 Hc1 Hr2 Hc2.
  destruct (wf_pixelAt src r1 c1 Hwf Hr1 Hc1) as (p1 & Hp1 & _).
  destruct (wf_pixelAt src r2 c2 Hwf Hr2 Hc2) as (p2 & Hp2 & _).
  destruct (blur_result_channels src d r1 c1 p1 Hp1) as (q1 & Hq1 & _ & F1).
  destruct (blur_result_channels src d r2 c2 p2 Hp2) as (q2 & Hq2 & _ & F2).
  exists q1, q2.
  rewrite !H by assumption. split; [assumption|]. split; [assumption|].
  destruct F1 as (R1 & G1 & B1 & _).
  { apply sums_fit_cap; [|assumption].
    apply (blur_scan_spec src d r1 c1 Hwf Hrange Hr1 Hc1). }
  destruct F2 as (R2 & G2 & B2 & _).
  { apply sums_fit_cap; [|assumption].
    apply (blur_scan_spec src d r2 c2 Hwf Hrange Hr2 Hc2). }
  rewrite R1, G1, B1, R2, G2, B2.
  rewrite (window_pixels_whole src d r1 c1) by lia.
  rewrite (window_pixels_whole src d r2 c2) by lia.
  auto.
Qed.

Lemma blur_whole_image_witness :
  exists out,
    imgproc_blur img2x2 (blank 2 2) 1 = Some out /\
    exists q1 q2,
      pixelAt out 0 0 = Some q1 /\ pixelAt out 1 1 = Some q2 /\
      getRed q1 = getRed q2 /\ getGreen q1 = getGreen q2 /\
      getBlue q1 = getBlue q2.
Proof.
  destruct (blur_whole_image img2x2 (blank 2 2) 1) as (out & E & H).
  - apply wf_image_check. vm_compute. reflexivity.
  - vm_compute. auto.
  - unfold blur_in_range, INT_MAX. cbn. lia.
  - vm_compute. discriminate.
  - cbn. lia.
  - cbn. lia.
  - exists out. split; [assumption|]. apply H; cbn; lia.
Defined.

(** ** Squash after squash *)

Lemma imgproc_squash_samples_wf src dst xfac yfac out :
  wf_image src -> wf_image dst ->
  width out = width dst -> height out = height dst ->
  length (data out) = length (data dst) ->
  (forall i j, 0 <= i < height dst -> 0 <= j < width dst ->
     exists p, pixelAt out i j = Some p /\
               pixelAt src (i * yfac) (j * xfac) = Some p) ->
  wf_image out.
Proof.
  intros Hwf Hwfd Ew Eh HL H.
  pose proof Hwfd as (Hwp & Hhp & Hmax & Hlen & _).
  apply (wf_from_pixels out (width dst) (height dst)); try assumption; [lia|].
  intros row col Hr Hc. destruct (H row col Hr Hc) as (p & Ho & Hs).
  exists p. split; [assumption|].
  pose proof (pixelAt_Some_bounds _ _ _ _ Hs) as [Hr' Hc'].
  destruct (wf_pixelAt src _ _ Hwf Hr' Hc') as (p' & Hp' & Hu). congruence.
Qed.

(** X22. Squashing twice is squashing once by the products of the
    factors: for positive factors that keep the samples of both steps in
    bounds, squashing the squashed image gives the very image that one
    squash of the source by [xfac1 * xfac2] and [yfac1 * yfac2] gives. *)
Theorem squash_twice src mid dst x1 y1 x2 y2 :
  wf_image src -> wf_image mid -> wf_image dst ->
  0 < x1 -> 0 < y1 -> 0 < x2 -> 0 < y2 ->
  (forall i j, 0 <= i < height mid -> 0 <= j < width mid ->
     i * y1 < height src /\ j * x1 < width src) ->
  (forall i j, 0 <= i < height dst -> 0 <= j < width dst ->
     i * y2 < height mid /\ j * x2 < width mid) ->
  exists m out,
    imgproc_squash src mid x1 y1 = Some m /\
    imgproc_squash m dst x2 y2 = Some out /\
    imgproc_squash src dst (x1 * x2) (y1 * y2) = Some out.
Proof.
  intros Hwf Hwfm Hwfd Hx1 Hy1 Hx2 Hy2 Hin1 Hin2.
  destruct (imgproc_squash_samples src mid x1 y1 Hwf Hwfm Hx1 Hy1 Hin1)
    as (m & E1 & Wm & Hm & Lm & Pm).
  assert (Hwfm' : wf_image m).
  { apply (imgproc_squash_samples_wf src mid x1 y1 m); assumption. }
  destruct (imgproc_squash_samples m dst x2 y2 Hwfm' Hwfd Hx2 Hy2)
    as (out & E2 & Wo & Ho & Lo & Po).
  { rewrite Wm, Hm. exact Hin2. }
  destruct (imgproc_squash_samples src dst (x1 * x2) (y1 * y2) Hwf Hwfd)
    as (out' & E3 & Wo' & Ho' & Lo' & Po'); [nia | nia | |].
  { intros i j Hi Hj. destruct (Hin2 i j Hi Hj) as [Hr Hc].
    destruct (Hin1 (i * y2) (j * x2)) as [Hr' Hc']; [nia | nia |].
    split; nia. }
  exists m, out. split; [assumption|]. split; [assumption|].
  rewrite E3. f_equal.
  pose proof Hwfd as (Hwp & Hhp & Hmax & Hlen & _).
  apply image_eq; try congruence.
  apply data_ext; try congruence; try lia.
  intros row col Hrow Hcol.
  rewrite Ho in Hrow. rewrite Wo in Hcol.
  destruct (Po row col Hrow Hcol) as (p & Hp & Hpm).
  destruct (Po' row col Hrow Hcol) as (q & -> & Hq).
  destruct (Hin2 row col Hrow Hcol) as [Hr Hc].
  destruct (Pm (row * y2) (col * x2)) as (p' & Hp' & Hps); [nia | nia |].
  rewrite Hp.
  replace (row * (y1 * y2)) with (row * y2 * y1) in Hq by lia.
  replace (col * (x1 * x2)) with (col * x2 * x1) in Hq by lia.
  congruence.
Qed.

Lemma squash_twice_witness :
  exists m out,
    imgproc_squash img4x4 (blank 2 4) 2 1 = Some m /\
    imgproc_squash m (blank 2 2) 1 2 = Some out /\
    imgproc_squash img4x4 (blank 2 2) (2 * 1) (1 * 2) = Some out.
Proof.
  apply squash_twice;
    try (apply wf_image_check; vm_compute; reflexivity); try lia.
  - cbn. intros i j Hi Hj. lia.
  - cbn. intros i j Hi Hj. lia.
Defined.

(** ** Colour rotation and the geometric transforms *)

Lemma sumZ_fmap_ext (f g : Z -> Z) ps :
  (forall p, f p = g p) -> sumZ (f <$> ps) = sumZ (g <$> ps).
Proof.
  intros H. induction ps as [|p ps IH]; [reflexivity|].
  rewrite !sumZ_fmap_cons, IH, H. reflexivity.
Qed.

Lemma channel_avg_rot (ch ch' : Z -> Z) ps :
  (forall p, ch (color_rot_pixel p) = ch' p) ->
  channel_avg ch (color_rot_pixel <$> ps) = channel_avg ch' ps.
Proof.
  intros H. unfold channel_avg.
  rewrite length_fmap, <- list_fmap_compose.
  rewrite (sumZ_fmap_ext (ch ∘ color_rot_pixel) ch'); [reflexivity|].
  intros p. apply H.
Qed.

(** Rotating the channels of every pixel of a list rotates the channels
    of its average. *)
Lemma average_pixel_rot ps :
  average_pixel (color_rot_pixel <$> ps) = color_rot_pixel (average_pixel ps).
Proof.
  unfold average_pixel at 1.
  rewrite (channel_avg_rot getRed getBlue),
    (channel_avg_rot getGreen getRed),
    (channel_avg_rot getBlue getGreen),
    (channel_avg_rot getAlpha getAlpha)
    by (intros p; destruct (color_rot_pixel_channels p) as (? & ? & ? & ?);
        assumption).
  unfold color_rot_pixel at 1. unfold average_pixel.
  pose proof (channel_avg_range getRed ps getRed_range).
  pose proof (channel_avg_range getGreen ps getGreen_range).
  pose proof (channel_avg_range getBlue ps getBlue_range).
  pose proof (channel_avg_range getAlpha ps getAlpha_range).
  rewrite getRed_createPixel, getGreen_createPixel, getBlue_createPixel,
    getAlpha_createPixel by assumption.
  reflexivity.
Qed.

Lemma pixelAt_fmap (f : Z -> Z) img img' row col :
  width img' = width img -> height img' = height img ->
  data img' = f <$> data img ->
  pixelAt img' row col = f <$> pixelAt img row col.
Proof.
  intros Hw Hh Hd. unfold pixelAt. rewrite Hw, Hh, Hd.
  destruct ((0 <=? row) && (row <? height img) && (0 <=? col)
            && (col <? width img)); [|reflexivity].
  apply list_lookup_fmap.
Qed.

Lemma expand_spec_rot src r row col :
  width r = width src -> height r = height src ->
  data r = color_rot_pixel <$> data src ->
  expand_spec r row col = color_rot_pixel <$> expand_spec src row col.
Proof.
  intros Hw Hh Hd. unfold expand_spec. cbv zeta.
  rewrite !(pixelAt_fmap color_rot_pixel src r) by assumption.
  rewrite Hw, Hh.
  destruct (Z.even row), (Z.even col),
    (width src <=? col / 2 + 1), (height src <=? row / 2 + 1);
    repeat match goal with
      | |- context [pixelAt src ?x ?y] => destruct (pixelAt src x y)
      end;
    cbn [fmap option_fmap option_map mbind option_bind]; try reflexivity;
    f_equal;
    lazymatch goal with
    | |- average_pixel [color_rot_pixel ?a; color_rot_pixel ?b] = _ =>
        exact (average_pixel_rot [a; b])
    | |- average_pixel [color_rot_pixel ?a; color_rot_pixel ?b;
                        color_rot_pixel ?c; color_rot_pixel ?e] = _ =>
        exact (average_pixel_rot [a; b; c; e])
    end.
Qed.

(** X23. Colour rotation commutes with expand and with squash: rotating
    and then expanding (or squashing) gives the same image as expanding
    (or squashing) and then rotating, because the averagers work on each
    channel separately. *)
Theorem color_rot_commutes src sized grown shrunk xfac yfac :
  wf_image src ->
  has_dims sized (width src) (height src) ->
  (wf_image grown ->
   width grown = 2 * width src -> height grown = 2 * height src ->
   exists r er e re,
     imgproc_color_rot src sized = Some r /\
     imgproc_expand r grown = Some er /\
     imgproc_expand src grown = Some e /\
     imgproc_color_rot e grown = Some re /\
     er = re) /\
  (wf_image shrunk -> 0 < xfac -> 0 < yfac ->
   (forall i j, 0 <= i < height shrunk -> 0 <= j < width shrunk ->
      i * yfac < height src /\ j * xfac < width src) ->
   exists r sr s rs,
     imgproc_color_rot src sized = Some r /\
     imgproc_squash r shrunk xfac yfac = Some sr /\
     imgproc_squash src shrunk xfac yfac = Some s /\
     imgproc_color_rot s shrunk = Some rs /\
     sr = rs).
Proof.
  intros Hwf Hd.
  destruct (imgproc_color_rot_data src sized Hwf Hd)
    as (r & Er & Wr & Hr & Dr).
  pose proof (imgproc_color_rot_wf src r Hwf Wr Hr Dr) as Hwfr.
  split.
  - intros Hwfg Wg Hg.
    pose proof Hwfg as (Hwp & Hhp & Hmax & Hlen & _).
    destruct (imgproc_expand_data r grown Hwfr Hwfg)
      as (er & Eer & Wer & Her & Ler & Per); [lia | lia |].
    destruct (imgproc_expand_data src grown Hwf Hwfg)
      as (e & Ee & We & He & Le & Pe); [lia | lia |].
    assert (Hwfe : wf_image e).
    { apply (imgproc_expand_wf src grown e); try assumption; lia. }
    destruct (imgproc_color_rot_data e grown Hwfe)
      as (re & Ere & Wre & Hre & Dre).
    { unfold has_dims. rewrite We, He. auto. }
    exists r, er, e, re. repeat (split; [assumption|]).
    apply image_eq; try congruence.
    apply data_ext; try congruence; try lia.
    + rewrite Dre, length_fmap, Le, Wre, Hre, We, He. assumption.
    + rewrite Ler, Dre, length_fmap, Le. reflexivity.
    + intros row col Hrow Hcol.
      rewrite Hre, He in Hrow. rewrite Wre, We in Hcol.
      rewrite Per by assumption.
      rewrite (expand_spec_rot src r) by assumption.
      rewrite (pixelAt_fmap color_rot_pixel e re) by assumption.
      rewrite Pe by assumption. reflexivity.
  - intros Hwfs Hx Hy Hin.
    pose proof Hwfs as (Hwp & Hhp & Hmax & Hlen & _).
    destruct (imgproc_squash_samples r shrunk xfac yfac Hwfr Hwfs Hx Hy)
      as (sr & Esr & Wsr & Hsr & Lsr & Psr).
    { rewrite Wr, Hr. exact Hin. }
    destruct (imgproc_squash_samples src shrunk xfac yfac Hwf Hwfs Hx Hy Hin)
      as (s & Es & Ws & Hs & Ls & Ps).
    assert (Hwfs' : wf_image s).
    { apply (imgproc_squash_samples_wf src shrunk xfac yfac s); assumption. }
    destruct (imgproc_color_rot_data s shrunk Hwfs')
      as (rs & Ers & Wrs & Hrs & Drs).
    { unfold has_dims. rewrite Ws, Hs. auto. }
    exists r, sr, s, rs. repeat (split; [assumption|]).
    apply image_eq; try congruence.
    apply data_ext; try congruence; try lia.
    + rewrite Drs, length_fmap, Ls, Wrs, Hrs, Ws, Hs. assumption.
    + rewrite Lsr, Drs, length_fmap, Ls. reflexivity.
    + intros row col Hrow Hcol.
      rewrite Hrs, Hs in Hrow. rewrite Wrs, Ws in Hcol.
      destruct (Psr row col Hrow Hcol) as (p & -> & Hp).
      destruct (Ps row col Hrow Hcol) as (q & Hq & Hqs).
      rewrite (pixelAt_fmap color_rot_pixel s rs) by assumption.
      rewrite (pixelAt_fmap color_rot_pixel src r) in Hp by assumption.
      rewrite Hq. rewrite Hqs in Hp. cbn in Hp. cbn. congruence.
Qed.

Lemma color_rot_commutes_witness :
  (exists r er e re,
     imgproc_color_rot img2x2 (blank 2 2) = Some r /\
     imgproc_expand r (blank 4 4) = Some er /\
     imgproc_expand img2x2 (blank 4 4) = Some e /\
     imgproc_color_rot e (blank 4 4) = Some re /\
     er = re) /\
  (exists r sr s rs,
     imgproc_color_rot img2x2 (blank 2 2) = Some r /\
     imgproc_squash r (blank 1 1) 2 2 = Some sr /\
     imgproc_squash img2x2 (blank 1 1) 2 2 = Some s /\
     imgproc_color_rot s (blank 1 1) = Some rs /\
     sr = rs).
Proof.
  destruct (color_rot_commutes img2x2 (blank 2 2) (blank 4 4) (blank 1 1) 2 2)
    as (H1 & H2).
  - apply wf_image_check. vm_compute. reflexivity.
  - vm_compute. auto.
  - split.
    + apply H1; [|reflexivity|reflexivity].
      apply wf_image_check. vm_compute. reflexivity.
    + apply H2; [| lia | lia |].
      * apply wf_image_check. vm_compute. reflexivity.
      * cbn. intros i j Hi Hj. lia.
Defined.

(** ** The last row and column of an expansion *)

Lemma expand_spec_last_row src col :
  0 < height src ->
  expand_spec src (2 * height src - 1) col
  = expand_spec src (2 * height src - 2) col.
Proof.
  intros Hh. unfold expand_spec. cbv zeta.
  replace (2 * height src - 1) with (1 + (height src - 1) * 2) by lia.
  replace (2 * height src - 2) with (0 + (height src - 1) * 2) by lia.
  rewrite !Z.div_add by lia.
  rewrite !(Z.mul_comm (height src - 1) 2), !Z.even_add_mul_2.
  change (1 / 2) with 0. change (0 / 2) with 0.
  change (Z.even 1) with false. change (Z.even 0) with true.
  destruct (Z.leb_spec (height src) (0 + (height src - 1) + 1)); [|lia].
  destruct (Z.even col), (width src <=? col / 2 + 1); reflexivity.
Qed.

Lemma expand_spec_last_col src row :
  0 < width src ->
  expand_spec src row (2 * width src - 1)
  = expand_spec src row (2 * width src - 2).
Proof.
  intros Hw. unfold expand_spec. cbv zeta.
  replace (2 * width src - 1) with (1 + (width src - 1) * 2) by lia.
  replace (2 * width src - 2) with (0 + (width src - 1) * 2) by lia.
  rewrite !Z.div_add by lia.
  rewrite !(Z.mul_comm (width src - 1) 2), !Z.even_add_mul_2.
  change (1 / 2) with 0. change (0 / 2) with 0.
  change (Z.even 1) with false. change (Z.even 0) with true.
  destruct (Z.leb_spec (width src) (0 + (width src - 1) + 1)); [|lia].
  destruct (Z.even row), (height src <=? row / 2 + 1); reflexivity.
Qed.

(** X24. Expand clamps at the bottom and right edges by repetition: in the
    expansion of any image the last row is equal to the row above it and
    the last column is equal to the column to its left. *)
Theorem expand_edge_repeats src dst :
  wf_image src -> wf_image dst ->
  width dst = 2 * width src -> height dst = 2 * height src ->
  exists out,
    imgproc_expand src dst = Some out /\
    (forall col, 0 <= col < 2 * width src ->
       exists p,
         pixelAt out (2 * height src - 1) col = Some p /\
         pixelAt out (2 * height src - 2) col = Some p) /\
    (forall row, 0 <= row < 2 * height src ->
       exists p,
         pixelAt out row (2 * width src - 1) = Some p /\
         pixelAt out row (2 * width src - 2) = Some p).
Proof.
  intros Hwf Hwfd Hw Hh. pose proof Hwf as (Hwp & Hhp & _).
  destruct (imgproc_expand_data src dst Hwf Hwfd)
    as (out & E & _ & _ & _ & H); [lia | lia |].
  exists out. split; [assumption|]. split.
  - intros col Hc.
    destruct (expand_spec_Some src (2 * height src - 2) col Hwf)
      as (p & Hp & _); [lia | lia |].
    exists p. rewrite !H by lia.
    rewrite expand_spec_last_row by assumption. auto.
  - intros row Hr.
    destruct (expand_spec_Some src row (2 * width src - 2) Hwf)
      as (p & Hp & _); [lia | lia |].
    exists p. rewrite !H by lia.
    rewrite expand_spec_last_col by assumption. auto.
Qed.

Lemma expand_edge_repeats_witness :
  exists out,
    imgproc_expand img2x2 (blank 4 4) = Some out /\
    (exists p, pixelAt out 3 1 = Some p /\ pixelAt out 2 1 = Some p) /\
    (exists p, pixelAt out 1 3 = Some p /\ pixelAt out 1 2 = Some p).
Proof.
  destruct (expand_edge_repeats img2x2 (blank 4 4)) as (out & E & H1 & H2).
  - apply wf_image_check. vm_compute. reflexivity.
  - apply wf_image_check. vm_compute. reflexivity.
  - reflexivity.
  - reflexivity.
  - exists out. split; [assumption|]. split.
    + apply (H1 1). cbn. lia.
    + apply (H2 1). cbn. lia.
Defined.
